(** * The unconfirmed-transaction index of electrumx (server/mempool.py)

    A shallow embedding of [MemPool] and of the functions it is built from:
    the fee-histogram compactor, the transaction digester with its
    asset-script parser, the prevout resolver, the acceptance engine and the
    reconciler, followed by the properties proved about them.

    Conventions.  A Python [dict] whose iteration order is observable is an
    association list with unique keys; the indices of the mempool, which are
    accessed by key only, are [gmap]s, and Python [set]s are [gset]s.  A
    function that can raise returns a [result]; the mutable objects it was
    given are returned next to the outcome, since a mutation made before an
    exception stays. *)

From Stdlib Require Import ZArith Floats.
From Stdlib Require QArith Qpower.
From Stdlib Require Strings.Byte.
From stdpp Require Import gmap strings list fin_maps sorting.

Local Open Scope Z_scope.

(** ** Python outcomes *)

Inductive exn : Type :=
  | DBSyncError
  | KeyError
  | IndexError
  | TypeError
  | AssertionError
  | OverflowError
  | ZeroDivisionError
  | ValueError.

Inductive result (A : Type) : Type :=
  | Returned (a : A)
  | Raised (e : exn).
Arguments Returned {A} a.
Arguments Raised {A} e.

Global Instance exn_eq_dec : EqDecision exn.
Proof. solve_decision. Defined.

(** A statement that raises ends the function: what follows it is not
    run. *)
Global Instance result_bind : MBind result := λ A B k m,
  match m with
  | Returned a => k a
  | Raised e => Raised e
  end.
Global Instance result_ret : MRet result := @Returned.

(** ** Fee histogram: [_compress_histogram] *)

Section Histogram.
(** Fee rates are the keys of the histogram; the code only compares them.
    [rate_le] is their order (Python floats that are not NaN). *)
Context {rate : Type} (rate_le : relation rate) `{!RelDecision rate_le}.
(** [bin_size] starts as an [int] and becomes a [float] at the first
    [bin_size *= 1.1].  The code uses four operations on it; the
    multiplication can raise. *)
Context {num : Type}.
Variable is_positive : num → bool.      (* bin_size > 0 *)
Variable gt_twice : Z → num → bool.     (* size > 2 * bin_size *)
Variable gt : Z → num → bool.           (* cum_size > bin_size *)
Variable times_1_1 : num → result num.  (* bin_size * 1.1 *)

(** The local variables of the loop. *)
Record walk : Type := Walk {
  compact : list (rate * Z);
  cum_size : Z;
  prev_fee_rate : option rate;
  bin_size : num;
}.

(** [sorted(histogram.items(), reverse=True)]: the keys of a dict are
    distinct, so the order of the pairs is the order of their keys. *)
Definition rate_ge (a b : rate * Z) : Prop := rate_le b.1 a.1.

Global Instance rate_ge_dec : RelDecision rate_ge.
Proof. intros a b. unfold rate_ge. apply _. Defined.

Definition sorted_reverse (items : list (rate * Z)) : list (rate * Z) :=
  merge_sort rate_ge items.

(** Lines 233-235 and 239-241: append the pair, zero [cum_size], multiply
    [bin_size].  The three are locals, so what the first two statements did
    is lost when the third raises. *)
Definition emit (w : walk) (fee_rate : rate) : result walk :=
  bin_size' ← times_1_1 (bin_size w);
  mret (Walk (compact w ++ [(fee_rate, cum_size w)]) 0 (prev_fee_rate w)
          bin_size').

(** One iteration of the [for] loop. *)
Definition compress_step (w : walk) (item : rate * Z) : result walk :=
  let '(fee_rate, size) := item in
  w1 ← (if gt_twice size (bin_size w) then
          match prev_fee_rate w with
          | Some prev =>
              if bool_decide (0 < cum_size w) then emit w prev else mret w
          | None => mret w
          end
        else mret w);
  let w2 := Walk (compact w1) (cum_size w1 + size) (prev_fee_rate w1)
                 (bin_size w1) in
  w3 ← (if gt (cum_size w2) (bin_size w2) then emit w2 fee_rate
        else mret w2);
  mret (Walk (compact w3) (cum_size w3) (Some fee_rate) (bin_size w3)).

Definition compress_init (bin : num) : walk := Walk [] 0 None bin.

(** The [for] loop, on what is left of the sorted items. *)
Fixpoint compress_items (w : walk) (items : list (rate * Z)) : result walk :=
  match items with
  | [] => mret w
  | item :: rest => w' ← compress_step w item; compress_items w' rest
  end.

Definition compress_loop (bin : num) (items : list (rate * Z)) : result walk :=
  compress_items (compress_init bin) (sorted_reverse items).

Definition _compress_histogram (histogram : list (rate * Z)) (bin : num)
  : result (list (rate * Z)) :=
  if is_positive bin then w ← compress_loop bin histogram; mret (compact w)
  else Raised AssertionError.

(** The bytes counted by a list of buckets. *)
Definition sum_sizes (l : list (rate * Z)) : Z :=
  foldr (λ e acc, e.2 + acc) 0 l.

(** Strictly descending fee rates. *)
Definition rate_gt (a b : rate * Z) : Prop :=
  rate_le b.1 a.1 ∧ a.1 ≠ b.1.
End Histogram.

Arguments Walk {rate num} _ _ _ _.
Arguments compact {rate num} _.
Arguments cum_size {rate num} _.
Arguments prev_fee_rate {rate num} _.
Arguments bin_size {rate num} _.

(** *** The walk as the specification words it

    Pre-flush, accumulation and post-flush are three separate steps on the
    same four variables; an entry is processed by running them in this
    order and then remembering its fee rate.  The conditions and the
    growth of [bin_size] are relations on numbers, stated apart from the
    functions that compute them. *)

Section HistogramWalk.
Context {rate num : Type}.
Variable exceeds_twice : Z → num → Prop.   (* size > 2·bin_size *)
Variable exceeds : Z → num → Prop.         (* cum_size > bin_size *)
Variable multiplied : num → num → Prop.    (* bin_size ← bin_size · 1.1 *)

Inductive pre_flush (size : Z) : walk → walk → Prop :=
  | pre_flush_emit (w : walk (rate:=rate)) prev bin' :
      exceeds_twice size (bin_size w) →
      prev_fee_rate w = Some prev →
      0 < cum_size w →
      multiplied (bin_size w) bin' →
      pre_flush size w
        (Walk (compact w ++ [(prev, cum_size w)]) 0 (prev_fee_rate w) bin')
  | pre_flush_keep w :
      ¬ (exceeds_twice size (bin_size w) ∧ is_Some (prev_fee_rate w)
         ∧ 0 < cum_size w) →
      pre_flush size w w.

Inductive post_flush (fee_rate : rate) : walk → walk → Prop :=
  | post_flush_emit (w : walk (rate:=rate)) bin' :
      exceeds (cum_size w) (bin_size w) →
      multiplied (bin_size w) bin' →
      post_flush fee_rate w
        (Walk (compact w ++ [(fee_rate, cum_size w)]) 0 (prev_fee_rate w) bin')
  | post_flush_keep w :
      ¬ exceeds (cum_size w) (bin_size w) →
      post_flush fee_rate w w.

Inductive entry_step : walk → rate * Z → walk → Prop :=
  | entry_step_intro w w1 w3 fee_rate size :
      pre_flush size w w1 →
      post_flush fee_rate
        (Walk (compact w1) (cum_size w1 + size) (prev_fee_rate w1)
              (bin_size w1)) w3 →
      entry_step w (fee_rate, size)
        (Walk (compact w3) (cum_size w3) (Some fee_rate) (bin_size w3)).

Inductive entries_walk : walk → list (rate * Z) → walk → Prop :=
  | entries_walk_nil w : entries_walk w [] w
  | entries_walk_cons w w1 w2 item items :
      entry_step w item w1 →
      entries_walk w1 items w2 →
      entries_walk w (item :: items) w2.

(** No pair is due on a walk of [entries] that starts with [bin]: at no
    entry does the pre-flush or the post-flush find its condition true, the
    sizes of the entries before it being what [cum_size] holds. *)
Definition never_due (bin : num) (entries : list (rate * Z)) : Prop :=
  ∀ before fee_rate size after,
    entries = before ++ (fee_rate, size) :: after →
    ¬ (exceeds_twice size bin ∧ before ≠ [] ∧ 0 < sum_sizes before)
    ∧ ¬ exceeds (sum_sizes before + size) bin.
End HistogramWalk.

(** ** Bytes *)

Abbreviation byte := Corelib.Init.Byte.byte.
Abbreviation bytes := (list Corelib.Init.Byte.byte).

Global Instance byte_eq_dec : EqDecision byte := Stdlib.Strings.Byte.byte_eq_dec.

Definition byte_to_Z (b : byte) : Z := Z.of_N (Stdlib.Strings.Byte.to_N b).

(** [int.from_bytes(bs, 'little', signed=False)] *)
Fixpoint int_from_bytes_little (bs : bytes) : Z :=
  match bs with
  | [] => 0
  | b :: bs' => byte_to_Z b + 256 * int_from_bytes_little bs'
  end.

(** [bs.decode('ascii')]: every byte must be below 128, else
    [UnicodeDecodeError]. *)
Fixpoint decode_ascii (bs : bytes) : option string :=
  match bs with
  | [] => Some EmptyString
  | b :: bs' =>
      if bool_decide (byte_to_Z b < 128)
      then String (Ascii.ascii_of_byte b) <$> decode_ascii bs'
      else None
  end.

(** ** Dictionaries that are iterated

    The pairs in insertion order; assigning to a key that is present
    replaces its value in place. *)

Section Dict.
Context {K V : Type} `{EqDecision K}.

Fixpoint dict_set (k : K) (v : V) (d : list (K * V)) : list (K * V) :=
  match d with
  | [] => [(k, v)]
  | (k', v') :: d' =>
      if decide (k = k') then (k, v) :: d' else (k', v') :: dict_set k v d'
  end.

Fixpoint dict_get (k : K) (d : list (K * V)) : option V :=
  match d with
  | [] => None
  | (k', v') :: d' => if decide (k = k') then Some v' else dict_get k d'
  end.

(** [d.update(other)] *)
Definition dict_update (d other : list (K * V)) : list (K * V) :=
  foldl (λ acc kv, dict_set kv.1 kv.2 acc) d other.
End Dict.

(** ** Data model *)

Abbreviation tx_hash := N.                 (* the 32 bytes of a hash *)
Abbreviation hashX := N.                   (* a script hash *)
Abbreviation prevout := (N * nat)%type.
(** The tuple [(hashX, value, is_asset, asset_name)]. *)
Abbreviation io_pair := (N * Z * bool * option string)%type.

Definition pair_hashX (p : io_pair) : hashX := p.1.1.1.
Definition pair_value (p : io_pair) : Z := p.1.1.2.
Definition pair_is_asset (p : io_pair) : bool := p.1.2.
Definition pair_name (p : io_pair) : option string := p.2.

Record MemPoolTx : Type := mkMemPoolTx {
  prevouts : list prevout;
  in_pairs : option (list io_pair);      (* [None] until the tx is accepted *)
  out_pairs : list io_pair;
  fee : Z;
  tx_size : Z;                        (* the attribute [size] *)
}.

(** The dict stored per asset name: ['source'] holds the hash as a hex
    string, and [hex_str_to_hash] after [hash_to_hex_str] is the identity, so
    the hash itself is kept. *)
Record AssetSource : Type := mkAssetSource {
  source_tx_hash : tx_hash;
  tx_pos : nat;
  height : Z;
}.

Record AssetIssuance : Type := mkAssetIssuance {
  sats_in_circulation : Z;
  divisions : Z;
  reissuable : bool;
  has_ipfs : bool;
  ipfs : option string;               (* the key is absent when [None] *)
  source : AssetSource;
}.

(** The indices of a [MemPool] object. *)
Record MemPool : Type := mkMemPool {
  txs : gmap tx_hash MemPoolTx;
  hashXs : gmap hashX (gset tx_hash);
  asset_creates : gmap string AssetIssuance;
  tx_to_asset_create : gmap tx_hash (gset string);
  asset_reissues : gmap string AssetIssuance;
  tx_to_asset_reissue : gmap tx_hash (gset string);
}.

Definition MemPool_init : MemPool := mkMemPool ∅ ∅ ∅ ∅ ∅ ∅.

(** ** What the digester gets from the library and the coin class *)

(** An element of [Script.get_ops(script)]: the opcode, the offset in the
    script at which the element ends, and the pushed data if any. *)
Record ScriptOp : Type := mkScriptOp {
  op_code : Z;
  op_end : nat;
  op_data : option bytes;
}.

Record TxInput : Type := mkTxInput {
  prev_hash : tx_hash;
  prev_idx : nat;
  is_generation : bool;
}.

Record TxOutput : Type := mkTxOutput {
  value : Z;
  pk_script : bytes;
}.

Record Tx : Type := mkTx {
  inputs : list TxInput;
  outputs : list TxOutput;
}.

(** The functions of [electrumx.lib] and of the coin class that
    [deserialize_txs] calls; their code is not part of this file. *)
Record Lib : Type := mkLib {
  hashX_from_script : bytes → hashX;
  get_ops : bytes → list ScriptOp;
  OP_RVN_ASSET : Z;
  base_encode : bytes → Z → string;
  read_tx : bytes → Tx * Z;           (* the transaction and its size *)
}.

(** ** [DataParser] *)

(** Modelled from the spec: [DataParser] of electrumx.lib.util is not part of
    this file.  The parser reads the payload front to back: fixed-length
    reads (the 3 header bytes, the 8-byte value, the 34-byte IPFS blob),
    one-byte reads, and the asset name behind a varint length; a read past
    the end of the payload raises. *)
Record DataParser : Type := mkDataParser {
  data : bytes;
  cursor : nat;
}.

Definition read_bytes (n : nat) (p : DataParser)
  : option (bytes * DataParser) :=
  if decide (cursor p + n ≤ length (data p))%nat
  then Some (take n (drop (cursor p) (data p)),
             mkDataParser (data p) (cursor p + n))
  else None.

(** One byte, as a [bytes] object of length one. *)
Definition read_byte (p : DataParser) : option (bytes * DataParser) :=
  read_bytes 1 p.

(** One byte, as an integer. *)
Definition read_int (p : DataParser) : option (Z * DataParser) :=
  match read_bytes 1 p with
  | Some ([b], p') => Some (byte_to_Z b, p')
  | _ => None
  end.

(** A varint: one byte below 253, or a marker byte 253, 254 or 255 followed
    by 2, 4 or 8 bytes, least significant first. *)
Definition read_var_int (p : DataParser) : option (Z * DataParser) :=
  match read_int p with
  | Some (n, p') =>
      if n <? 253 then Some (n, p')
      else
        let width := if n =? 253 then 2%nat
                     else if n =? 254 then 4%nat else 8%nat in
        match read_bytes width p' with
        | Some (bs, p'') => Some (int_from_bytes_little bs, p'')
        | None => None
        end
  | None => None
  end.

Definition read_var_bytes (p : DataParser) : option (bytes * DataParser) :=
  match read_var_int p with
  | Some (n, p') => read_bytes (Z.to_nat n) p'
  | None => None
  end.

(** ** The [try] block of the digester

    The block appends to [txout_tuple_list], assigns the local [value] and
    writes the two per-batch dicts before it is done, so an exception leaves
    whatever was written before it.  [Try A] is a computation over these
    locals that either yields an [A] or raises. *)

Record locals : Type := mkLocals {
  txout_tuple_list : list io_pair;
  asset_meta_creates : list (string * AssetIssuance);
  asset_meta_reissues : list (string * AssetIssuance);
  value_var : Z;                       (* the local [value] *)
  asset_deserializer : DataParser;
}.

Definition Try (A : Type) : Type := locals → locals * option A.

Definition try_ret {A} (a : A) : Try A := λ l, (l, Some a).

Definition try_bind {A B} (m : Try A) (k : A → Try B) : Try B :=
  λ l, match m l with
       | (l', Some a) => k a l'
       | (l', None) => (l', None)
       end.

Global Instance Try_bind : MBind Try := λ A B k m, try_bind m k.
Global Instance Try_ret : MRet Try := @try_ret.
Global Instance Try_fmap : FMap Try := λ A B f m, try_bind m (λ a, try_ret (f a)).

(** An operation that raises when it has no result. *)
Definition or_raise {A} (o : option A) : Try A := λ l, (l, o).

(** A read through [asset_deserializer], which moves its cursor. *)
Definition parse {A} (read : DataParser → option (A * DataParser)) : Try A :=
  λ l, match read (asset_deserializer l) with
       | Some (a, p') =>
           (mkLocals (txout_tuple_list l) (asset_meta_creates l)
                     (asset_meta_reissues l) (value_var l) p', Some a)
       | None => (l, None)
       end.

Definition new_parser (script : bytes) : Try unit :=
  λ l, (mkLocals (txout_tuple_list l) (asset_meta_creates l)
                 (asset_meta_reissues l) (value_var l)
                 (mkDataParser script 0), Some tt).

Definition the_parser : Try DataParser := λ l, (l, Some (asset_deserializer l)).

Definition append_pair (p : io_pair) : Try unit :=
  λ l, (mkLocals (txout_tuple_list l ++ [p]) (asset_meta_creates l)
                 (asset_meta_reissues l) (value_var l)
                 (asset_deserializer l), Some tt).

Definition assign_value (v : Z) : Try unit :=
  λ l, (mkLocals (txout_tuple_list l) (asset_meta_creates l)
                 (asset_meta_reissues l) v (asset_deserializer l), Some tt).

Definition the_value : Try Z := λ l, (l, Some (value_var l)).

Definition set_create (name : string) (d : AssetIssuance) : Try unit :=
  λ l, (mkLocals (txout_tuple_list l) (dict_set name d (asset_meta_creates l))
                 (asset_meta_reissues l) (value_var l)
                 (asset_deserializer l), Some tt).

Definition set_reissue (name : string) (d : AssetIssuance) : Try unit :=
  λ l, (mkLocals (txout_tuple_list l) (asset_meta_creates l)
                 (dict_set name d (asset_meta_reissues l)) (value_var l)
                 (asset_deserializer l), Some tt).

Definition byte_o : Z := 111.   (* b'o'[0] *)
Definition byte_q : Z := 113.   (* b'q'[0] *)
Definition byte_r : Z := 114.   (* b'r'[0] *)

Section Digest.
Variable lib : Lib.

(** Lines 438-507: the body of the [try]. *)
Definition asset_portion (hX : hashX) (ops : list ScriptOp) (op_ptr : Z)
    (h : tx_hash) (vout_n : nat) : Try unit :=
  next_op ← or_raise (ops !! Z.to_nat (op_ptr + 1));
  asset_script ← or_raise (op_data next_op);
  new_parser asset_script;;
  parse (read_bytes 3);;
  asset_type ← parse read_int;
  asset_name ← parse read_var_bytes;
  if asset_type =? byte_o then
    name ← or_raise (decode_ascii asset_name);
    append_pair (hX, 100000000, true, Some name);;
    set_create name
      (mkAssetIssuance 100000000 0 false false None
         (mkAssetSource h vout_n (-1)))
  else
    raw ← parse (read_bytes 8);
    assign_value (int_from_bytes_little raw);;
    name ← or_raise (decode_ascii asset_name);
    v ← the_value;
    append_pair (hX, v, true, Some name);;
    if asset_type =? byte_r then
      divs ← parse read_int;
      reiss ← parse read_int;
      p ← the_parser;
      asset_data ←
        (if decide (cursor p + 34 ≤ length (data p))%nat
         then Some <$> parse (read_bytes 34)
         else mret None);
      set_reissue name
        (mkAssetIssuance v divs (negb (reiss =? 0))
           (bool_decide (is_Some asset_data))
           ((λ bs, base_encode lib bs 58) <$> asset_data)
           (mkAssetSource h vout_n (-1)))
    else if asset_type =? byte_q then
      divs ← parse read_int;
      reiss ← parse read_int;
      has_meta ← parse read_byte;
      asset_data ←
        (if decide (has_meta ≠ [Byte.x00])
         then Some <$> parse (read_bytes 34)
         else mret None);
      set_create name
        (mkAssetIssuance v divs (negb (reiss =? 0))
           (bool_decide (is_Some asset_data))
           ((λ bs, base_encode lib bs 58) <$> asset_data)
           (mkAssetSource h vout_n (-1)))
    else mret tt.

(** Lines 420-424: the index of the first [OP_RVN_ASSET], or -1. *)
Fixpoint find_op_ptr (i : Z) (ops : list ScriptOp) : Z :=
  match ops with
  | [] => -1
  | op :: ops' =>
      if op_code op =? OP_RVN_ASSET lib then i else find_op_ptr (i + 1) ops'
  end.

(** Lines 413-511: one output.  [l] holds the list of pairs and the two
    dicts as the outputs before this one left them. *)
Definition digest_output (h : tx_hash) (l : locals)
    (numbered : nat * TxOutput) : locals :=
  let '(vout_n, txout) := numbered in
  let l := mkLocals (txout_tuple_list l) (asset_meta_creates l)
                    (asset_meta_reissues l) (value txout)
                    (asset_deserializer l) in
  let ops := get_ops lib (pk_script txout) in
  let op_ptr := find_op_ptr 0 ops in
  let hX :=
    if 0 <? op_ptr then
      match ops !! Z.to_nat (op_ptr - 1) with
      | Some prev_op =>
          hashX_from_script lib (take (op_end prev_op) (pk_script txout))
      | None => hashX_from_script lib (pk_script txout)  (* not reached *)
      end
    else hashX_from_script lib (pk_script txout) in
  if (0 <? op_ptr) && (op_ptr <? Z.of_nat (length ops)) then
    match asset_portion hX ops op_ptr h vout_n l with
    | (l', Some _) => l'
    | (l', None) =>
        (* except Exception *)
        mkLocals (txout_tuple_list l' ++ [(hX, value_var l', false, None)])
                 (asset_meta_creates l') (asset_meta_reissues l')
                 (value_var l') (asset_deserializer l')
    end
  else
    mkLocals (txout_tuple_list l ++ [(hX, value_var l, false, None)])
             (asset_meta_creates l) (asset_meta_reissues l)
             (value_var l) (asset_deserializer l).

Definition enumerate {A} (xs : list A) : list (nat * A) :=
  zip (seq 0 (length xs)) xs.

(** Lines 400-515: one [(tx_hash, raw_tx)] of the batch. *)
Definition digest_tx
    (acc : list (tx_hash * MemPoolTx) * list (string * AssetIssuance)
           * list (string * AssetIssuance))
    (item : tx_hash * option bytes) :=
  let '(txs, creates, reissues) := acc in
  let '(h, raw_tx) := item in
  match raw_tx with
  | None | Some [] => acc           (* if not raw_tx: continue *)
  | Some raw =>
      let '(tx, size) := read_tx lib raw in
      let txin_pairs :=
        (λ txin, (prev_hash txin, prev_idx txin)) <$>
        filter (λ txin, is_generation txin = false) (inputs tx) in
      let l := foldl (digest_output h)
                 (mkLocals [] creates reissues 0 (mkDataParser [] 0))
                 (enumerate (outputs tx)) in
      (dict_set h (mkMemPoolTx txin_pairs None (txout_tuple_list l) 0 size) txs,
       asset_meta_creates l, asset_meta_reissues l)
  end.

Definition deserialize_txs (hashes : list tx_hash)
    (raw_txs : list (option bytes)) :=
  foldl digest_tx ([], [], []) (zip hashes raw_txs).
End Digest.

(** ** Acceptance engine: [_accept_transactions] *)

(** The native-coin sum [sum((v if not is_asset else 0) for ...)]. *)
Definition native_sum (pairs : list io_pair) : Z :=
  foldr (λ p acc, (if pair_is_asset p then 0 else pair_value p) + acc) 0 pairs.

(** Lines 263-269: the input pair of one prevout.  [txs[prev_hash]] raises
    [KeyError] for an unknown hash and the tuple index raises [IndexError]
    for a position the parent does not have. *)
Definition find_utxo (txs : gmap tx_hash MemPoolTx)
    (utxo_map : gmap prevout io_pair) (po : prevout) : result io_pair :=
  match utxo_map !! po with
  | Some utxo => Returned utxo
  | None =>
      match txs !! po.1 with
      | None => Raised KeyError
      | Some parent =>
          match out_pairs parent !! po.2 with
          | Some utxo => Returned utxo
          | None => Raised IndexError
          end
      end
  end.

Fixpoint find_in_pairs (txs : gmap tx_hash MemPoolTx)
    (utxo_map : gmap prevout io_pair) (pos : list prevout) : result (list io_pair) :=
  match pos with
  | [] => Returned []
  | po :: pos' =>
      match find_utxo txs utxo_map po with
      | Raised e => Raised e
      | Returned utxo =>
          match find_in_pairs txs utxo_map pos' with
          | Raised e => Raised e
          | Returned rest => Returned (utxo :: rest)
          end
      end
  end.

(** What one pass reads and writes: the mempool, the two accumulators of the
    caller, and the locals [deferred] and [unspent]. *)
Record accepting : Type := mkAccepting {
  self : MemPool;
  touched : gset hashX;
  assets_touched : gset string;
  deferred : list (tx_hash * MemPoolTx);
  unspent : gset prevout;
}.

(** Lines 285-287. *)
Definition touch (h : tx_hash) (acc : gset hashX * gmap hashX (gset tx_hash))
    (p : io_pair) : gset hashX * gmap hashX (gset tx_hash) :=
  (acc.1 ∪ {[pair_hashX p]},
   <[pair_hashX p := default ∅ (acc.2 !! pair_hashX p) ∪ {[h]}]> acc.2).

(** Lines 274-292: the transaction is accepted. *)
Definition commit (a : accepting) (h : tx_hash) (tx : MemPoolTx)
    (ins : list io_pair) : accepting :=
  let tx' := mkMemPoolTx (prevouts tx) (Some ins) (out_pairs tx)
               (Z.max 0 (native_sum ins - native_sum (out_pairs tx)))
               (tx_size tx) in
  let '(touched', hashXs') :=
    foldl (touch h) (touched a, hashXs (self a)) (ins ++ out_pairs tx) in
  let self' := mkMemPool (<[h := tx']> (txs (self a))) hashXs'
                 (asset_creates (self a)) (tx_to_asset_create (self a))
                 (asset_reissues (self a)) (tx_to_asset_reissue (self a)) in
  mkAccepting self' touched'
    (assets_touched a
       ∪ default ∅ (tx_to_asset_create (self a) !! h)
       ∪ default ∅ (tx_to_asset_reissue (self a) !! h))
    (deferred a)
    (unspent a ∖ list_to_set (prevouts tx)).

(** Lines 260-292: the body of the loop for one item of [tx_map]; [None]
    when the iteration ends normally, the exception otherwise. *)
Definition accept_one (utxo_map : gmap prevout io_pair) (a : accepting)
    (item : tx_hash * MemPoolTx) : accepting * option exn :=
  let '(h, tx) := item in
  match find_in_pairs (txs (self a)) utxo_map (prevouts tx) with
  | Raised KeyError =>
      (mkAccepting (self a) (touched a) (assets_touched a)
         (dict_set h tx (deferred a)) (unspent a), None)
  | Raised e => (a, Some e)
  | Returned ins => (commit a h tx ins, None)
  end.

Fixpoint accept_all (utxo_map : gmap prevout io_pair) (a : accepting)
    (tx_map : list (tx_hash * MemPoolTx)) : accepting * option exn :=
  match tx_map with
  | [] => (a, None)
  | item :: rest =>
      match accept_one utxo_map a item with
      | (a', None) => accept_all utxo_map a' rest
      | (a', Some e) => (a', Some e)
      end
  end.

(** The objects a call may have mutated, whatever its outcome. *)
Record heap : Type := mkHeap {
  pool : MemPool;
  h_touched : gset hashX;
  h_assets_touched : gset string;
}.

Definition _accept_transactions (hp : heap)
    (tx_map : list (tx_hash * MemPoolTx)) (utxo_map : gmap prevout io_pair)
  : heap * result (list (tx_hash * MemPoolTx) * gmap prevout io_pair) :=
  let a0 := mkAccepting (pool hp) (h_touched hp) (h_assets_touched hp) []
              (dom utxo_map) in
  let '(a, outcome) := accept_all utxo_map a0 tx_map in
  let hp' := mkHeap (self a) (touched a) (assets_touched a) in
  match outcome with
  | Some e => (hp', Raised e)
  | None =>
      (hp', Returned (deferred a,
                      filter (λ kv, kv.1 ∈ unspent a) utxo_map))
  end.

(** ** The collaborator: [MemPoolAPI] *)

(** The answers of the daemon and of the DB during one refresh.  A lookup
    returns one entry per prevout asked for in the documented interface, and
    [None] for a prevout it does not find. *)
Record MemPoolAPI : Type := mkMemPoolAPI {
  api_height : Z;
  cached_height : Z;
  db_height : Z;
  mempool_hashes : gset tx_hash;
  raw_transactions : list tx_hash → list (option bytes);
  lookup_utxos : list prevout → list (option (hashX * Z));
  lookup_assets : list prevout → list (option (hashX * Z * string));
}.

(** ** Prevout resolver and [_fetch_and_accept] *)

(** Lines 521-526 and 528-533: the per-batch dict goes into the forward and
    the reverse index. *)
Definition register (idx : gmap string AssetIssuance * gmap tx_hash (gset string))
    (item : string * AssetIssuance)
  : gmap string AssetIssuance * gmap tx_hash (gset string) :=
  let '(asset, stats) := item in
  let hash_b := source_tx_hash (source stats) in
  (<[asset := stats]> idx.1,
   <[hash_b := default ∅ (idx.2 !! hash_b) ∪ {[asset]}]> idx.2).

Definition register_all (m : MemPool)
    (internal_creates internal_reissues : list (string * AssetIssuance))
  : MemPool :=
  let '(creates, tx_to_create) :=
    foldl register (asset_creates m, tx_to_asset_create m) internal_creates in
  let '(reissues, tx_to_reissue) :=
    foldl register (asset_reissues m, tx_to_asset_reissue m) internal_reissues in
  mkMemPool (txs m) (hashXs m) creates tx_to_create reissues tx_to_reissue.

(** Lines 540-542. *)
Definition external_prevouts (tx_map : list (tx_hash * MemPoolTx))
    (all_hashes : gset tx_hash) : list prevout :=
  tx_map ≫= (λ item, filter (λ po, po.1 ∉ all_hashes) (prevouts item.2)).

(** Lines 546-547: [for hX, v in ...] cannot unpack [None]. *)
Fixpoint utxo_tuples (found : list (option (hashX * Z))) : result (list io_pair) :=
  match found with
  | [] => Returned []
  | None :: _ => Raised TypeError
  | Some (hX, v) :: rest =>
      match utxo_tuples rest with
      | Returned l => Returned ((hX, v, false, None) :: l)
      | Raised e => Raised e
      end
  end.

(** Lines 549-550. *)
Fixpoint asset_tuples (found : list (option (hashX * Z * string)))
  : result (list io_pair) :=
  match found with
  | [] => Returned []
  | None :: _ => Raised TypeError
  | Some (hX, v, name) :: rest =>
      match asset_tuples rest with
      | Returned l => Returned ((hX, v, true, Some name) :: l)
      | Raised e => Raised e
      end
  end.

(** [{k: v for k, v in zip(keys, values)}]: a later pair replaces an earlier
    one with the same key. *)
Definition dict_of_zip {V} (keys : list prevout) (values : list V)
  : gmap prevout V :=
  foldl (λ m kv, <[kv.1 := kv.2]> m) ∅ (zip keys values).

(** Lines 540-552. *)
Definition resolve_prevouts (api : MemPoolAPI)
    (tx_map : list (tx_hash * MemPoolTx)) (all_hashes : gset tx_hash)
  : result (gmap prevout io_pair) :=
  let pos := external_prevouts tx_map all_hashes in
  match utxo_tuples (lookup_utxos api pos) with
  | Raised e => Raised e
  | Returned from_utxos =>
      match asset_tuples (lookup_assets api pos) with
      | Raised e => Raised e
      | Returned from_assets =>
          Returned (dict_of_zip pos (from_utxos ++ from_assets))
      end
  end.

Section Reconciler.
Variable lib : Lib.

Definition _fetch_and_accept (api : MemPoolAPI) (hp : heap)
    (hashes : list tx_hash) (all_hashes : gset tx_hash)
  : heap * result (list (tx_hash * MemPoolTx) * gmap prevout io_pair) :=
  let raw_txs := raw_transactions api hashes in
  let '(tx_map, internal_creates, internal_reissues) :=
    deserialize_txs lib hashes raw_txs in
  let hp1 := mkHeap (register_all (pool hp) internal_creates internal_reissues)
               (h_touched hp) (h_assets_touched hp) in
  match resolve_prevouts api tx_map all_hashes with
  | Raised e => (hp1, Raised e)
  | Returned utxo_map => _accept_transactions hp1 tx_map utxo_map
  end.

(** Lines 338-354: one transaction leaves. *)
Definition unindex (h : tx_hash) (acc : gmap hashX (gset tx_hash) * option exn)
    (hX : hashX) : gmap hashX (gset tx_hash) * option exn :=
  match acc with
  | (m, Some e) => (m, Some e)
  | (m, None) =>
      match m !! hX with
      | None => (<[hX := ∅]> m, Some KeyError)   (* the defaultdict made it *)
      | Some s =>
          if decide (h ∈ s) then
            if decide (s ∖ {[h]} = ∅) then (delete hX m, None)
            else (<[hX := s ∖ {[h]}]> m, None)
          else (m, Some KeyError)
      end
  end.

Definition pop_all {V} (names : gset string) (m : gmap string V)
  : gmap string V :=
  filter (λ kv, kv.1 ∉ names) m.

Definition evict_one (hp : heap) (h : tx_hash) : heap * option exn :=
  let m := pool hp in
  match txs m !! h with
  | None => (hp, Some KeyError)
  | Some tx =>
      let reissued_assets := default ∅ (tx_to_asset_reissue m !! h) in
      let created_assets := default ∅ (tx_to_asset_create m !! h) in
      let m1 := mkMemPool (delete h (txs m)) (hashXs m)
                  (pop_all created_assets (asset_creates m))
                  (delete h (tx_to_asset_create m))
                  (pop_all reissued_assets (asset_reissues m))
                  (delete h (tx_to_asset_reissue m)) in
      match in_pairs tx with
      | None => (mkHeap m1 (h_touched hp) (h_assets_touched hp), Some TypeError)
      | Some ins =>
          let tx_hashXs : gset hashX :=
            list_to_set (pair_hashX <$> ins)
            ∪ list_to_set (pair_hashX <$> out_pairs tx) in
          let '(hashXs', outcome) :=
            foldl (unindex h) (hashXs m1, None) (elements tx_hashXs) in
          let m2 := mkMemPool (txs m1) hashXs' (asset_creates m1)
                      (tx_to_asset_create m1) (asset_reissues m1)
                      (tx_to_asset_reissue m1) in
          match outcome with
          | Some e => (mkHeap m2 (h_touched hp) (h_assets_touched hp), Some e)
          | None =>
              (mkHeap m2 (h_touched hp ∪ tx_hashXs) (h_assets_touched hp),
               None)
          end
      end
  end.

Fixpoint evict_all (hp : heap) (gone : list tx_hash) : heap * option exn :=
  match gone with
  | [] => (hp, None)
  | h :: rest =>
      match evict_one hp h with
      | (hp', None) => evict_all hp' rest
      | (hp', Some e) => (hp', Some e)
      end
  end.

(** Modelled from the spec: [chunks] of electrumx.lib.util is not part of
    this file; new hashes are ingested in consecutive batches of at most
    [size] hashes (200 in the call). *)
Fixpoint chunks_upto {A} (n : nat) (items : list A) (size : nat)
  : list (list A) :=
  match n, items with
  | _, [] => []
  | O, _ => []
  | S n', _ => take size items :: chunks_upto n' (drop size items) size
  end.

Definition chunks {A} (items : list A) (size : nat) : list (list A) :=
  chunks_upto (length items) items size.

(** Lines 360-370: the batches, in the order of [chunks]; a batch is fetched
    and accepted before the next one starts. *)
Fixpoint fetch_batches (api : MemPoolAPI) (all_hashes : gset tx_hash)
    (hp : heap) (tx_map : list (tx_hash * MemPoolTx))
    (utxo_map : gmap prevout io_pair) (batches : list (list tx_hash))
  : heap * result (list (tx_hash * MemPoolTx) * gmap prevout io_pair) :=
  match batches with
  | [] => (hp, Returned (tx_map, utxo_map))
  | hashes :: rest =>
      match _fetch_and_accept api hp hashes all_hashes with
      | (hp', Raised e) => (hp', Raised e)
      | (hp', Returned (deferred, unspent)) =>
          fetch_batches api all_hashes hp'
            (dict_update tx_map deferred) (unspent ∪ utxo_map) rest
      end
  end.

(** Lines 372-377: [while tx_map and len(tx_map) != prior_count].  [n]
    bounds the number of passes; [_process_mempool] gives it more than the
    loop can use. *)
Fixpoint accept_until_stable (n : nat) (hp : heap)
    (tx_map : list (tx_hash * MemPoolTx)) (utxo_map : gmap prevout io_pair)
    (prior_count : nat)
  : heap * result (list (tx_hash * MemPoolTx)) :=
  match n with
  | O => (hp, Returned tx_map)
  | S n' =>
      if bool_decide (tx_map ≠ []) && bool_decide (length tx_map ≠ prior_count)
      then
        match _accept_transactions hp tx_map utxo_map with
        | (hp', Raised e) => (hp', Raised e)
        | (hp', Returned (tx_map', utxo_map')) =>
            accept_until_stable n' hp' tx_map' utxo_map' (length tx_map)
        end
      else (hp, Returned tx_map)
  end.

(** The same loop as a relation: one rule for leaving the loop, one for a
    pass that raises, one for a pass followed by the rest of the loop. *)
Inductive accept_while :
    heap → list (tx_hash * MemPoolTx) → gmap prevout io_pair → nat →
    heap * result (list (tx_hash * MemPoolTx)) → Prop :=
  | accept_while_exit hp tx_map utxo_map prior_count :
      tx_map = [] ∨ length tx_map = prior_count →
      accept_while hp tx_map utxo_map prior_count (hp, Returned tx_map)
  | accept_while_raise hp tx_map utxo_map prior_count hp' e :
      tx_map ≠ [] → length tx_map ≠ prior_count →
      _accept_transactions hp tx_map utxo_map = (hp', Raised e) →
      accept_while hp tx_map utxo_map prior_count (hp', Raised e)
  | accept_while_pass hp tx_map utxo_map prior_count hp' tx_map' utxo_map' out :
      tx_map ≠ [] → length tx_map ≠ prior_count →
      _accept_transactions hp tx_map utxo_map
        = (hp', Returned (tx_map', utxo_map')) →
      accept_while hp' tx_map' utxo_map' (length tx_map) out →
      accept_while hp tx_map utxo_map prior_count out.

(** Lines 323-381.  The result is the heap as the call left it and, when it
    returns, the transactions that were dropped (line 379 logs their
    number). *)
Definition _process_mempool (api : MemPoolAPI) (hp : heap)
    (all_hashes : gset tx_hash) (mempool_height : Z)
  : heap * result (list (tx_hash * MemPoolTx)) :=
  if decide (mempool_height ≠ db_height api) then (hp, Raised DBSyncError)
  else
    match evict_all hp (elements (dom (txs (pool hp)) ∖ all_hashes)) with
    | (hp1, Some e) => (hp1, Raised e)
    | (hp1, None) =>
        let new_hashes := elements (all_hashes ∖ dom (txs (pool hp1))) in
        match new_hashes with
        | [] => (hp1, Returned [])
        | _ =>
            match fetch_batches api all_hashes hp1 [] ∅
                    (chunks new_hashes 200) with
            | (hp2, Raised e) => (hp2, Raised e)
            | (hp2, Returned (tx_map, utxo_map)) =>
                accept_until_stable (S (length tx_map)) hp2 tx_map utxo_map 0
            end
        end
    end.

(** ** One turn of [_refresh_hashes] (lines 303-321) *)

Inductive turn : Type :=
  | HeightMoved                       (* line 306: [continue] *)
  | WaitingForDB                      (* line 314 *)
  | Published (touched : gset hashX) (height : Z) (assets : gset string)
  | Crashed (e : exn).

Definition refresh_turn (api : MemPoolAPI) (hp : heap) : heap * turn :=
  let height := cached_height api in
  if decide (height ≠ api_height api) then (hp, HeightMoved)
  else
    match _process_mempool api hp (mempool_hashes api) height with
    | (hp', Raised DBSyncError) => (hp', WaitingForDB)
    | (hp', Raised e) => (hp', Crashed e)
    | (hp', Returned _) =>
        (mkHeap (pool hp') ∅ ∅,
         Published (h_touched hp') height (h_assets_touched hp'))
    end.
End Reconciler.

(** ** Python numbers for [bin_size]

    An [int], or a [float] (IEEE 754 binary64) once it has been multiplied
    by 1.1.  A comparison of an [int] with a [float] is exact in Python. *)

Inductive pynum : Type :=
  | PyInt (z : Z)
  | PyFloat (f : float).

(** The binary64 value nearest to [z], an infinity when [z] is out of
    range. *)
Definition float_of_Z (z : Z) : float :=
  SF2Prim (SpecFloat.binary_normalize FloatOps.prec FloatOps.emax z 0 false).

(** [float(z)], the conversion [int * float] starts with: it raises
    [OverflowError] for an [int] too large to convert. *)
Definition py_float (z : Z) : result float :=
  if PrimFloat.is_infinity (float_of_Z z) then Raised OverflowError
  else Returned (float_of_Z z).

(** [z > f] for an [int] z and a [float] f. *)
Definition Z_gt_float (z : Z) (f : float) : bool :=
  match Prim2SF f with
  | SpecFloat.S754_nan => false
  | SpecFloat.S754_infinity negative => negative
  | SpecFloat.S754_zero _ => 0 <? z
  | SpecFloat.S754_finite negative m e =>
      let v := if negative then Z.neg m else Z.pos m in
      if 0 <=? e then v * 2 ^ e <? z else v <? z * 2 ^ (- e)
  end.

Definition float_1_1 : float := 0x1.199999999999ap+0%float.   (* 1.1 *)

Definition py_is_positive (bin : pynum) : bool :=
  match bin with
  | PyInt z => 0 <? z
  | PyFloat f => PrimFloat.ltb 0 f
  end.

Definition py_gt (z : Z) (bin : pynum) : bool :=
  match bin with
  | PyInt b => b <? z
  | PyFloat f => Z_gt_float z f
  end.

Definition py_gt_twice (z : Z) (bin : pynum) : bool :=
  match bin with
  | PyInt b => 2 * b <? z
  | PyFloat f => Z_gt_float z (2 * f)%float
  end.

Definition py_times_1_1 (bin : pynum) : result pynum :=
  match bin with
  | PyInt b => f ← py_float b; mret (PyFloat (f * float_1_1)%float)
  | PyFloat f => mret (PyFloat (f * float_1_1)%float)
  end.

(** The compactor of the running server: fee rates in tenths of a satoshi
    per byte (the grid [_update_histogram] rounds to), [bin_size] a Python
    number. *)
Definition compress_histogram_py (histogram : list (Z * Z)) (bin : pynum)
  : result (list (Z * Z)) :=
  _compress_histogram Z.le py_is_positive py_gt_twice py_gt py_times_1_1
    histogram bin.

(** ** The fee rate of [_update_histogram] (lines 196-201)

    [tx.fee] and [tx.size] are [int]s; the fee rate is a [float], written
    here as the binary64 number it is ([SpecFloat.spec_float]). *)

(** [a / b] on [int]s: the quotient, rounded once to binary64.  It raises
    [ZeroDivisionError] for [b = 0] and [OverflowError] for a quotient out
    of the range of binary64. *)
Definition int_truediv (a b : Z) : result SpecFloat.spec_float :=
  if b =? 0 then Raised ZeroDivisionError
  else if a =? 0 then Returned (SpecFloat.S754_zero (b <? 0))
  else
    let '(q, e, l) :=
      SpecFloat.SFdiv_core_binary FloatOps.prec FloatOps.emax
        (Z.abs a) 0 (Z.abs b) 0 in
    match SpecFloat.binary_round_aux FloatOps.prec FloatOps.emax
            (xorb (a <? 0) (b <? 0)) q e l with
    | SpecFloat.S754_infinity _ => Raised OverflowError
    | quotient => Returned quotient
    end.

(** [math.floor(x)] on a [float]. *)
Definition float_floor (x : SpecFloat.spec_float) : result Z :=
  match x with
  | SpecFloat.S754_zero _ => Returned 0
  | SpecFloat.S754_finite negative m e =>
      let v := if negative then Z.neg m else Z.pos m in
      Returned (if 0 <=? e then v * 2 ^ e else v / 2 ^ (- e))
  | SpecFloat.S754_infinity _ => Raised OverflowError
  | SpecFloat.S754_nan => Raised ValueError
  end.

(** Lines 196 and 201: [math.floor(10 * (fee / size)) / 10]. *)
Definition py_fee_rate (fee size : Z) : result SpecFloat.spec_float :=
  fee_rate ← int_truediv fee size;
  tenths ← float_floor
             (SpecFloat.SFmul FloatOps.prec FloatOps.emax (Prim2SF 10)
                fee_rate);
  int_truediv tenths 10.

Global Instance spec_float_eq_dec : EqDecision SpecFloat.spec_float.
Proof. solve_decision. Defined.

(** The order of the binary64 numbers that are fee rates: a finite binary64
    number is a whole number of units of [2^-1074], and the numbers compare
    as these do. *)
Definition float_units (x : SpecFloat.spec_float) : Z :=
  match x with
  | SpecFloat.S754_zero _ | SpecFloat.S754_nan => 0
  | SpecFloat.S754_finite negative m e =>
      (if negative then Z.neg m else Z.pos m) * 2 ^ (e + 1074)
  | SpecFloat.S754_infinity negative =>
      if negative then - 2 ^ 2100 else 2 ^ 2100
  end.

Definition float_le (x y : SpecFloat.spec_float) : Prop :=
  float_units x ≤ float_units y.

Global Instance float_le_dec : RelDecision float_le.
Proof. intros x y. unfold float_le. apply _. Defined.

Global Instance float_le_trans : Transitive float_le.
Proof. intros x y z. unfold float_le. lia. Qed.

Global Instance float_le_total : Total float_le.
Proof. intros x y. unfold float_le. lia. Qed.

(** *** What the operations mean

    The value of a Python number is a rational, an infinity, or not a
    number; [size > 2 * bin_size] and [cum_size > bin_size] compare values,
    and [bin_size * 1.1] is the binary64 product of [float(bin_size)] with
    the binary64 number nearest to 11/10. *)

Section PythonValues.
Import QArith Qpower.
Local Open Scope Z_scope.

Inductive numeric : Type :=
  | Rational (q : Q)
  | PlusInfinity
  | MinusInfinity
  | NotANumber.

(** A finite binary64 number is [±m·2^e]. *)
Definition float_value (f : float) : numeric :=
  match Prim2SF f with
  | SpecFloat.S754_zero _ => Rational 0
  | SpecFloat.S754_infinity false => PlusInfinity
  | SpecFloat.S754_infinity true => MinusInfinity
  | SpecFloat.S754_nan => NotANumber
  | SpecFloat.S754_finite negative m e =>
      Rational (inject_Z (if negative then Z.neg m else Z.pos m)
                * inject_Z 2 ^ e)
  end.

Definition py_value (n : pynum) : numeric :=
  match n with
  | PyInt z => Rational (inject_Z z)
  | PyFloat f => float_value f
  end.

(** [z > n]: the [int] z is greater than the value of [n]. *)
Definition exceeds (z : Z) (n : pynum) : Prop :=
  match py_value n with
  | Rational q => (q < inject_Z z)%Q
  | MinusInfinity => True
  | PlusInfinity | NotANumber => False
  end.

(** [n > 0]. *)
Definition py_positive (n : pynum) : Prop :=
  match py_value n with
  | Rational q => (0 < q)%Q
  | PlusInfinity => True
  | MinusInfinity | NotANumber => False
  end.

(** [2 * n]: exact on an [int], the binary64 product on a [float]. *)
Definition twice (n : pynum) : pynum :=
  match n with
  | PyInt b => PyInt (2 * b)
  | PyFloat f => PyFloat (2 * f)%float
  end.

Definition exceeds_twice (z : Z) (n : pynum) : Prop := exceeds z (twice n).

(** [float(n)] exists: [n] is a [float], or an [int] in the range of
    binary64. *)
Definition convertible (n : pynum) : Prop :=
  match n with
  | PyInt b => PrimFloat.is_infinity (float_of_Z b) = false
  | PyFloat _ => True
  end.

(** [n'] is [n * 1.1]. *)
Inductive multiplied_by_1_1 : pynum → pynum → Prop :=
  | multiplied_int b :
      convertible (PyInt b) →
      multiplied_by_1_1 (PyInt b) (PyFloat (float_of_Z b * float_1_1)%float)
  | multiplied_float f :
      multiplied_by_1_1 (PyFloat f) (PyFloat (f * float_1_1)%float).
End PythonValues.

(** ** A small library instance for worked examples

    Scripts are tokenised as direct pushes (opcodes 1 to 75) and one-byte
    opcodes; a raw transaction is looked up in a table. *)

Module Demo.
Definition B (n : N) : byte := default Byte.x00 (Stdlib.Strings.Byte.of_N n).
Definition text (s : string) : bytes := String.list_byte_of_string s.

Fixpoint tokenize (n : nat) (offset : nat) (script : bytes) : list ScriptOp :=
  match n, script with
  | S n', b :: rest =>
      let op := byte_to_Z b in
      if (0 <? op) && (op <=? 75) then
        let len := Z.to_nat op in
        mkScriptOp op (offset + 1 + len) (Some (take len rest))
          :: tokenize n' (offset + 1 + len) (drop len rest)
      else mkScriptOp op (offset + 1) None :: tokenize n' (offset + 1) rest
  | _, _ => []
  end.

Definition lib (table : bytes → Tx * Z) : Lib :=
  mkLib (λ script, Z.to_N (int_from_bytes_little script))
        (λ script, tokenize (length script) 0 script)
        192
        (λ _ _, "ipfs"%string)
        table.

(** Eight bytes, least significant first, of a value below 65536. *)
Definition le8 (v : N) : bytes :=
  [B (v mod 256); B (v / 256); B 0; B 0; B 0; B 0; B 0; B 0].

(** [OP_1 OP_RVN_ASSET <payload> OP_DROP] *)
Definition asset_script (payload : bytes) : bytes :=
  [B 81; B 192; B (N.of_nat (length payload))] ++ payload ++ [B 117].

(** The hash [hashX_from_script] gives the prefix [OP_1]. *)
Definition sh : hashX := 81%N.

(** A reissue of FOO with quantity 500 that stops after the quantity. *)
Definition reissue_cut_short : bytes :=
  text "rvnr" ++ [B 3] ++ text "FOO" ++ le8 500.

(** A new asset FOO: quantity 500, 2 divisions, reissuable, no IPFS. *)
Definition issue_FOO : bytes :=
  text "rvnq" ++ [B 3] ++ text "FOO" ++ le8 500 ++ [B 2; B 1; B 0].

(** A new asset whose name holds the byte 0xE9, which is not ASCII. *)
Definition issue_bad_name : bytes :=
  text "rvnq" ++ [B 3; B 70; B 233; B 79] ++ le8 500 ++ [B 2; B 1; B 0].

(** The owner token FOO!. *)
Definition owner_FOO : bytes := text "rvno" ++ [B 4] ++ text "FOO!".

Definition no_locals : locals := mkLocals [] [] [] 0 (mkDataParser [] 0).

(** Transactions t (hash 1), its parent p (hash 2) and u (hash 3).  t
    spends output 0 of p and issues FOO; u has no input left after the
    generation-like one is dropped and issues FOO as well. *)
Definition t : tx_hash := 1%N.
Definition p : tx_hash := 2%N.
Definition u : tx_hash := 3%N.

Definition tx_t : Tx :=
  mkTx [mkTxInput p 0 false] [mkTxOutput 0 (asset_script issue_FOO)].
Definition tx_u : Tx :=
  mkTx [mkTxInput 0%N 0 true] [mkTxOutput 0 (asset_script issue_FOO)].

Definition table (raw : bytes) : Tx * Z :=
  if decide (raw = [B 1]) then (tx_t, 250)
  else if decide (raw = [B 3]) then (tx_u, 200)
  else (mkTx [] [], 0).

(** The daemon knows the raw transactions of the hashes in [known]. *)
Definition raw_of (known : list tx_hash) (hashes : list tx_hash)
  : list (option bytes) :=
  (λ h, if decide (h ∈ known) then Some [B h] else None) <$> hashes.

(** The DB resolves no prevout and is asked for none. *)
Definition api_of (hashes : gset tx_hash) (known : list tx_hash)
    (utxos : list prevout → list (option (hashX * Z))) : MemPoolAPI :=
  mkMemPoolAPI 100 100 100 hashes (raw_of known) utxos (λ _, []).

Definition empty_heap : heap := mkHeap MemPool_init ∅ ∅.

(** A pending transaction with two external prevouts: [asset_po] is an
    asset output (7 units of FOO held by script hash 5), [coin_po] a coin
    output (50 satoshis held by script hash 6). *)
Definition asset_po : prevout := (10%N, 0%nat).
Definition coin_po : prevout := (11%N, 0%nat).
Definition spender : list (tx_hash * MemPoolTx) :=
  [(t, mkMemPoolTx [asset_po; coin_po] None [] 0 100)].

(** The DB answers as [lookup_utxos] documents: one entry per prevout,
    [None] where it finds nothing. *)
Definition db_aligned : MemPoolAPI :=
  mkMemPoolAPI 100 100 100 {[t]} (raw_of [])
    (λ _, [None; Some (6%N, 50)])
    (λ _, [Some (5%N, 7, "FOO"%string); None]).

(** The DB leaves out what it does not find. *)
Definition db_found_only : MemPoolAPI :=
  mkMemPoolAPI 100 100 100 {[t]} (raw_of [])
    (λ _, [Some (6%N, 50)])
    (λ _, [Some (5%N, 7, "FOO"%string)]).

(** Both lookups know both prevouts. *)
Definition db_both : MemPoolAPI :=
  mkMemPoolAPI 100 100 100 {[t]} (raw_of [])
    (λ _, [Some (5%N, 0); Some (6%N, 50)])
    (λ _, [Some (5%N, 7, "FOO"%string); Some (6%N, 0, "FOO"%string)]).

(** A transaction that spends the coin output (50) and pays 30 in coin and
    7 units of FOO. *)
Definition payer : list (tx_hash * MemPoolTx) :=
  [(t, mkMemPoolTx [coin_po] None
         [(sh, 30, false, None); (sh, 7, true, Some "FOO"%string)] 0 100)].
Definition coin_utxo : gmap prevout io_pair :=
  {[ coin_po := (6%N, 50, false, None) ]}.

(** A pass over a mempool that holds p, whose only output is number 0. *)
Definition holding_p : accepting :=
  mkAccepting
    (mkMemPool {[ p := mkMemPoolTx [] (Some []) [(sh, 10, false, None)] 0 100 ]}
               {[ sh := {[ p ]} ]} ∅ ∅ ∅ ∅)
    ∅ ∅ [] ∅.
(** A pass over the empty mempool. *)
Definition holding_nothing : accepting :=
  mkAccepting MemPool_init ∅ ∅ [] ∅.
(** It spends output 1 of p. *)
Definition spends_p1 : MemPoolTx := mkMemPoolTx [(p, 1%nat)] None [] 0 250.
(** It spends output 0 of p. *)
Definition spends_p0 : MemPoolTx := mkMemPoolTx [(p, 0%nat)] None [] 0 250.

(** Five refreshes.  The daemon reports t and its parent p but no longer
    has the raw bytes of p; then only u; then nothing; then t again, its
    parent now confirmed and output 0 of p in the DB; then nothing. *)
Definition the_lib : Lib := lib table.
Definition run (api : MemPoolAPI) (hp : heap)
  : heap * result (list (tx_hash * MemPoolTx)) :=
  _process_mempool the_lib api hp (mempool_hashes api) 100.

Definition nothing_found (pos : list prevout) : list (option (hashX * Z)) :=
  [].
Definition p0_found (pos : list prevout) : list (option (hashX * Z)) :=
  (λ _, Some (6%N, 50)) <$> pos.

Definition refresh1 : MemPoolAPI := api_of {[t; p]} [t] nothing_found.
Definition refresh2 : MemPoolAPI := api_of {[u]} [u] nothing_found.
Definition refresh3 : MemPoolAPI := api_of ∅ [] nothing_found.
Definition refresh4 : MemPoolAPI := api_of {[t]} [t] p0_found.
Definition refresh5 : MemPoolAPI := api_of ∅ [] nothing_found.

Definition after1 : heap := (run refresh1 empty_heap).1.
Definition after2 : heap := (run refresh2 after1).1.
Definition after3 : heap := (run refresh3 after2).1.
Definition after4 : heap := (run refresh4 after3).1.
Definition after5 : heap := (run refresh5 after4).1.

(** What the digester records for the output of t and of u. *)
Definition FOO_by (h : tx_hash) : AssetIssuance :=
  mkAssetIssuance 500 2 true false None (mkAssetSource h 0 (-1)).
End Demo.

(** * Properties *)

(** ** The fee-histogram compactor *)

Section HistogramFacts.
Context {rate : Type} (rate_le : relation rate) `{!RelDecision rate_le}.
Context {num : Type} (is_positive : num → bool) (gt_twice gt : Z → num → bool)
        (times_1_1 : num → result num).
(** What the operations of the code compute. *)
Context (exceeds_twice exceeds : Z → num → Prop)
        (multiplied : num → num → Prop).
Hypothesis gt_twice_spec : ∀ z n, gt_twice z n = true ↔ exceeds_twice z n.
Hypothesis gt_spec : ∀ z n, gt z n = true ↔ exceeds z n.
Hypothesis times_1_1_spec :
  ∀ n n', times_1_1 n = Returned n' ↔ multiplied n n'.

Local Abbreviation step := (compress_step (rate:=rate) gt_twice gt times_1_1).
Local Abbreviation run := (compress_items (rate:=rate) gt_twice gt times_1_1).
Local Abbreviation spec_pre :=
  (pre_flush (rate:=rate) exceeds_twice multiplied).
Local Abbreviation spec_post := (post_flush (rate:=rate) exceeds multiplied).
Local Abbreviation spec_step :=
  (entry_step (rate:=rate) exceeds_twice exceeds multiplied).
Local Abbreviation spec_walk :=
  (entries_walk (rate:=rate) exceeds_twice exceeds multiplied).

Lemma emit_returned (w : walk (rate:=rate)) fee_rate w' :
  emit times_1_1 w fee_rate = Returned w'
  ↔ ∃ bin', multiplied (bin_size w) bin'
            ∧ w' = Walk (compact w ++ [(fee_rate, cum_size w)]) 0
                        (prev_fee_rate w) bin'.
Proof.
  unfold emit. split.
  - destruct (times_1_1 (bin_size w)) as [bin'|e] eqn:Hbin; simpl; [|done].
    intros [= <-]. exists bin'. by rewrite <- times_1_1_spec.
  - intros (bin' & Hbin & ->). apply times_1_1_spec in Hbin.
    by rewrite Hbin.
Qed.

(** Lines 232-235, the first statement of the loop body. *)
Definition after_pre_flush (w : walk (rate:=rate)) (size : Z) : result walk :=
  if gt_twice size (bin_size w) then
    match prev_fee_rate w with
    | Some prev =>
        if bool_decide (0 < cum_size w) then emit times_1_1 w prev else mret w
    | None => mret w
    end
  else mret w.

(** Lines 237-241, on the walk the pre-flush left. *)
Definition after_post_flush (w1 : walk (rate:=rate)) (fee_rate : rate)
    (size : Z) : result walk :=
  let w2 := Walk (compact w1) (cum_size w1 + size) (prev_fee_rate w1)
                 (bin_size w1) in
  if gt (cum_size w2) (bin_size w2) then emit times_1_1 w2 fee_rate
  else mret w2.

Lemma compress_step_unfold w fee_rate size :
  step w (fee_rate, size)
  = w1 ← after_pre_flush w size;
    w3 ← after_post_flush w1 fee_rate size;
    mret (Walk (compact w3) (cum_size w3) (Some fee_rate) (bin_size w3)).
Proof. done. Qed.

Lemma after_pre_flush_returned w size w1 :
  after_pre_flush w size = Returned w1 ↔ spec_pre size w w1.
Proof.
  unfold after_pre_flush. split.
  - destruct (gt_twice size (bin_size w)) eqn:Hbig.
    + apply gt_twice_spec in Hbig.
      destruct (prev_fee_rate w) as [prev|] eqn:Hprev.
      * case_bool_decide.
        -- intros (bin' & Hbin & ->)%emit_returned.
           by apply pre_flush_emit.
        -- intros [= <-]. apply pre_flush_keep. naive_solver.
      * intros [= <-]. apply pre_flush_keep. intros (_ & [? ?] & _).
        congruence.
    + intros [= <-]. apply pre_flush_keep. intros (Hbig' & _).
      apply gt_twice_spec in Hbig'. congruence.
  - inversion 1 as [? prev bin' Hbig Hprev Hcum Hbin|? Hnot]; subst.
    + apply gt_twice_spec in Hbig. rewrite Hbig, Hprev.
      rewrite bool_decide_eq_true_2 by done.
      apply emit_returned. exists bin'. by rewrite Hprev.
    + destruct (gt_twice size _) eqn:Hbig; [|done].
      apply gt_twice_spec in Hbig.
      destruct (prev_fee_rate _) as [prev|] eqn:Hprev; [|done].
      case_bool_decide; [|done]. exfalso. apply Hnot. eauto.
Qed.

Lemma after_post_flush_returned w1 fee_rate size w3 :
  after_post_flush w1 fee_rate size = Returned w3
  ↔ spec_post fee_rate
      (Walk (compact w1) (cum_size w1 + size) (prev_fee_rate w1)
            (bin_size w1)) w3.
Proof.
  unfold after_post_flush.
  set (w2 := Walk (compact w1) (cum_size w1 + size) (prev_fee_rate w1)
                  (bin_size w1)).
  split.
  - destruct (gt (cum_size w2) (bin_size w2)) eqn:Hfull.
    + apply gt_spec in Hfull.
      intros (bin' & Hbin & ->)%emit_returned.
      by apply post_flush_emit.
    + intros [= <-]. apply post_flush_keep. rewrite <- gt_spec. congruence.
  - inversion 1 as [? bin' Hfull Hbin|? Hnot]; subst.
    + apply gt_spec in Hfull. rewrite Hfull.
      apply emit_returned. by exists bin'.
    + destruct (gt _ _) eqn:Hfull; [|done].
      by apply gt_spec in Hfull.
Qed.

(** The body of the loop takes the step the specification describes, and
    no other. *)
Lemma compress_step_entry_step w item w' :
  step w item = Returned w' ↔ spec_step w item w'.
Proof.
  destruct item as [fee_rate size]. rewrite compress_step_unfold. split.
  - destruct (after_pre_flush w size) as [w1|] eqn:Hpre; simpl; [|done].
    destruct (after_post_flush w1 fee_rate size) as [w3|] eqn:Hpost; simpl;
      [|done].
    intros [= <-]. apply (entry_step_intro _ _ _ w w1 w3).
    + by apply after_pre_flush_returned.
    + by apply after_post_flush_returned.
  - inversion 1 as [? w1 w3 ? ? Hpre Hpost]; subst.
    apply after_pre_flush_returned in Hpre.
    apply after_post_flush_returned in Hpost.
    by rewrite Hpre; simpl; rewrite Hpost.
Qed.

Lemma compress_items_entries_walk w items w' :
  run w items = Returned w' ↔ spec_walk w items w'.
Proof.
  revert w. induction items as [|item items IH]; intros w; simpl.
  - split; [intros [= <-]; constructor|by inversion 1].
  - split.
    + destruct (step w item) as [w1|] eqn:Hstep; simpl; [|done].
      intros Hrest. econstructor; [by apply compress_step_entry_step|].
      by apply IH.
    + inversion 1 as [|? w1 ? ? ? Hstep Hrest]; subst.
      apply compress_step_entry_step in Hstep. rewrite Hstep. simpl.
      by apply IH.
Qed.

Lemma entries_walk_functional w items w1 w2 :
  spec_walk w items w1 → spec_walk w items w2 → w1 = w2.
Proof.
  intros H1%compress_items_entries_walk H2%compress_items_entries_walk.
  congruence.
Qed.

(** The only exceptions of the loop are those of [bin_size * 1.1]. *)
Lemma compress_items_raised w items e :
  run w items = Raised e → ∃ n, times_1_1 n = Raised e.
Proof.
  revert w. induction items as [|[fee_rate size] items IH]; intros w;
    [done|].
  cbn [compress_items]. rewrite compress_step_unfold.
  assert (Hemit : ∀ (v : walk (rate:=rate)) r,
            emit times_1_1 v r = Raised e → ∃ n, times_1_1 n = Raised e).
  { intros v r. unfold emit.
    destruct (times_1_1 (bin_size v)) eqn:Hn; [done|].
    intros [= <-]. eauto. }
  destruct (after_pre_flush w size) as [w1|e1] eqn:Hpre; simpl.
  - destruct (after_post_flush w1 fee_rate size) as [w3|e3] eqn:Hpost; simpl.
    + apply IH.
    + intros [= <-]. unfold after_post_flush in Hpost.
      destruct (gt _ _); [by eapply Hemit|done].
  - intros [= <-]. unfold after_pre_flush in Hpre.
    destruct (gt_twice _ _); [|done].
    destruct (prev_fee_rate w); [|done].
    case_bool_decide; [by eapply Hemit|done].
Qed.

Lemma sum_sizes_app (l1 l2 : list (rate * Z)) :
  sum_sizes (l1 ++ l2) = sum_sizes l1 + sum_sizes l2.
Proof. induction l1 as [|e l1 IH]; simpl; [done|]. rewrite IH. lia. Qed.

Lemma sum_sizes_Permutation (l1 l2 : list (rate * Z)) :
  l1 ≡ₚ l2 → sum_sizes l1 = sum_sizes l2.
Proof. induction 1; simpl; lia. Qed.

(** Every byte counted is either in an emitted bucket or in [cum_size]. *)
Lemma entry_step_conserves w fee_rate size w' :
  spec_step w (fee_rate, size) w' →
  sum_sizes (compact w') + cum_size w'
  = sum_sizes (compact w) + cum_size w + size.
Proof.
  inversion 1 as [? w1 w3 ? ? Hpre Hpost]; subst. simpl.
  inversion Hpost; subst; simpl; inversion Hpre; subst; simpl;
    rewrite ?sum_sizes_app; simpl; rewrite ?sum_sizes_app; simpl; lia.
Qed.

Lemma entries_walk_conserves w items w' :
  spec_walk w items w' →
  sum_sizes (compact w') + cum_size w'
  = sum_sizes (compact w) + cum_size w + sum_sizes items.
Proof.
  induction 1 as [|w wa wb [fee_rate size] items Hs _ IH]; simpl; [lia|].
  rewrite IH, (entry_step_conserves _ _ _ _ Hs). lia.
Qed.

(** With distinct keys, sorting for [rate_ge] sorts strictly. *)
Lemma sorted_reverse_strict `{!Transitive rate_le} `{!Total rate_le}
    (items : list (rate * Z)) :
  NoDup items.*1 →
  StronglySorted (rate_gt rate_le) (sorted_reverse rate_le items).
Proof.
  intros Hnodup.
  assert (Hperm : sorted_reverse rate_le items ≡ₚ items)
    by apply merge_sort_Permutation.
  assert (Hnd : NoDup (sorted_reverse rate_le items).*1) by by rewrite Hperm.
  assert (Hsorted : StronglySorted (rate_ge rate_le)
                      (sorted_reverse rate_le items)).
  { apply StronglySorted_merge_sort.
    - intros a b c Hab Hbc. unfold rate_ge in *. by etrans.
    - intros a b. unfold rate_ge. destruct (total rate_le a.1 b.1); auto. }
  clear Hperm. induction Hsorted as [|a l Hs IH Hall]; [constructor|].
  simpl in Hnd. apply NoDup_cons in Hnd as [Hnotin Hnd].
  constructor; [by apply IH|].
  apply Forall_forall. intros b Hb. split.
  - by eapply (proj1 (Forall_forall _ _) Hall).
  - intros Heq. apply Hnotin. rewrite Heq. apply list_elem_of_fmap.
    by exists b.
Qed.

(** *** When the loop runs to its end *)

(** [bin_size] can be multiplied, and so can the product. *)
Variable multiplies : num → Prop.
Hypothesis multiplies_times_1_1 :
  ∀ n, multiplies n → ∃ n', times_1_1 n = Returned n' ∧ multiplies n'.

Lemma compress_step_multiplies w item :
  multiplies (bin_size w) →
  ∃ w', step w item = Returned w' ∧ multiplies (bin_size w').
Proof.
  destruct item as [fee_rate size]. intros Hw.
  assert (Hemit : ∀ (v : walk (rate:=rate)) r,
            multiplies (bin_size v) →
            ∃ v', emit times_1_1 v r = Returned v'
                  ∧ multiplies (bin_size v')).
  { intros v r (n' & Hn & Hn')%multiplies_times_1_1. unfold emit.
    rewrite Hn. simpl. by eexists. }
  rewrite compress_step_unfold.
  assert (Hpre : ∃ w1, after_pre_flush w size = Returned w1
                       ∧ multiplies (bin_size w1)).
  { unfold after_pre_flush. destruct (gt_twice _ _); [|by exists w].
    destruct (prev_fee_rate w); [|by exists w].
    case_bool_decide; [by apply Hemit|by exists w]. }
  destruct Hpre as (w1 & -> & Hw1). simpl.
  assert (Hpost : ∃ w3, after_post_flush w1 fee_rate size = Returned w3
                        ∧ multiplies (bin_size w3)).
  { unfold after_post_flush. destruct (gt _ _); [by apply Hemit|].
    by eexists. }
  destruct Hpost as (w3 & -> & Hw3). simpl. by eexists.
Qed.

Lemma compress_items_multiplies w items :
  multiplies (bin_size w) → ∃ w', run w items = Returned w'.
Proof.
  revert w. induction items as [|item items IH]; intros w Hw; simpl.
  - by exists w.
  - destruct (compress_step_multiplies w item Hw) as (w1 & -> & Hw1).
    simpl. by apply IH.
Qed.

(** While no pair is due, [bin_size] is not multiplied. *)
Lemma compress_items_never_due bin (before rest : list (rate * Z)) :
  never_due exceeds_twice exceeds bin (before ++ rest) →
  run (Walk [] (sum_sizes before) (fst <$> last before) bin) rest
  = Returned (Walk [] (sum_sizes (before ++ rest))
                (fst <$> last (before ++ rest)) bin).
Proof.
  revert before. induction rest as [|[fee_rate size] rest IH];
    intros before Hdue.
  - simpl. by rewrite app_nil_r.
  - destruct (Hdue before fee_rate size rest eq_refl) as [Hpre Hpost].
    cbn [compress_items]. rewrite compress_step_unfold.
    assert (after_pre_flush
              (Walk [] (sum_sizes before) (fst <$> last before) bin) size
            = Returned (Walk [] (sum_sizes before) (fst <$> last before) bin))
      as ->.
    { unfold after_pre_flush. simpl.
      destruct (gt_twice size bin) eqn:Hbig; [|done].
      apply gt_twice_spec in Hbig.
      destruct (last before) as [e|] eqn:Hlast; simpl; [|done].
      case_bool_decide; [|done]. exfalso. apply Hpre.
      split_and!; [done| |done]. by intros ->. }
    simpl. unfold after_post_flush. simpl.
    destruct (gt (sum_sizes before + size) bin) eqn:Hfull.
    { by apply gt_spec in Hfull. }
    simpl.
    specialize (IH (before ++ [(fee_rate, size)])).
    rewrite <- app_assoc in IH. simpl in IH.
    rewrite sum_sizes_app, last_snoc in IH. simpl in IH.
    rewrite Z.add_0_r in IH. by apply IH.
Qed.

(** A loop that cannot multiply [bin_size] ends only if no pair was due. *)
Lemma compress_items_unmultiplied bin e (before rest : list (rate * Z)) w' :
  times_1_1 bin = Raised e →
  run (Walk [] (sum_sizes before) (fst <$> last before) bin) rest
    = Returned w' →
  ∀ mid fee_rate size after,
    rest = mid ++ (fee_rate, size) :: after →
    ¬ (exceeds_twice size bin ∧ before ++ mid ≠ []
       ∧ 0 < sum_sizes (before ++ mid))
    ∧ ¬ exceeds (sum_sizes (before ++ mid) + size) bin.
Proof.
  intros Hbin. revert before.
  induction rest as [|[r s] rest IH]; intros before Hrun mid fee_rate size
    after Hsplit.
  { by destruct mid. }
  cbn [compress_items] in Hrun. rewrite compress_step_unfold in Hrun.
  assert (Hemit : ∀ (v : walk (rate:=rate)) x,
            bin_size v = bin → emit times_1_1 v x = Raised e).
  { intros v x Hv. unfold emit. by rewrite Hv, Hbin. }
  assert (Hpre : after_pre_flush
                   (Walk [] (sum_sizes before) (fst <$> last before) bin) s
                 = Returned (Walk [] (sum_sizes before)
                               (fst <$> last before) bin)
                 ∧ ¬ (exceeds_twice s bin ∧ before ≠ []
                      ∧ 0 < sum_sizes before)).
  { unfold after_pre_flush in *. simpl in *.
    destruct (gt_twice s bin) eqn:Hbig.
    - destruct (last before) as [x|] eqn:Hlast; simpl in *.
      + case_bool_decide.
        * by rewrite Hemit in Hrun.
        * split; [done|]. intros (_ & _ & ?). done.
      + split; [done|]. intros (_ & Hne & _).
        by apply last_None in Hlast.
    - split; [done|]. intros (Hbig'%gt_twice_spec & _). congruence. }
  destruct Hpre as [Hpre Hnopre]. rewrite Hpre in Hrun. simpl in Hrun.
  unfold after_post_flush in Hrun. simpl in Hrun.
  destruct (gt (sum_sizes before + s) bin) eqn:Hfull.
  { by rewrite Hemit in Hrun. }
  simpl in Hrun.
  assert (Hnopost : ¬ exceeds (sum_sizes before + s) bin).
  { rewrite <- gt_spec. congruence. }
  destruct mid as [|x mid]; simpl in Hsplit.
  - injection Hsplit as -> -> ->. by rewrite app_nil_r.
  - injection Hsplit as Hx Hrest. subst x rest.
    specialize (IH (before ++ [(r, s)])).
    rewrite sum_sizes_app, last_snoc in IH. simpl in IH.
    rewrite Z.add_0_r in IH.
    specialize (IH Hrun mid fee_rate size after eq_refl).
    by rewrite <- app_assoc in IH.
Qed.

(** The compactor on a histogram with distinct keys and a positive
    [bin_size] that can be multiplied whenever a pair is emitted. *)
Lemma compress_histogram_walk `{!Transitive rate_le} `{!Total rate_le}
    (histogram : list (rate * Z)) (bin : num) :
  NoDup histogram.*1 →
  is_positive bin = true →
  multiplies bin
  ∨ never_due exceeds_twice exceeds bin (sorted_reverse rate_le histogram) →
  ∃ entries w,
    entries ≡ₚ histogram
    ∧ StronglySorted (rate_gt rate_le) entries
    ∧ spec_walk (compress_init bin) entries w
    ∧ (∀ w', spec_walk (compress_init bin) entries w' → w' = w)
    ∧ _compress_histogram rate_le is_positive gt_twice gt times_1_1
        histogram bin = Returned (compact w)
    ∧ sum_sizes (compact w) + cum_size w = sum_sizes histogram.
Proof.
  intros Hnodup Hpos Hbin.
  assert (Hrun : ∃ w, compress_loop rate_le gt_twice gt times_1_1 bin
                        histogram = Returned w).
  { unfold compress_loop. destruct Hbin as [Hbin|Hdue].
    - by apply compress_items_multiplies.
    - eexists. apply (compress_items_never_due bin [] _ Hdue). }
  destruct Hrun as [w Hrun].
  exists (sorted_reverse rate_le histogram), w.
  assert (Hwalk : spec_walk (compress_init bin)
                    (sorted_reverse rate_le histogram) w)
    by by apply compress_items_entries_walk.
  split_and!.
  - apply merge_sort_Permutation.
  - by apply sorted_reverse_strict.
  - exact Hwalk.
  - intros w' Hw'. by eapply entries_walk_functional.
  - unfold _compress_histogram. by rewrite Hpos, Hrun.
  - rewrite (entries_walk_conserves _ _ _ Hwalk). simpl.
    apply sum_sizes_Permutation, merge_sort_Permutation.
Qed.

(** Otherwise the first multiplication ends the call. *)
Lemma compress_histogram_raised (histogram : list (rate * Z)) (bin : num) e :
  is_positive bin = true →
  times_1_1 bin = Raised e →
  ¬ never_due exceeds_twice exceeds bin (sorted_reverse rate_le histogram) →
  ∃ e', _compress_histogram rate_le is_positive gt_twice gt times_1_1
          histogram bin = Raised e'
        ∧ ∃ n, times_1_1 n = Raised e'.
Proof.
  intros Hpos Hbin Hdue. unfold _compress_histogram. rewrite Hpos.
  unfold compress_loop.
  destruct (run (compress_init bin) (sorted_reverse rate_le histogram))
    as [w|e'] eqn:Hrun; simpl.
  - exfalso. apply Hdue. intros before fee_rate size after Hsplit.
    apply (compress_items_unmultiplied bin e [] _ w Hbin Hrun before
             fee_rate size after Hsplit).
  - exists e'. split; [done|]. by eapply compress_items_raised.
Qed.
End HistogramFacts.

(** *** The operations on Python numbers

    They compute what they mean: the comparisons compare values, the
    multiplication is defined where [float(bin_size)] is. *)

Section PythonValueFacts.
Import QArith Qpower.
Local Open Scope Z_scope.

Lemma dyadic_lt (v e z : Z) :
  (inject_Z v * inject_Z 2 ^ e < inject_Z z)%Q
  ↔ if 0 <=? e then v * 2 ^ e < z else v < z * 2 ^ (- e).
Proof.
  destruct (Z.leb_spec 0 e) as [He|He].
  - by rewrite <- Zpower_Qpower, <- inject_Z_mult, <- Zlt_Qlt by done.
  - replace e with (- - e) at 1 by lia.
    rewrite Qpower_opp, <- Zpower_Qpower by lia.
    assert (Hpos : 0 < 2 ^ (- e)) by (apply Z.pow_pos_nonneg; lia).
    assert (HposQ : (0 < inject_Z (2 ^ (- e)))%Q).
    { replace 0%Q with (inject_Z 0) by done. by rewrite <- Zlt_Qlt. }
    rewrite Zlt_Qlt, inject_Z_mult. split; intros H.
    + apply (Qmult_lt_r _ _ (/ inject_Z (2 ^ (- e)))).
      { by apply Qinv_lt_0_compat. }
      rewrite <- Qmult_assoc, Qmult_inv_r, Qmult_1_r; [done|].
      intros Heq. rewrite Heq in HposQ. by apply Qlt_irrefl in HposQ.
    + apply (Qmult_lt_r _ _ (/ inject_Z (2 ^ (- e)))) in H.
      2:{ by apply Qinv_lt_0_compat. }
      rewrite <- Qmult_assoc, Qmult_inv_r, Qmult_1_r in H; [done|].
      intros Heq. rewrite Heq in HposQ. by apply Qlt_irrefl in HposQ.
Qed.

Lemma dyadic_pos (v e : Z) :
  (0 < inject_Z v * inject_Z 2 ^ e)%Q ↔ 0 < v.
Proof.
  assert (Hp : (0 < inject_Z 2 ^ e)%Q) by by apply Qpower_0_lt.
  rewrite <- (Z.mul_1_r v) at 2. change (0 < v * 1) with (0 < inject_Z v)%Q.
  rewrite <- (Qmult_lt_r 0 (inject_Z v) _ Hp). by rewrite Qmult_0_l.
Qed.

Lemma Z_gt_float_exceeds (z : Z) (f : float) :
  Z_gt_float z f = true ↔ exceeds z (PyFloat f).
Proof.
  unfold Z_gt_float, exceeds, py_value, float_value.
  destruct (Prim2SF f) as [s|[]| |s m e]; try done.
  - rewrite Z.ltb_lt. replace 0%Q with (inject_Z 0) by done.
    by rewrite <- Zlt_Qlt.
  - rewrite dyadic_lt. simpl. by destruct (0 <=? e); rewrite Z.ltb_lt.
Qed.

Lemma py_gt_exceeds (z : Z) (n : pynum) : py_gt z n = true ↔ exceeds z n.
Proof.
  destruct n as [b|f]; [|apply Z_gt_float_exceeds].
  unfold exceeds. simpl. by rewrite Z.ltb_lt, <- Zlt_Qlt.
Qed.

Lemma py_gt_twice_exceeds (z : Z) (n : pynum) :
  py_gt_twice z n = true ↔ exceeds_twice z n.
Proof. unfold exceeds_twice. rewrite <- py_gt_exceeds. by destruct n. Qed.

Lemma py_is_positive_positive (n : pynum) :
  py_is_positive n = true ↔ py_positive n.
Proof.
  destruct n as [b|f]; unfold py_positive; simpl.
  - rewrite Z.ltb_lt. replace 0%Q with (inject_Z 0) by done.
    by rewrite <- Zlt_Qlt.
  - rewrite ltb_spec. unfold float_value.
    change (Prim2SF 0) with (SpecFloat.S754_zero false).
    destruct (Prim2SF f) as [s|[]| |[] m e]; try done;
      rewrite dyadic_pos; unfold SpecFloat.SFltb; simpl; split; (done || lia).
Qed.

Lemma py_times_1_1_multiplied (n n' : pynum) :
  py_times_1_1 n = Returned n' ↔ multiplied_by_1_1 n n'.
Proof.
  split.
  - destruct n as [b|f]; simpl.
    + unfold py_float. destruct (PrimFloat.is_infinity _) eqn:Hb; [done|].
      intros [= <-]. by constructor.
    + intros [= <-]. constructor.
  - intros [b Hb|f]; simpl; [|done]. unfold py_float.
    unfold convertible in Hb. by rewrite Hb.
Qed.

(** An [int] out of the range of binary64 cannot be multiplied:
    [OverflowError] is the only exception of [bin_size * 1.1]. *)
Lemma py_times_1_1_raises (n : pynum) (e : exn) :
  py_times_1_1 n = Raised e ↔ e = OverflowError ∧ ¬ convertible n.
Proof.
  destruct n as [b|f]; simpl.
  - unfold py_float. destruct (PrimFloat.is_infinity _); simpl.
    + split; [by intros [= <-]|by intros [-> _]].
    + split; [done|]. by intros [_ []].
  - split; [done|]. by intros [_ []].
Qed.

Lemma py_times_1_1_convertible (n : pynum) :
  convertible n → ∃ n', py_times_1_1 n = Returned n' ∧ convertible n'.
Proof.
  destruct n as [b|f]; simpl; intros Hn.
  - unfold py_float. rewrite Hn. by eexists.
  - by eexists.
Qed.

(** The multiplier is the binary64 number nearest to 11/10. *)
Lemma float_1_1_value :
  ∃ q, float_value float_1_1 = Rational q
       ∧ ((11 # 10) - (1 # 9007199254740992) <= q)%Q
       ∧ (q <= (11 # 10) + (1 # 9007199254740992))%Q.
Proof.
  eexists. split; [by vm_compute|]. split; by vm_compute.
Qed.

(** [100 * 1.1] is 110.00000000000001, the binary64 number next above
    110. *)
Lemma hundred_times_1_1 :
  ∃ q, py_times_1_1 (PyInt 100)
       = Returned (PyFloat 0x1.b800000000001p+6%float)
       ∧ py_value (PyFloat 0x1.b800000000001p+6%float) = Rational q
       ∧ (q == 110 + (1 # 70368744177664))%Q.
Proof.
  eexists. split; [by vm_compute|]. split; by vm_compute.
Qed.
End PythonValueFacts.

(** *** The compactor on Python numbers *)

Section PythonHistogram.
Context {rate : Type} (rate_le : relation rate) `{!RelDecision rate_le}.

Local Abbreviation python_walk :=
  (entries_walk (rate:=rate) exceeds_twice exceeds multiplied_by_1_1).

Lemma compress_items_python_walk (w : walk (rate:=rate)) items w' :
  compress_items py_gt_twice py_gt py_times_1_1 w items = Returned w'
  ↔ python_walk w items w'.
Proof.
  apply compress_items_entries_walk.
  - apply py_gt_twice_exceeds.
  - apply py_gt_exceeds.
  - apply py_times_1_1_multiplied.
Qed.

(** C5 (as amended).  For a histogram with distinct keys and a positive
    [bin_size] that is a [float], an [int] in the range of binary64, or an
    [int] with which no pair comes to be due, [_compress_histogram] walks
    the entries in strictly descending fee rate; on each entry it runs the
    pre-flush, adds the size to [cum_size] and runs the post-flush, each
    flush emitting one pair, zeroing [cum_size] and multiplying [bin_size]
    by 1.1; what it returns is the list of emitted pairs only, so the
    [cum_size] left after the last entry is not emitted: the emitted sizes
    and that residue add up to the sizes of the histogram.  The comparisons
    are those of the values of the numbers, the multiplication is that of
    binary64. *)
Theorem compress_histogram_walks_descending
    `{!Transitive rate_le} `{!Total rate_le}
    (histogram : list (rate * Z)) (bin : pynum) :
  NoDup histogram.*1 →
  py_positive bin →
  convertible bin
  ∨ never_due exceeds_twice exceeds bin (sorted_reverse rate_le histogram) →
  ∃ entries w,
    entries ≡ₚ histogram
    ∧ StronglySorted (rate_gt rate_le) entries
    ∧ python_walk (compress_init bin) entries w
    ∧ (∀ w', python_walk (compress_init bin) entries w' → w' = w)
    ∧ _compress_histogram rate_le py_is_positive py_gt_twice py_gt
        py_times_1_1 histogram bin = Returned (compact w)
    ∧ sum_sizes (compact w) + cum_size w = sum_sizes histogram.
Proof.
  intros Hnodup Hpos%py_is_positive_positive Hbin.
  apply (compress_histogram_walk rate_le py_is_positive py_gt_twice py_gt
           py_times_1_1 exceeds_twice exceeds multiplied_by_1_1
           py_gt_twice_exceeds py_gt_exceeds py_times_1_1_multiplied
           convertible py_times_1_1_convertible histogram bin Hnodup Hpos
           Hbin).
Qed.

(** An [int] that is out of the range of binary64 ends the call at the
    first pair: [bin_size *= 1.1] raises [OverflowError]. *)
Lemma compress_histogram_overflow (histogram : list (rate * Z)) (bin : pynum) :
  py_positive bin →
  ¬ convertible bin →
  ¬ never_due exceeds_twice exceeds bin (sorted_reverse rate_le histogram) →
  _compress_histogram rate_le py_is_positive py_gt_twice py_gt py_times_1_1
    histogram bin = Raised OverflowError.
Proof.
  intros Hpos%py_is_positive_positive Hbin Hdue.
  assert (Hraise : py_times_1_1 bin = Raised OverflowError)
    by by apply py_times_1_1_raises.
  destruct (compress_histogram_raised rate_le py_is_positive py_gt_twice
              py_gt py_times_1_1 exceeds_twice exceeds py_gt_twice_exceeds
              py_gt_exceeds histogram bin _ Hpos Hraise Hdue)
    as (e & -> & n & [-> _]%py_times_1_1_raises).
  done.
Qed.
End PythonHistogram.

(** The largest [int] that [float] converts is [2^1024 - 2^970 - 1]. *)
Lemma convertible_boundary :
  convertible (PyInt (2 ^ 1024 - 2 ^ 970 - 1))
  ∧ ¬ convertible (PyInt (2 ^ 1024 - 2 ^ 970)).
Proof. split; by vm_compute. Qed.

(** Six fee rates (in tenths) with [bin_size = 100].  The entry at 4.0 has
    size 110, which is not greater than 100 * 1.1 = 110.00000000000001, so
    it is emitted with the next entry; the pair at 2.0 is emitted by the
    pre-flush of the entry at 1.0; the 60 bytes at 0.5 are not emitted.
    [bin_size] ends as 146.41000000000008. *)
Lemma compress_histogram_walks_descending_witness :
  let histogram := [(20, 30); (50, 250); (5, 60); (40, 110); (10, 300);
                    (30, 50)] in
  let sorted := [(50, 250); (40, 110); (30, 50); (20, 30); (10, 300);
                 (5, 60)] in
  NoDup histogram.*1
  ∧ py_positive (PyInt 100)
  ∧ (convertible (PyInt 100)
     ∨ never_due exceeds_twice exceeds (PyInt 100)
         (sorted_reverse Z.le histogram))
  ∧ compress_histogram_py histogram (PyInt 100)
    = Returned [(50, 250); (30, 160); (20, 30); (10, 300)]
  ∧ entries_walk exceeds_twice exceeds multiplied_by_1_1
      (compress_init (PyInt 100)) sorted
      (Walk [(50, 250); (30, 160); (20, 30); (10, 300)] 60 (Some 5)
         (PyFloat 0x1.24d1eb851eb88p+7%float))
  ∧ ∃ entries w,
      entries ≡ₚ histogram
      ∧ StronglySorted (rate_gt Z.le) entries
      ∧ entries_walk exceeds_twice exceeds multiplied_by_1_1
          (compress_init (PyInt 100)) entries w
      ∧ (∀ w', entries_walk exceeds_twice exceeds multiplied_by_1_1
                 (compress_init (PyInt 100)) entries w' → w' = w)
      ∧ compress_histogram_py histogram (PyInt 100) = Returned (compact w)
      ∧ sum_sizes (compact w) + cum_size w = sum_sizes histogram.
Proof.
  intros histogram sorted.
  assert (H1 : NoDup histogram.*1).
  { simpl. repeat (apply NoDup_cons_2; [set_solver|]). apply NoDup_nil_2. }
  assert (H2 : py_positive (PyInt 100)) by (by vm_compute).
  assert (H3 : convertible (PyInt 100)
               ∨ never_due exceeds_twice exceeds (PyInt 100)
                   (sorted_reverse Z.le histogram))
    by (left; by vm_compute).
  split; [exact H1|]. split; [exact H2|]. split; [exact H3|].
  split; [by vm_compute|].
  split; [apply compress_items_python_walk; by vm_compute|].
  exact (compress_histogram_walks_descending Z.le histogram (PyInt 100)
           H1 H2 H3).
Defined.

(** C5 as it was stated fails for a positive [bin_size] that [float]
    cannot convert: with [bin_size = 10**400] and the histogram
    [{1.0: 10**401}] the post-flush is due at the only entry, and line 241
    raises [OverflowError] instead of multiplying. *)
Lemma huge_bin_size_cannot_be_multiplied :
  NoDup [(10, 10 ^ 401)].*1
  ∧ py_positive (PyInt (10 ^ 400))
  ∧ exceeds (0 + 10 ^ 401) (PyInt (10 ^ 400))
  ∧ compress_histogram_py [(10, 10 ^ 401)] (PyInt (10 ^ 400))
    = Raised OverflowError
  ∧ ¬ ∃ w : walk (rate:=Z) (num:=pynum),
        compress_histogram_py [(10, 10 ^ 401)] (PyInt (10 ^ 400))
        = Returned (compact w).
Proof.
  assert (Hrun : compress_histogram_py [(10, 10 ^ 401)] (PyInt (10 ^ 400))
                 = Raised OverflowError) by (by vm_compute).
  split; [apply NoDup_singleton|]. split; [by vm_compute|].
  split; [by vm_compute|]. split; [exact Hrun|].
  intros [w Hw]. by rewrite Hrun in Hw.
Qed.

(** ** The digester *)

(** C1.  A reissue payload that ends after its 8-byte quantity makes the
    parse raise at the read of [divisions], after line 459 has appended the
    asset pair and line 458 has overwritten [value]: the output (native value
    7) is given two pairs, both carrying the quantity 500 of the payload.  A
    name that is not ASCII raises between the two lines: one pair, again with
    500.  Neither path records metadata. *)
Theorem failed_parse_after_value_read :
  let out_cut := mkTxOutput 7 (Demo.asset_script Demo.reissue_cut_short) in
  let out_name := mkTxOutput 7 (Demo.asset_script Demo.issue_bad_name) in
  let lib := Demo.lib Demo.table in
  (asset_portion lib Demo.sh (get_ops lib (pk_script out_cut)) 1 Demo.t 0
     (mkLocals [] [] [] 7 (mkDataParser [] 0))).2 = None
  ∧ txout_tuple_list (digest_output lib Demo.t Demo.no_locals (0%nat, out_cut))
    = [(Demo.sh, 500, true, Some "FOO"%string); (Demo.sh, 500, false, None)]
  ∧ asset_meta_reissues (digest_output lib Demo.t Demo.no_locals (0%nat, out_cut))
    = []
  ∧ (asset_portion lib Demo.sh (get_ops lib (pk_script out_name)) 1 Demo.t 0
       (mkLocals [] [] [] 7 (mkDataParser [] 0))).2 = None
  ∧ txout_tuple_list (digest_output lib Demo.t Demo.no_locals (0%nat, out_name))
    = [(Demo.sh, 500, false, None)]
  ∧ asset_meta_creates (digest_output lib Demo.t Demo.no_locals (0%nat, out_name))
    = [].
Proof. vm_compute. repeat split. Qed.

(** ** The prevout resolver *)

(** The keys of [utxo_map] are taken from the front of the prevouts and the
    values from the front of the UTXO answers followed by the asset
    answers. *)
Lemma resolve_prevouts_zip api tx_map all_hashes utxo_map :
  resolve_prevouts api tx_map all_hashes = Returned utxo_map →
  ∃ from_utxos from_assets,
    utxo_tuples (lookup_utxos api (external_prevouts tx_map all_hashes))
      = Returned from_utxos
    ∧ asset_tuples (lookup_assets api (external_prevouts tx_map all_hashes))
      = Returned from_assets
    ∧ utxo_map = dict_of_zip (external_prevouts tx_map all_hashes)
                   (from_utxos ++ from_assets).
Proof.
  unfold resolve_prevouts. intros H.
  destruct (utxo_tuples _) as [from_utxos|]; [|done].
  destruct (asset_tuples _) as [from_assets|]; [|done].
  exists from_utxos, from_assets. by inversion H.
Qed.

Lemma utxo_tuples_length found l :
  utxo_tuples found = Returned l → length l = length found.
Proof.
  revert l. induction found as [|[[hX v]|] found IH]; intros l; simpl.
  - by inversion 1.
  - destruct (utxo_tuples found); [|done]. inversion 1; subst. simpl.
    f_equal. by apply IH.
  - done.
Qed.

Lemma utxo_tuples_not_asset found l :
  utxo_tuples found = Returned l → Forall (λ p, pair_is_asset p = false) l.
Proof.
  revert l. induction found as [|[[hX v]|] found IH]; intros l; simpl.
  - inversion 1. constructor.
  - destruct (utxo_tuples found); [|done]. inversion 1; subst.
    constructor; [done|]. by apply IH.
  - done.
Qed.

Lemma dict_of_zip_values {V} (P : V → Prop) keys (values : list V) :
  Forall P values → map_Forall (λ _, P) (dict_of_zip keys values).
Proof.
  intros Hall. unfold dict_of_zip.
  assert (Hgen : ∀ (kvs : list (prevout * V)) (m : gmap prevout V),
             Forall (λ kv, P kv.2) kvs → map_Forall (λ _, P) m →
             map_Forall (λ _, P) (foldl (λ m kv, <[kv.1 := kv.2]> m) m kvs)).
  { induction kvs as [|kv kvs IH]; intros m Hkvs Hm; simpl; [done|].
    inversion Hkvs; subst. apply IH; [done|]. by apply map_Forall_insert_2. }
  apply Hgen; [|apply map_Forall_empty].
  revert values Hall. induction keys as [|k keys IH]; intros values Hall;
    simpl; [constructor|].
  destruct Hall; simpl; constructor; auto.
Qed.

(** When the UTXO lookup answers for every prevout, as its interface says,
    no answer of the asset lookup reaches [utxo_map]. *)
Lemma resolve_prevouts_drops_assets api tx_map all_hashes utxo_map :
  length (lookup_utxos api (external_prevouts tx_map all_hashes))
    = length (external_prevouts tx_map all_hashes) →
  resolve_prevouts api tx_map all_hashes = Returned utxo_map →
  map_Forall (λ _ p, pair_is_asset p = false) utxo_map.
Proof.
  intros Hlen (from_utxos & from_assets & Hu & Ha & ->)%resolve_prevouts_zip.
  pose proof (utxo_tuples_length _ _ Hu) as Hl.
  pose proof (utxo_tuples_not_asset _ _ Hu) as Hnot.
  unfold dict_of_zip.
  replace (zip (external_prevouts tx_map all_hashes) (from_utxos ++ from_assets))
    with (zip (external_prevouts tx_map all_hashes) from_utxos).
  - by apply (dict_of_zip_values _ _ from_utxos).
  - rewrite zip_with_app_r, take_ge, drop_ge by lia.
    simpl. by rewrite app_nil_r.
Qed.

(** C2.  The transaction spends an asset output and a coin output, both
    outside the batch.  With the documented answers ([None] from the UTXO
    lookup for the asset output) the resolver raises [TypeError] and builds
    no map; with answers that leave out what was not found, the coin tuple is
    filed under the asset prevout and the asset tuple under the coin
    prevout; when both lookups answer for both prevouts, only the answers
    of the UTXO lookup are kept. *)
Theorem resolver_pairs_by_position :
  resolve_prevouts Demo.db_aligned Demo.spender {[Demo.t]} = Raised TypeError
  ∧ resolve_prevouts Demo.db_found_only Demo.spender {[Demo.t]}
    = Returned {[ Demo.asset_po := (6%N, 50, false, None);
                  Demo.coin_po := (5%N, 7, true, Some "FOO"%string) ]}
  ∧ resolve_prevouts Demo.db_both Demo.spender {[Demo.t]}
    = Returned {[ Demo.asset_po := (5%N, 0, false, None);
                  Demo.coin_po := (6%N, 50, false, None) ]}.
Proof. vm_compute. repeat split. Qed.

(** ** Dictionaries *)

Section DictFacts.
Context {K V : Type} `{EqDecision K}.
Implicit Types (d : list (K * V)).

Lemma dict_set_keys k v d h :
  h ∈ (dict_set k v d).*1 ↔ h = k ∨ h ∈ d.*1.
Proof.
  induction d as [|[k' v'] d IH]; simpl.
  - rewrite list_elem_of_singleton. set_solver.
  - case_decide; subst; simpl; rewrite !elem_of_cons; [|rewrite IH]; tauto.
Qed.

Lemma dict_set_length k v d : (length (dict_set k v d) ≤ S (length d))%nat.
Proof.
  induction d as [|[k' v'] d IH]; simpl; [lia|].
  case_decide; simpl; lia.
Qed.

Lemma dict_set_NoDup k v d : NoDup d.*1 → NoDup (dict_set k v d).*1.
Proof.
  induction d as [|[k' v'] d IH]; simpl; intros Hnd.
  - apply NoDup_singleton.
  - apply NoDup_cons in Hnd as [Hk' Hnd].
    case_decide; subst; simpl; apply NoDup_cons; split; auto.
    rewrite dict_set_keys. naive_solver.
Qed.

Lemma dict_get_set k v d : dict_get k (dict_set k v d) = Some v.
Proof.
  induction d as [|[k' v'] d IH]; simpl.
  - by rewrite decide_True.
  - destruct (decide (k = k')) as [->|Hne]; simpl.
    + by rewrite decide_True.
    + by rewrite decide_False.
Qed.

Lemma dict_set_fresh_length k v d :
  k ∉ d.*1 → length (dict_set k v d) = S (length d).
Proof.
  induction d as [|[k' v'] d IH]; simpl; [done|].
  rewrite not_elem_of_cons. intros [Hne Hk].
  rewrite decide_False by done. simpl. by rewrite IH.
Qed.

Lemma dict_update_keys d other h :
  h ∈ (dict_update d other).*1 ↔ h ∈ d.*1 ∨ h ∈ other.*1.
Proof.
  unfold dict_update. revert d.
  induction other as [|[k v] other IH]; intros d; simpl.
  - set_solver.
  - rewrite IH, dict_set_keys, elem_of_cons. tauto.
Qed.

Lemma dict_update_NoDup d other :
  NoDup d.*1 → NoDup (dict_update d other).*1.
Proof.
  unfold dict_update. revert d.
  induction other as [|[k v] other IH]; intros d Hnd; simpl; [done|].
  by apply IH, dict_set_NoDup.
Qed.
End DictFacts.

(** ** The acceptance engine *)

(** The fee the engine stores: the clamp of native inputs minus native
    outputs of the record itself. *)
Definition fee_rule (tx : MemPoolTx) : Prop :=
  ∃ ins, in_pairs tx = Some ins
         ∧ fee tx = Z.max 0 (native_sum ins - native_sum (out_pairs tx)).

(** The values of the pairs that are not asset pairs, added up. *)
Definition sum_of_native_values (pairs : list io_pair) : Z :=
  foldr Z.add 0 (pair_value <$> filter (λ p, pair_is_asset p = false) pairs).

(** A prevout resolves through [utxo_map] or through an output of an
    accepted transaction. *)
Definition resolves (txs : gmap tx_hash MemPoolTx)
    (utxo_map : gmap prevout io_pair) (po : prevout) : Prop :=
  is_Some (utxo_map !! po)
  ∨ ∃ parent, txs !! po.1 = Some parent ∧ is_Some (out_pairs parent !! po.2).

(** It names an accepted transaction and a position that transaction does
    not have: the tuple index raises [IndexError]. *)
Definition beyond_outputs (txs : gmap tx_hash MemPoolTx)
    (utxo_map : gmap prevout io_pair) (po : prevout) : Prop :=
  utxo_map !! po = None
  ∧ ∃ parent, txs !! po.1 = Some parent ∧ out_pairs parent !! po.2 = None.

(** Line 271: what deferring leaves behind. *)
Definition defer (a : accepting) (h : tx_hash) (tx : MemPoolTx) : accepting :=
  mkAccepting (self a) (touched a) (assets_touched a)
    (dict_set h tx (deferred a)) (unspent a).

Section AcceptFacts.
Implicit Types (a : accepting) (tx : MemPoolTx) (h : tx_hash).
Implicit Types (utxo_map : gmap prevout io_pair).

Lemma native_sum_only_native pairs :
  native_sum pairs = sum_of_native_values pairs.
Proof.
  unfold sum_of_native_values.
  induction pairs as [|p pairs IH]; simpl; [done|].
  rewrite filter_cons. destruct (pair_is_asset p) eqn:Hp.
  - rewrite decide_False by done. by rewrite IH.
  - rewrite decide_True by done. simpl. by rewrite IH.
Qed.

Lemma find_utxo_outcome txs utxo_map po :
  match find_utxo txs utxo_map po with
  | Returned _ => resolves txs utxo_map po
  | Raised KeyError => utxo_map !! po = None ∧ txs !! po.1 = None
  | Raised IndexError => beyond_outputs txs utxo_map po
  | Raised _ => False
  end.
Proof.
  unfold find_utxo, resolves, beyond_outputs.
  destruct (utxo_map !! po) eqn:Hu; [by left|].
  destruct (txs !! po.1) as [parent|] eqn:Hp; [|done].
  destruct (out_pairs parent !! po.2) eqn:Ho; [right|]; eauto.
Qed.

Lemma find_in_pairs_raises txs utxo_map pos e :
  find_in_pairs txs utxo_map pos = Raised e → e = KeyError ∨ e = IndexError.
Proof.
  induction pos as [|po pos IH]; simpl; [done|].
  pose proof (find_utxo_outcome txs utxo_map po) as Hpo.
  destruct (find_utxo txs utxo_map po) as [utxo|e'].
  - destruct (find_in_pairs txs utxo_map pos); [done|].
    intros [= <-]. by apply IH.
  - intros [= <-]. destruct e'; tauto.
Qed.

(** The lookups stop at the first prevout that fails: it raises [KeyError]
    when every prevout before it, and it, is in [utxo_map], names no
    accepted transaction, or names one at a position it has. *)
Lemma find_in_pairs_KeyError txs utxo_map before po after :
  ¬ resolves txs utxo_map po →
  (∀ q, q ∈ before ++ [po] → ¬ beyond_outputs txs utxo_map q) →
  find_in_pairs txs utxo_map (before ++ po :: after) = Raised KeyError.
Proof.
  intros Hbad Hidx.
  induction before as [|q before IH]; simpl.
  - pose proof (find_utxo_outcome txs utxo_map po) as Hpo.
    destruct (find_utxo txs utxo_map po) as [utxo|e]; [done|].
    destruct e; try done. exfalso. apply (Hidx po); [by left|done].
  - pose proof (find_utxo_outcome txs utxo_map q) as Hq.
    destruct (find_utxo txs utxo_map q) as [utxo|e].
    + rewrite IH; [done|]. intros q' Hq'. apply Hidx. by right.
    + destruct e; try done. exfalso. apply (Hidx q); [by left|done].
Qed.

(** A transaction is deferred in no other case. *)
Lemma find_in_pairs_KeyError_inv txs utxo_map pos :
  find_in_pairs txs utxo_map pos = Raised KeyError →
  ∃ before po after,
    pos = before ++ po :: after
    ∧ ¬ resolves txs utxo_map po
    ∧ ∀ q, q ∈ before ++ [po] → ¬ beyond_outputs txs utxo_map q.
Proof.
  assert (Hres : ∀ q, resolves txs utxo_map q →
                      ¬ beyond_outputs txs utxo_map q).
  { intros q [[? Hu]|(parent & Hp & [? Ho])] (Hu' & parent' & Hp' & Ho');
      congruence. }
  assert (Hkey : ∀ q, utxo_map !! q = None → txs !! q.1 = None →
                      ¬ resolves txs utxo_map q
                      ∧ ¬ beyond_outputs txs utxo_map q).
  { intros q Hu Ht. split.
    - intros [[? Hu']|(parent & Hp & _)]; congruence.
    - intros (_ & parent & Hp & _). congruence. }
  induction pos as [|q pos IH]; simpl; [done|].
  pose proof (find_utxo_outcome txs utxo_map q) as Hq.
  destruct (find_utxo txs utxo_map q) as [utxo|e].
  - destruct (find_in_pairs txs utxo_map pos) as [|e] eqn:Hrest; [done|].
    intros [= ->].
    destruct (IH eq_refl) as (before & po & after & -> & Hbad & Hidx).
    exists (q :: before), po, after. split; [done|]. split; [done|].
    intros q' [->|Hq']%elem_of_cons; [by apply Hres|by apply Hidx].
  - intros [= ->]. destruct Hq as [Hu Ht].
    destruct (Hkey q Hu Ht) as [Hbad Hidx].
    exists [], q, pos. split; [done|]. split; [done|].
    by intros q' ->%list_elem_of_singleton.
Qed.

Lemma accept_one_outcome utxo_map a h tx :
  match find_in_pairs (txs (self a)) utxo_map (prevouts tx) with
  | Returned ins => accept_one utxo_map a (h, tx) = (commit a h tx ins, None)
  | Raised KeyError => accept_one utxo_map a (h, tx) = (defer a h tx, None)
  | Raised e => accept_one utxo_map a (h, tx) = (a, Some e)
  end.
Proof.
  unfold accept_one, defer.
  by destruct (find_in_pairs _ _ _) as [ins|[]].
Qed.

Lemma commit_self a h tx ins :
  ∃ touched' hashXs',
    foldl (touch h) (touched a, hashXs (self a)) (ins ++ out_pairs tx)
      = (touched', hashXs')
    ∧ commit a h tx ins =
      mkAccepting
        (mkMemPool
           (<[h := mkMemPoolTx (prevouts tx) (Some ins) (out_pairs tx)
                     (Z.max 0 (native_sum ins - native_sum (out_pairs tx)))
                     (tx_size tx)]> (txs (self a)))
           hashXs' (asset_creates (self a)) (tx_to_asset_create (self a))
           (asset_reissues (self a)) (tx_to_asset_reissue (self a)))
        touched'
        (assets_touched a ∪ default ∅ (tx_to_asset_create (self a) !! h)
           ∪ default ∅ (tx_to_asset_reissue (self a) !! h))
        (deferred a) (unspent a ∖ list_to_set (prevouts tx)).
Proof.
  unfold commit.
  destruct (foldl (touch h) _ _) as [touched' hashXs'] eqn:Hfold.
  by exists touched', hashXs'.
Qed.

Lemma commit_fee_rule a h tx ins :
  ∃ tx', txs (self (commit a h tx ins)) !! h = Some tx'
         ∧ fee_rule tx' ∧ 0 ≤ fee tx'
         ∧ prevouts tx' = prevouts tx ∧ out_pairs tx' = out_pairs tx
         ∧ in_pairs tx' = Some ins.
Proof.
  destruct (commit_self a h tx ins) as (t' & hx' & _ & ->). simpl.
  eexists. rewrite lookup_insert_eq. split; [done|]. simpl.
  split_and!; try done; [by eexists|lia].
Qed.

Lemma commit_txs_other a h tx ins h' :
  h' ≠ h → txs (self (commit a h tx ins)) !! h' = txs (self a) !! h'.
Proof.
  intros Hne. destruct (commit_self a h tx ins) as (t' & hx' & _ & ->).
  simpl. by rewrite lookup_insert_ne.
Qed.

Lemma commit_deferred a h tx ins : deferred (commit a h tx ins) = deferred a.
Proof. by destruct (commit_self a h tx ins) as (t' & hx' & _ & ->). Qed.

(** One iteration of the loop, seen from outside. *)
Lemma accept_one_cases utxo_map a h tx a' o :
  accept_one utxo_map a (h, tx) = (a', o) →
  (o = None ∧ a' = defer a h tx
     ∧ find_in_pairs (txs (self a)) utxo_map (prevouts tx) = Raised KeyError)
  ∨ (o = None ∧ ∃ ins, a' = commit a h tx ins
     ∧ find_in_pairs (txs (self a)) utxo_map (prevouts tx) = Returned ins)
  ∨ (o = Some IndexError ∧ a' = a).
Proof.
  pose proof (accept_one_outcome utxo_map a h tx) as Hone.
  destruct (find_in_pairs _ _ _) as [ins|e] eqn:Hfind.
  - rewrite Hone. intros [= <- <-]. right. left. eauto.
  - destruct (find_in_pairs_raises _ _ _ _ Hfind) as [-> | ->];
      rewrite Hone; intros [= <- <-]; auto.
Qed.
End AcceptFacts.

Arguments accept_one : simpl never.
Arguments commit : simpl never.

Section PassFacts.
Implicit Types (a : accepting) (tx : MemPoolTx) (h : tx_hash).
Implicit Types (utxo_map : gmap prevout io_pair).
Implicit Types (items : list (tx_hash * MemPoolTx)).

(** A pass only writes [txs] at the hashes it is given, and what it writes
    obeys the fee rule. *)
Lemma accept_all_txs utxo_map items a a' o h :
  accept_all utxo_map a items = (a', o) →
  txs (self a') !! h = txs (self a) !! h
  ∨ h ∈ items.*1
    ∧ ∃ tx', txs (self a') !! h = Some tx' ∧ fee_rule tx' ∧ 0 ≤ fee tx'.
Proof.
  revert a. induction items as [|[k tx] items IH]; intros a; simpl.
  - intros [= <- <-]. by left.
  - destruct (accept_one utxo_map a (k, tx)) as [a1 [e|]] eqn:Hone.
    + intros [= <- <-].
      apply accept_one_cases in Hone as [(? & _)|[(? & _)|(_ & ->)]];
        try done. by left.
    + intros Hrest. specialize (IH _ Hrest).
      apply accept_one_cases in Hone
        as [(_ & -> & _)|[(_ & ins & -> & _)|(? & _)]]; [| |done].
      * destruct IH as [IH|(Hin & IH)]; [by left|right].
        split; [by right|done].
      * destruct IH as [IH|(Hin & IH)].
        -- destruct (decide (h = k)) as [->|Hne].
           ++ right. split; [by left|]. rewrite IH.
              destruct (commit_fee_rule a k tx ins)
                as (tx' & ? & ? & ? & _). eauto.
           ++ left. by rewrite IH, commit_txs_other.
        -- right. split; [by right|done].
Qed.

Lemma accept_all_deferred_grows utxo_map items a a' o h :
  accept_all utxo_map a items = (a', o) →
  h ∈ (deferred a).*1 → h ∈ (deferred a').*1.
Proof.
  revert a. induction items as [|[k tx] items IH]; intros a; simpl.
  - by intros [= <- <-].
  - destruct (accept_one utxo_map a (k, tx)) as [a1 [e|]] eqn:Hone.
    + intros [= <- <-].
      by apply accept_one_cases in Hone as [(? & _)|[(? & _)|(_ & ->)]].
    + intros Hrest Hh. apply (IH _ Hrest).
      apply accept_one_cases in Hone
        as [(_ & -> & _)|[(_ & ins & -> & _)|(? & _)]]; [| |done].
      * simpl. apply dict_set_keys. by right.
      * by rewrite commit_deferred.
Qed.

(** Every transaction of a finished pass is deferred or committed. *)
Lemma accept_all_settles utxo_map items a a' h :
  accept_all utxo_map a items = (a', None) →
  h ∈ items.*1 →
  h ∈ (deferred a').*1
  ∨ ∃ tx', txs (self a') !! h = Some tx' ∧ fee_rule tx' ∧ 0 ≤ fee tx'.
Proof.
  revert a. induction items as [|[k tx] items IH]; intros a; simpl.
  - intros _ Hin. by apply elem_of_nil in Hin.
  - destruct (accept_one utxo_map a (k, tx)) as [a1 [e|]] eqn:Hone; [done|].
    intros Hrest [->|Hin]%elem_of_cons; [|by eapply IH].
    apply accept_one_cases in Hone
      as [(_ & -> & _)|[(_ & ins & -> & _)|(? & _)]]; [| |done].
    + left. eapply accept_all_deferred_grows; [done|].
      simpl. apply dict_set_keys. by left.
    + destruct (accept_all_txs _ _ _ _ _ k Hrest) as [Hsame|(_ & ?)];
        [|by right].
      right. rewrite Hsame.
      destruct (commit_fee_rule a k tx ins) as (tx' & ? & ? & ? & _). eauto.
Qed.

Lemma accept_all_deferred_length utxo_map items a a' o :
  accept_all utxo_map a items = (a', o) →
  (length (deferred a') ≤ length (deferred a) + length items)%nat.
Proof.
  revert a. induction items as [|[k tx] items IH]; intros a; simpl.
  - intros [= <- <-]. lia.
  - destruct (accept_one utxo_map a (k, tx)) as [a1 [e|]] eqn:Hone.
    + intros [= <- <-].
      apply accept_one_cases in Hone as [(? & _)|[(? & _)|(_ & ->)]];
        try done. lia.
    + intros Hrest. specialize (IH _ Hrest).
      apply accept_one_cases in Hone
        as [(_ & -> & _)|[(_ & ins & -> & _)|(? & _)]]; [| |done].
      * simpl in IH. pose proof (dict_set_length k tx (deferred a)). lia.
      * rewrite commit_deferred in IH. lia.
Qed.

(** With distinct hashes, a deferred transaction is one of the pass and the
    pass has not written [txs] at its hash. *)
Lemma accept_all_deferred_untouched utxo_map items a a' h :
  NoDup items.*1 →
  accept_all utxo_map a items = (a', None) →
  h ∈ (deferred a').*1 →
  h ∈ (deferred a).*1
  ∨ h ∈ items.*1 ∧ txs (self a') !! h = txs (self a) !! h.
Proof.
  revert a. induction items as [|[k tx] items IH]; intros a Hnd; simpl.
  - intros [= <-]. by left.
  - apply NoDup_cons in Hnd as [Hk Hnd].
    destruct (accept_one utxo_map a (k, tx)) as [a1 [e|]] eqn:Hone; [done|].
    intros Hrest Hh.
    assert (Hother : ∀ h', h' ∉ items.*1 →
              txs (self a') !! h' = txs (self a1) !! h').
    { intros h' Hh'.
      by destruct (accept_all_txs _ _ _ _ _ h' Hrest) as [?|(? & _)]. }
    destruct (IH _ Hnd Hrest Hh) as [Hd|(Hin & Hsame)];
      apply accept_one_cases in Hone
        as [(_ & -> & _)|[(_ & ins & -> & _)|(? & _)]]; try done.
    + simpl in Hd. apply dict_set_keys in Hd as [->|Hd]; [|by left].
      right. split; [by left|]. by rewrite Hother.
    + rewrite commit_deferred in Hd. by left.
    + right. split; [by right|]. by rewrite Hsame.
    + right. split; [by right|]. rewrite Hsame, commit_txs_other; [done|].
      intros ->. done.
Qed.

Lemma accept_all_deferred_NoDup utxo_map items a a' o :
  accept_all utxo_map a items = (a', o) →
  NoDup (deferred a).*1 → NoDup (deferred a').*1.
Proof.
  revert a. induction items as [|[k tx] items IH]; intros a; simpl.
  - by intros [= <- <-].
  - destruct (accept_one utxo_map a (k, tx)) as [a1 [e|]] eqn:Hone.
    + intros [= <- <-].
      by apply accept_one_cases in Hone as [(? & _)|[(? & _)|(_ & ->)]].
    + intros Hrest Hnd. apply (IH _ Hrest).
      apply accept_one_cases in Hone
        as [(_ & -> & _)|[(_ & ins & -> & _)|(? & _)]]; [| |done].
      * simpl. by apply dict_set_NoDup.
      * by rewrite commit_deferred.
Qed.

(** [_accept_transactions] in terms of its loop. *)
Lemma accept_transactions_unfold hp tx_map utxo_map :
  ∃ a o,
    accept_all utxo_map
      (mkAccepting (pool hp) (h_touched hp) (h_assets_touched hp) []
         (dom utxo_map)) tx_map = (a, o)
    ∧ _accept_transactions hp tx_map utxo_map
      = (mkHeap (self a) (touched a) (assets_touched a),
         match o with
         | Some e => Raised e
         | None => Returned (deferred a,
                             filter (λ kv, kv.1 ∈ unspent a) utxo_map)
         end).
Proof.
  unfold _accept_transactions.
  destruct (accept_all _ _ _) as [a [e|]]; eauto.
Qed.

(** A pass never adds to the pending transactions. *)
Lemma accept_transactions_length hp tx_map utxo_map hp' tx_map' utxo_map' :
  _accept_transactions hp tx_map utxo_map
    = (hp', Returned (tx_map', utxo_map')) →
  (length tx_map' ≤ length tx_map)%nat.
Proof.
  destruct (accept_transactions_unfold hp tx_map utxo_map)
    as (a & o & Hall & ->).
  destruct o; [done|]. intros [= <- <- <-].
  apply accept_all_deferred_length in Hall. simpl in Hall. lia.
Qed.
End PassFacts.

(** C4.  Whatever a call of [_accept_transactions] leaves in [txs] under a
    hash was there before the call or obeys the fee rule, and when the call
    returns, every transaction of [tx_map] that is not handed back as
    deferred is in [txs] with a fee equal to the clamp at zero of the values
    of its non-asset in_pairs minus the values of its non-asset out_pairs,
    hence not negative. *)
Theorem committed_fee_is_clamped_native_balance
    (hp : heap) (tx_map : list (tx_hash * MemPoolTx))
    (utxo_map : gmap prevout io_pair) (hp' : heap)
    (out : result (list (tx_hash * MemPoolTx) * gmap prevout io_pair)) :
  _accept_transactions hp tx_map utxo_map = (hp', out) →
  (∀ h tx, txs (pool hp') !! h = Some tx →
     txs (pool hp) !! h = Some tx
     ∨ ∃ ins, in_pairs tx = Some ins
         ∧ fee tx = Z.max 0 (sum_of_native_values ins
                             - sum_of_native_values (out_pairs tx))
         ∧ 0 ≤ fee tx)
  ∧ (∀ deferred unspent h,
       out = Returned (deferred, unspent) →
       h ∈ tx_map.*1 → h ∉ deferred.*1 →
       ∃ tx ins, txs (pool hp') !! h = Some tx
         ∧ in_pairs tx = Some ins
         ∧ fee tx = Z.max 0 (sum_of_native_values ins
                             - sum_of_native_values (out_pairs tx))
         ∧ 0 ≤ fee tx).
Proof.
  destruct (accept_transactions_unfold hp tx_map utxo_map)
    as (a & o & Hall & ->).
  intros [= <- <-]. simpl. split.
  - intros h tx Hh.
    destruct (accept_all_txs _ _ _ _ _ h Hall)
      as [Hsame|(_ & tx' & Hh' & (ins & Hins & Hfee) & Hpos)].
    + left. simpl in Hsame. by rewrite <- Hsame.
    + right. rewrite Hh in Hh'. injection Hh' as <-. exists ins.
      by rewrite <- !native_sum_only_native.
  - intros dfr uns h Hout Hin Hnot. destruct o; [done|].
    injection Hout as <- <-.
    destruct (accept_all_settles _ _ _ _ h Hall Hin)
      as [?|(tx' & Hh' & (ins & Hins & Hfee) & Hpos)]; [done|].
    exists tx', ins. by rewrite <- !native_sum_only_native.
Qed.

(** The fee of a transaction that spends 50 and pays 30 in coin and 7 units
    of an asset. *)
Lemma committed_fee_is_clamped_native_balance_witness :
  _accept_transactions Demo.empty_heap Demo.payer Demo.coin_utxo
    = ((_accept_transactions Demo.empty_heap Demo.payer Demo.coin_utxo).1,
       (_accept_transactions Demo.empty_heap Demo.payer Demo.coin_utxo).2)
  ∧ (fee <$> txs (pool (_accept_transactions Demo.empty_heap Demo.payer
                          Demo.coin_utxo).1) !! Demo.t) = Some 20
  ∧ ∀ h tx,
      txs (pool (_accept_transactions Demo.empty_heap Demo.payer
                   Demo.coin_utxo).1) !! h = Some tx →
      txs (pool Demo.empty_heap) !! h = Some tx
      ∨ ∃ ins, in_pairs tx = Some ins
          ∧ fee tx = Z.max 0 (sum_of_native_values ins
                              - sum_of_native_values (out_pairs tx))
          ∧ 0 ≤ fee tx.
Proof.
  split; [reflexivity|]. split; [reflexivity|].
  exact (proj1 (committed_fee_is_clamped_native_balance Demo.empty_heap
                  Demo.payer Demo.coin_utxo _ _ eq_refl)).
Defined.

(** C10.  When a prevout of a pending transaction resolves neither through
    [utxo_map] nor through an output of an accepted transaction, the loop
    body defers the transaction and does nothing else: the record is kept
    as it is under its hash in [deferred], and the mempool with [txs] and
    [hashXs], [touched], [assets_touched] and [unspent] are the same
    objects as before.  The prevouts are looked up in their order, up to
    the first that fails; as in the transactions the daemon relays, those
    looked up that name an accepted transaction name one of its
    out_pairs. *)
Theorem unresolved_prevout_defers_without_effect
    (utxo_map : gmap prevout io_pair) (a : accepting) (h : tx_hash)
    (tx : MemPoolTx) (before : list prevout) (po : prevout)
    (after : list prevout) :
  prevouts tx = before ++ po :: after →
  ¬ resolves (txs (self a)) utxo_map po →
  (∀ q, q ∈ before ++ [po] →
        ¬ beyond_outputs (txs (self a)) utxo_map q) →
  ∃ a',
    accept_one utxo_map a (h, tx) = (a', None)
    ∧ dict_get h (deferred a') = Some tx
    ∧ (∀ h', h' ≠ h → dict_get h' (deferred a') = dict_get h' (deferred a))
    ∧ self a' = self a
    ∧ touched a' = touched a
    ∧ assets_touched a' = assets_touched a
    ∧ unspent a' = unspent a.
Proof.
  intros Hsplit Hbad Hidx. exists (defer a h tx).
  pose proof (accept_one_outcome utxo_map a h tx) as Hone.
  rewrite Hsplit, (find_in_pairs_KeyError _ _ _ _ _ Hbad Hidx) in Hone.
  split; [exact Hone|]. simpl. split; [apply dict_get_set|].
  split; [|done]. intros h' Hne.
  induction (deferred a) as [|[k v] d IH]; simpl.
  - by rewrite decide_False.
  - destruct (decide (h = k)) as [->|Hk]; simpl.
    + by rewrite !decide_False.
    + destruct (decide (h' = k)); [done|]. apply IH.
Qed.

(** The mempool holds p, which has one output.  The first prevout of the
    transaction names a transaction that is neither in the DB answers nor
    in the mempool: the transaction is deferred there, and its second
    prevout is not looked up. *)
Lemma unresolved_prevout_defers_without_effect_witness :
  let tx := mkMemPoolTx [(9%N, 0%nat); (Demo.p, 0%nat)] None [] 0 250 in
  prevouts tx = [] ++ (9%N, 0%nat) :: [(Demo.p, 0%nat)]
  ∧ ¬ resolves (txs (self Demo.holding_p)) ∅ (9%N, 0%nat)
  ∧ (∀ q, q ∈ [] ++ [(9%N, 0%nat)] →
          ¬ beyond_outputs (txs (self Demo.holding_p)) ∅ q)
  ∧ accept_one ∅ Demo.holding_p (Demo.t, tx)
    = (defer Demo.holding_p Demo.t tx, None)
  ∧ ∃ a',
      accept_one ∅ Demo.holding_p (Demo.t, tx) = (a', None)
      ∧ dict_get Demo.t (deferred a') = Some tx
      ∧ (∀ h', h' ≠ Demo.t →
           dict_get h' (deferred a') = dict_get h' (deferred Demo.holding_p))
      ∧ self a' = self Demo.holding_p
      ∧ touched a' = touched Demo.holding_p
      ∧ assets_touched a' = assets_touched Demo.holding_p
      ∧ unspent a' = unspent Demo.holding_p.
Proof.
  intros tx.
  assert (Hnone : txs (self Demo.holding_p) !! (9%N, 0%nat).1 = None)
    by (by vm_compute).
  assert (H1 : prevouts tx = [] ++ (9%N, 0%nat) :: [(Demo.p, 0%nat)])
    by reflexivity.
  assert (H2 : ¬ resolves (txs (self Demo.holding_p)) ∅ (9%N, 0%nat)).
  { intros [[? Hu]|(parent & Hp & _)]; [by rewrite lookup_empty in Hu|].
    by rewrite Hnone in Hp. }
  assert (H3 : ∀ q, q ∈ [] ++ [(9%N, 0%nat)] →
                    ¬ beyond_outputs (txs (self Demo.holding_p)) ∅ q).
  { intros q ->%list_elem_of_singleton (_ & parent & Hp & _).
    by rewrite Hnone in Hp. }
  split; [exact H1|]. split; [exact H2|]. split; [exact H3|].
  split; [by vm_compute|].
  exact (unresolved_prevout_defers_without_effect ∅ Demo.holding_p Demo.t tx
           [] (9%N, 0%nat) [(Demo.p, 0%nat)] H1 H2 H3).
Defined.

(** What is asked of the prevouts looked up is not idle.  A record that
    names output 1 of p, which is in the mempool with a single output, is
    not one the digester makes of a transaction the daemon relays; on it
    the tuple index raises [IndexError], which [except KeyError] lets
    through, and the transaction is not deferred. *)
Lemma out_of_range_prevout_is_not_deferred :
  (∃ po, po ∈ prevouts Demo.spends_p1
         ∧ ¬ resolves (txs (self Demo.holding_p)) ∅ po)
  ∧ accept_one ∅ Demo.holding_p (Demo.t, Demo.spends_p1)
    = (Demo.holding_p, Some IndexError)
  ∧ accept_one ∅ Demo.holding_p (Demo.t, Demo.spends_p1)
    ≠ (defer Demo.holding_p Demo.t Demo.spends_p1, None).
Proof.
  split; [|split; [by vm_compute|by vm_compute]].
  exists (Demo.p, 1%nat). split; [by left|].
  intros [[? Hu]|(parent & Hp & [? Ho])]; [by rewrite lookup_empty in Hu|].
  simpl in Hp. unfold Demo.p in Hp. rewrite lookup_singleton_eq in Hp.
  injection Hp as <-. by vm_compute in Ho.
Qed.

(** ** The fixed-point loop *)

Arguments _accept_transactions : simpl never.

Section LoopFacts.
Implicit Types (hp : heap) (tx_map : list (tx_hash * MemPoolTx)).
Implicit Types (utxo_map : gmap prevout io_pair).

(** The loop, run with more passes allowed than it has transactions, is a
    run of the [while]. *)
Lemma accept_until_stable_while n hp tx_map utxo_map prior_count :
  (length tx_map < n)%nat ∨ tx_map = [] ∨ length tx_map = prior_count →
  accept_while hp tx_map utxo_map prior_count
    (accept_until_stable n hp tx_map utxo_map prior_count).
Proof.
  revert hp tx_map utxo_map prior_count.
  induction n as [|n IH]; intros hp tx_map utxo_map prior_count Hn; simpl.
  - apply accept_while_exit. destruct Hn as [?|[?|?]]; [lia|auto|auto].
  - destruct (bool_decide (tx_map ≠ [])) eqn:Hne; simpl.
    + apply bool_decide_eq_true in Hne.
      destruct (bool_decide (length tx_map ≠ prior_count)) eqn:Hlen.
      * apply bool_decide_eq_true in Hlen.
        destruct (_accept_transactions hp tx_map utxo_map)
          as [hp' [[tx_map' utxo_map']|e]] eqn:Hpass.
        -- eapply accept_while_pass; [done..|]. apply IH.
           pose proof (accept_transactions_length _ _ _ _ _ _ Hpass).
           destruct Hn as [?|[?|?]]; [lia|done|done].
        -- by eapply accept_while_raise.
      * apply bool_decide_eq_false in Hlen.
        apply accept_while_exit. right.
        by destruct (decide (length tx_map = prior_count)).
    + apply bool_decide_eq_false in Hne.
      apply accept_while_exit. left.
      by destruct (decide (tx_map = [])).
Qed.

Lemma accept_while_functional hp tx_map utxo_map prior_count out1 out2 :
  accept_while hp tx_map utxo_map prior_count out1 →
  accept_while hp tx_map utxo_map prior_count out2 → out1 = out2.
Proof.
  intros H1. revert out2.
  induction H1 as [hp tx_map utxo_map prior_count Hexit
                  |hp tx_map utxo_map prior_count hp' e Hne Hlen Hpass
                  |hp tx_map utxo_map prior_count hp' tx_map' utxo_map' out
                     Hne Hlen Hpass _ IH];
    intros out2 H2; inversion H2; subst; try done.
  - naive_solver.
  - naive_solver.
  - naive_solver.
  - congruence.
  - congruence.
  - naive_solver.
  - congruence.
  - match goal with
    | H : _accept_transactions _ _ _ = (_, Returned _) |- _ =>
        rewrite Hpass in H; injection H as <- <- <-
    end.
    by apply IH.
Qed.

(** One pass over fresh, distinct hashes hands back fresh, distinct
    hashes. *)
Lemma accept_transactions_residue hp tx_map utxo_map hp' tx_map' utxo_map' :
  NoDup tx_map.*1 →
  (∀ h, h ∈ tx_map.*1 → txs (pool hp) !! h = None) →
  _accept_transactions hp tx_map utxo_map
    = (hp', Returned (tx_map', utxo_map')) →
  NoDup tx_map'.*1
  ∧ ∀ h, h ∈ tx_map'.*1 → h ∈ tx_map.*1 ∧ txs (pool hp') !! h = None.
Proof.
  intros Hnd Hfresh.
  destruct (accept_transactions_unfold hp tx_map utxo_map)
    as (a & o & Hall & ->).
  destruct o; [done|]. intros [= <- <- <-]. simpl. split.
  - eapply accept_all_deferred_NoDup; [done|]. simpl. constructor.
  - intros h Hh.
    destruct (accept_all_deferred_untouched _ _ _ _ h Hnd Hall Hh)
      as [Hnil|(Hin & Hsame)].
    + by apply elem_of_nil in Hnil.
    + split; [done|]. rewrite Hsame. by apply Hfresh.
Qed.

Lemma accept_while_residue hp tx_map utxo_map prior_count hp' residue :
  accept_while hp tx_map utxo_map prior_count (hp', Returned residue) →
  NoDup tx_map.*1 →
  (∀ h, h ∈ tx_map.*1 → txs (pool hp) !! h = None) →
  ∀ h, h ∈ residue.*1 → h ∈ tx_map.*1 ∧ txs (pool hp') !! h = None.
Proof.
  intros Hwhile. remember (hp', Returned residue) as out eqn:Hout.
  induction Hwhile as [hp tx_map utxo_map prior_count Hexit
                      |hp tx_map utxo_map prior_count hp1 e Hne Hlen Hpass
                      |hp tx_map utxo_map prior_count hp1 tx_map1 utxo_map1
                         out Hne Hlen Hpass _ IH];
    intros Hnd Hfresh h Hh.
  - injection Hout as <- <-. auto.
  - done.
  - destruct (accept_transactions_residue _ _ _ _ _ _ Hnd Hfresh Hpass)
      as [Hnd1 Hfresh1].
    destruct (IH Hout Hnd1 (λ h Hh, proj2 (Hfresh1 h Hh)) h Hh) as [Hin ?].
    split; [|done]. by apply Hfresh1.
Qed.
End LoopFacts.

(** C6.  The acceptance loop of [_process_mempool] terminates on every
    input: the run of the [while] exists, is unique and is what the loop
    computes with any bound above the number of pending transactions.  A
    pass hands back at most as many transactions as it was given; when it
    hands back as many, the loop is over at once with them as residue.  The
    residue (logged and dropped at line 379) was never committed: with the
    distinct, new hashes the loop is given, no hash of the residue is a key
    of [txs]. *)
Theorem acceptance_loop_terminates
    (hp : heap) (tx_map : list (tx_hash * MemPoolTx))
    (utxo_map : gmap prevout io_pair) :
  accept_while hp tx_map utxo_map 0
    (accept_until_stable (S (length tx_map)) hp tx_map utxo_map 0)
  ∧ (∀ out, accept_while hp tx_map utxo_map 0 out →
       out = accept_until_stable (S (length tx_map)) hp tx_map utxo_map 0)
  ∧ (∀ n, (length tx_map < n)%nat →
       accept_until_stable n hp tx_map utxo_map 0
       = accept_until_stable (S (length tx_map)) hp tx_map utxo_map 0)
  ∧ (∀ hp1 tx_map1 utxo_map1,
       _accept_transactions hp tx_map utxo_map
         = (hp1, Returned (tx_map1, utxo_map1)) →
       (length tx_map1 ≤ length tx_map)%nat
       ∧ (length tx_map1 = length tx_map →
          ∀ out, accept_while hp1 tx_map1 utxo_map1 (length tx_map) out →
                 out = (hp1, Returned tx_map1)))
  ∧ (NoDup tx_map.*1 →
     (∀ h, h ∈ tx_map.*1 → txs (pool hp) !! h = None) →
     ∀ hp' residue,
       accept_until_stable (S (length tx_map)) hp tx_map utxo_map 0
         = (hp', Returned residue) →
       ∀ h, h ∈ residue.*1 → h ∈ tx_map.*1 ∧ txs (pool hp') !! h = None).
Proof.
  assert (Hrun : ∀ n, (length tx_map < n)%nat →
            accept_while hp tx_map utxo_map 0
              (accept_until_stable n hp tx_map utxo_map 0)).
  { intros n Hn. apply accept_until_stable_while. by left. }
  split_and!.
  - apply Hrun. lia.
  - intros out Hout. eapply accept_while_functional; [exact Hout|].
    apply Hrun. lia.
  - intros n Hn. eapply accept_while_functional; apply Hrun; lia.
  - intros hp1 tx_map1 utxo_map1 Hpass. split.
    + by eapply accept_transactions_length.
    + intros Hsame out Hout.
      eapply accept_while_functional; [exact Hout|].
      apply accept_while_exit. by right.
  - intros Hnd Hfresh hp' residue Hres.
    eapply accept_while_residue; [|done..].
    rewrite <- Hres. apply Hrun. lia.
Qed.

Lemma acceptance_loop_terminates_witness :
  NoDup [(Demo.t, Demo.spends_p0)].*1
  ∧ (∀ h, h ∈ [(Demo.t, Demo.spends_p0)].*1 →
          txs (pool Demo.empty_heap) !! h = None)
  ∧ accept_until_stable 2 Demo.empty_heap [(Demo.t, Demo.spends_p0)] ∅ 0
    = (Demo.empty_heap, Returned [(Demo.t, Demo.spends_p0)])
  ∧ ∀ h, h ∈ [(Demo.t, Demo.spends_p0)].*1 →
         h ∈ [(Demo.t, Demo.spends_p0)].*1
         ∧ txs (pool Demo.empty_heap) !! h = None.
Proof.
  assert (H1 : NoDup [(Demo.t, Demo.spends_p0)].*1) by apply NoDup_singleton.
  assert (H2 : ∀ h, h ∈ [(Demo.t, Demo.spends_p0)].*1 →
                    txs (pool Demo.empty_heap) !! h = None)
    by (intros h _; apply lookup_empty).
  assert (H3 : accept_until_stable 2 Demo.empty_heap
                 [(Demo.t, Demo.spends_p0)] ∅ 0
               = (Demo.empty_heap, Returned [(Demo.t, Demo.spends_p0)]))
    by (by vm_compute).
  split; [exact H1|]. split; [exact H2|]. split; [exact H3|].
  exact (proj2 (proj2 (proj2 (proj2
           (acceptance_loop_terminates Demo.empty_heap
              [(Demo.t, Demo.spends_p0)] ∅)))) H1 H2 _ _ H3).
Defined.

(** ** The index [hashXs] *)

(** [h in hashXs[sh]], without creating the key. *)
Definition indexed (m : gmap hashX (gset tx_hash)) (sh : hashX) (h : tx_hash)
  : Prop :=
  ∃ s, m !! sh = Some s ∧ h ∈ s.

(** The script hashes of the in_pairs and out_pairs of a record. *)
Definition tx_hashXs_of (tx : MemPoolTx) : list hashX :=
  pair_hashX <$> (default [] (in_pairs tx) ++ out_pairs tx).

Definition hashXs_exact (m : MemPool) : Prop :=
  ∀ sh h, indexed (hashXs m) sh h
          ↔ ∃ tx, txs m !! h = Some tx ∧ sh ∈ tx_hashXs_of tx.

Definition hashXs_nonempty (m : MemPool) : Prop :=
  ∀ sh s, hashXs m !! sh = Some s → s ≠ ∅.

(** Accepted transactions have their in_pairs. *)
Definition inputs_known (m : MemPool) : Prop :=
  ∀ h tx, txs m !! h = Some tx → is_Some (in_pairs tx).

Definition index_ok (m : MemPool) : Prop :=
  hashXs_exact m ∧ hashXs_nonempty m ∧ inputs_known m.

(** None of the hashes is a key of [txs]. *)
Definition fresh (m : MemPool) (hs : list tx_hash) : Prop :=
  ∀ h, h ∈ hs → txs m !! h = None.

Arguments unindex : simpl never.
Arguments touch : simpl never.

Section IndexFacts.
Implicit Types (m : gmap hashX (gset tx_hash)) (sh x : hashX).
Implicit Types (h : tx_hash) (s : gset tx_hash).

Lemma index_ok_init : index_ok MemPool_init.
Proof.
  split_and!.
  - intros sh h. split.
    + intros (s & Hs & _). simpl in Hs. by rewrite lookup_empty in Hs.
    + intros (tx & Htx & _). simpl in Htx. by rewrite lookup_empty in Htx.
  - intros sh s Hs. simpl in Hs. by rewrite lookup_empty in Hs.
  - intros h tx Htx. simpl in Htx. by rewrite lookup_empty in Htx.
Qed.

(** Lines 286-287, once. *)
Lemma indexed_add m x h sh h' :
  indexed (<[x := default ∅ (m !! x) ∪ {[h]}]> m) sh h'
  ↔ indexed m sh h' ∨ (sh = x ∧ h' = h).
Proof.
  unfold indexed. destruct (decide (sh = x)) as [->|Hne].
  - rewrite lookup_insert_eq. split.
    + intros (s & [= <-] & [Hin| ->%elem_of_singleton]%elem_of_union);
        [|by right].
      left. destruct (m !! x) as [s0|]; [eauto|set_solver].
    + intros [(s & Hs & Hin)|[_ ->]]; eexists; (split; [done|]).
      * rewrite Hs. set_solver.
      * set_solver.
  - rewrite lookup_insert_ne by done. naive_solver.
Qed.

Lemma nonempty_add m x h :
  (∀ sh s, m !! sh = Some s → s ≠ ∅) →
  ∀ sh s, <[x := default ∅ (m !! x) ∪ {[h]}]> m !! sh = Some s → s ≠ ∅.
Proof.
  intros Hm sh s. destruct (decide (sh = x)) as [->|Hne].
  - rewrite lookup_insert_eq. intros [= <-]. set_solver.
  - rewrite lookup_insert_ne by done. apply Hm.
Qed.

Lemma foldl_touch h pairs (t0 : gset hashX) m :
  ∃ t' m',
    foldl (touch h) (t0, m) pairs = (t', m')
    ∧ t0 ⊆ t'
    ∧ (∀ sh h', indexed m' sh h'
                ↔ indexed m sh h' ∨ (sh ∈ pair_hashX <$> pairs ∧ h' = h))
    ∧ ((∀ sh s, m !! sh = Some s → s ≠ ∅) →
       ∀ sh s, m' !! sh = Some s → s ≠ ∅).
Proof.
  revert t0 m. induction pairs as [|p pairs IH]; intros t0 m; simpl.
  - exists t0, m. split_and!; [done|done| |done].
    intros sh h'. rewrite elem_of_nil. tauto.
  - unfold touch at 2. simpl.
    destruct (IH (t0 ∪ {[pair_hashX p]})
                (<[pair_hashX p := default ∅ (m !! pair_hashX p) ∪ {[h]}]> m))
      as (t' & m' & -> & Hsub & Hidx & Hne).
    exists t', m'. split_and!; [done|set_solver| |].
    + intros sh h'. rewrite Hidx, indexed_add, elem_of_cons. naive_solver.
    + intros Hm. apply Hne. by apply nonempty_add.
Qed.

(** Lines 351-353, once, when [remove] finds the hash. *)
Lemma unindex_step h m x m' :
  unindex h (m, None) x = (m', None) →
  (∀ sh h', indexed m' sh h' ↔ indexed m sh h' ∧ ¬ (sh = x ∧ h' = h))
  ∧ ((∀ sh s, m !! sh = Some s → s ≠ ∅) →
     ∀ sh s, m' !! sh = Some s → s ≠ ∅).
Proof.
  unfold unindex. destruct (m !! x) as [s|] eqn:Hx; [|done].
  destruct (decide (h ∈ s)) as [Hin|]; [|done].
  destruct (decide (s ∖ {[h]} = ∅)) as [Hempty|Hleft]; intros [= <-].
  - split.
    + intros sh h'. unfold indexed. destruct (decide (sh = x)) as [->|Hne].
      * rewrite lookup_delete_eq. split; [naive_solver|].
        intros ((s' & Hs' & Hh') & Hnot). rewrite Hx in Hs'.
        injection Hs' as <-. destruct (decide (h' = h)) as [->|]; [tauto|].
        set_solver.
      * rewrite lookup_delete_ne by done. naive_solver.
    + intros Hm sh s'. destruct (decide (sh = x)) as [->|Hne].
      * by rewrite lookup_delete_eq.
      * rewrite lookup_delete_ne by done. apply Hm.
  - split.
    + intros sh h'. unfold indexed. destruct (decide (sh = x)) as [->|Hne].
      * rewrite lookup_insert_eq. split.
        -- intros (s' & [= <-] & Hh'). split; [exists s; set_solver|].
           set_solver.
        -- intros ((s' & Hs' & Hh') & Hnot). rewrite Hx in Hs'.
           injection Hs' as <-. eexists. split; [done|].
           apply elem_of_difference. split; [done|].
           rewrite elem_of_singleton. tauto.
      * rewrite lookup_insert_ne by done. naive_solver.
    + intros Hm sh s'. destruct (decide (sh = x)) as [->|Hne].
      * rewrite lookup_insert_eq. by intros [= <-].
      * rewrite lookup_insert_ne by done. apply Hm.
Qed.

Lemma unindex_raised h m e x : unindex h (m, Some e) x = (m, Some e).
Proof. done. Qed.

Lemma foldl_unindex_raised h m e l :
  foldl (unindex h) (m, Some e) l = (m, Some e).
Proof. induction l as [|x l IH]; simpl; [done|]. apply IH. Qed.

Lemma foldl_unindex h l m m' :
  foldl (unindex h) (m, None) l = (m', None) →
  (∀ sh h', indexed m' sh h' ↔ indexed m sh h' ∧ ¬ (sh ∈ l ∧ h' = h))
  ∧ ((∀ sh s, m !! sh = Some s → s ≠ ∅) →
     ∀ sh s, m' !! sh = Some s → s ≠ ∅).
Proof.
  revert m. induction l as [|x l IH]; intros m; simpl.
  - intros [= <-]. split; [|done]. intros sh h'. rewrite elem_of_nil. tauto.
  - destruct (unindex h (m, None) x) as [m1 [e|]] eqn:Hstep.
    { by rewrite foldl_unindex_raised. }
    intros Hrest. destruct (unindex_step _ _ _ _ Hstep) as [Hidx1 Hne1].
    destruct (IH _ Hrest) as [Hidx Hne]. split.
    + intros sh h'. rewrite Hidx, Hidx1, elem_of_cons. tauto.
    + intros Hm. by apply Hne, Hne1.
Qed.
End IndexFacts.

Arguments evict_one : simpl never.
Arguments _fetch_and_accept : simpl never.
Arguments register_all : simpl never.
Arguments digest_tx : simpl never.

Section IndexPreserved.
Variable lib : Lib.
Implicit Types (a : accepting) (tx : MemPoolTx) (h : tx_hash) (hp : heap).
Implicit Types (utxo_map : gmap prevout io_pair).
Implicit Types (items tx_map : list (tx_hash * MemPoolTx)).

Lemma commit_index_ok a h tx ins :
  txs (self a) !! h = None →
  index_ok (self a) → index_ok (self (commit a h tx ins)).
Proof.
  intros Hfresh (Hexact & Hne & Hins). unfold hashXs_exact in Hexact.
  destruct (commit_self a h tx ins) as (t' & hx' & Hfold & ->).
  destruct (foldl_touch h (ins ++ out_pairs tx) (touched a) (hashXs (self a)))
    as (t'' & hx'' & Hfold' & _ & Hidx & Hne').
  rewrite Hfold in Hfold'. injection Hfold' as <- <-.
  split_and!; simpl.
  - intros sh h'. simpl. rewrite Hidx, Hexact.
    destruct (decide (h' = h)) as [->|Hneq].
    + rewrite lookup_insert_eq, Hfresh. unfold tx_hashXs_of. split.
      * intros [(? & ? & _)|[? _]]; [done|]. eexists. split; [done|]. done.
      * intros (? & [= <-] & ?). by right.
    + rewrite lookup_insert_ne by done. naive_solver.
  - intros sh s Hs. simpl in Hs. by eapply Hne'.
  - intros h' tx'. simpl. destruct (decide (h' = h)) as [->|Hneq].
    + rewrite lookup_insert_eq. intros [= <-]. by eexists.
    + rewrite lookup_insert_ne by done. apply Hins.
Qed.

Lemma accept_all_index_ok utxo_map items a a' o :
  NoDup items.*1 →
  fresh (self a) items.*1 →
  index_ok (self a) →
  accept_all utxo_map a items = (a', o) →
  index_ok (self a').
Proof.
  revert a. induction items as [|[k tx] items IH]; intros a Hnd Hfresh Hok;
    simpl.
  - by intros [= <- <-].
  - apply NoDup_cons in Hnd as [Hk Hnd].
    destruct (accept_one utxo_map a (k, tx)) as [a1 [e|]] eqn:Hone.
    + intros [= <- <-].
      by apply accept_one_cases in Hone as [(? & _)|[(? & _)|(_ & ->)]].
    + apply accept_one_cases in Hone
        as [(_ & -> & _)|[(_ & ins & -> & _)|(? & _)]]; [| |done].
      * apply IH; [done| |done]. intros h Hh. apply Hfresh. by right.
      * apply IH; [done| |].
        -- intros h Hh. rewrite commit_txs_other; [|by intros ->].
           apply Hfresh. by right.
        -- apply commit_index_ok; [|done]. apply Hfresh. by left.
Qed.

Lemma accept_transactions_index_ok hp tx_map utxo_map hp' out :
  NoDup tx_map.*1 →
  fresh (pool hp) tx_map.*1 →
  index_ok (pool hp) →
  _accept_transactions hp tx_map utxo_map = (hp', out) →
  index_ok (pool hp')
  ∧ ∀ h, h ∉ tx_map.*1 → txs (pool hp') !! h = txs (pool hp) !! h.
Proof.
  intros Hnd Hfresh Hok.
  destruct (accept_transactions_unfold hp tx_map utxo_map)
    as (a & o & Hall & ->).
  intros [= <- <-]. simpl. split.
  - refine (accept_all_index_ok _ _ _ _ _ Hnd _ _ Hall);
      [exact Hfresh|exact Hok].
  - intros h Hh.
    by destruct (accept_all_txs _ _ _ _ _ h Hall) as [?|(? & _)].
Qed.

Lemma register_all_txs (m : MemPool) creates reissues :
  txs (register_all m creates reissues) = txs m
  ∧ hashXs (register_all m creates reissues) = hashXs m.
Proof.
  unfold register_all.
  destruct (foldl register (asset_creates m, _) creates).
  by destruct (foldl register (asset_reissues m, _) reissues).
Qed.

Lemma register_all_index_ok (m : MemPool) creates reissues :
  index_ok m → index_ok (register_all m creates reissues).
Proof.
  destruct (register_all_txs m creates reissues) as [Ht Hx].
  unfold index_ok, hashXs_exact, hashXs_nonempty, inputs_known.
  by rewrite Ht, Hx.
Qed.

(** The keys of the digested batch are distinct hashes of the batch. *)
Lemma digest_tx_keys acc h raw_tx :
  (digest_tx lib acc (h, raw_tx)).1.1 = acc.1.1
  ∨ ∃ tx, (digest_tx lib acc (h, raw_tx)).1.1 = dict_set h tx acc.1.1.
Proof.
  unfold digest_tx. destruct acc as [[txs0 creates] reissues].
  destruct raw_tx as [[|b raw]|]; [by left| |by left].
  destruct (read_tx lib (b :: raw)) as [tx size']. right. by eexists.
Qed.

Lemma foldl_digest_tx_keys acc (batch : list (tx_hash * option bytes)) :
  NoDup acc.1.1.*1 →
  NoDup (foldl (digest_tx lib) acc batch).1.1.*1
  ∧ ∀ h, h ∈ (foldl (digest_tx lib) acc batch).1.1.*1 →
         h ∈ acc.1.1.*1 ∨ h ∈ batch.*1.
Proof.
  revert acc. induction batch as [|[k raw_tx] batch IH]; intros acc Hnd;
    simpl.
  - auto.
  - destruct (digest_tx_keys acc k raw_tx) as [Hsame|[tx Hset]].
    + destruct (IH (digest_tx lib acc (k, raw_tx))) as [Hnd' Hin'].
      { by rewrite Hsame. }
      split; [done|]. intros h Hh. rewrite Hsame in Hin'.
      destruct (Hin' h Hh); [by left|right; by right].
    + destruct (IH (digest_tx lib acc (k, raw_tx))) as [Hnd' Hin'].
      { rewrite Hset. by apply dict_set_NoDup. }
      split; [done|]. intros h Hh. rewrite Hset in Hin'.
      destruct (Hin' h Hh) as [[->|?]%dict_set_keys|?];
        [right; by left|by left|right; by right].
Qed.

Lemma deserialize_txs_keys hashes raw_txs :
  NoDup (deserialize_txs lib hashes raw_txs).1.1.*1
  ∧ ∀ h, h ∈ (deserialize_txs lib hashes raw_txs).1.1.*1 → h ∈ hashes.
Proof.
  unfold deserialize_txs.
  destruct (foldl_digest_tx_keys ([], [], []) (zip hashes raw_txs))
    as [Hnd Hin]; [constructor|].
  split; [done|]. intros h Hh.
  destruct (Hin h Hh) as [Hnil|Hzip]; [by apply elem_of_nil in Hnil|].
  apply list_elem_of_fmap in Hzip as ([k raw] & -> & Hzip).
  by apply elem_of_zip_l in Hzip.
Qed.

Lemma fetch_and_accept_index_ok api hp hashes all_hashes hp' out :
  fresh (pool hp) hashes →
  index_ok (pool hp) →
  _fetch_and_accept lib api hp hashes all_hashes = (hp', out) →
  index_ok (pool hp')
  ∧ (∀ h, h ∉ hashes → txs (pool hp') !! h = txs (pool hp) !! h)
  ∧ ∀ tx_map utxo_map, out = Returned (tx_map, utxo_map) →
      NoDup tx_map.*1
      ∧ ∀ h, h ∈ tx_map.*1 → h ∈ hashes ∧ txs (pool hp') !! h = None.
Proof.
  intros Hfresh Hok. unfold _fetch_and_accept.
  destruct (deserialize_txs_keys hashes (raw_transactions api hashes))
    as [Hnd Hin].
  destruct (deserialize_txs lib hashes (raw_transactions api hashes))
    as [[tx_map creates] reissues]. simpl in Hnd, Hin.
  set (hp1 := mkHeap (register_all (pool hp) creates reissues) _ _).
  assert (Hok1 : index_ok (pool hp1)) by by apply register_all_index_ok.
  assert (Htxs1 : txs (pool hp1) = txs (pool hp))
    by apply register_all_txs.
  assert (Hfresh1 : fresh (pool hp1) tx_map.*1).
  { intros h Hh. rewrite Htxs1. by apply Hfresh, Hin. }
  destruct (resolve_prevouts api tx_map all_hashes) as [utxo_map|e].
  - intros Hpass.
    destruct (accept_transactions_index_ok _ _ _ _ _ Hnd Hfresh1 Hok1 Hpass)
      as [Hok' Hother].
    split_and!; [done| |].
    + intros h Hh. rewrite Hother, Htxs1; [done|]. intros ?. by apply Hh, Hin.
    + intros tx_map' utxo_map' ->.
      destruct (accept_transactions_residue _ _ _ _ _ _ Hnd Hfresh1 Hpass)
        as [Hnd' Hres].
      split; [done|]. intros h Hh. destruct (Hres h Hh). auto.
  - intros [= <- <-]. split_and!; [done| |done].
    intros h _. by rewrite Htxs1.
Qed.

Lemma evict_one_index_ok hp h hp' :
  evict_one hp h = (hp', None) →
  index_ok (pool hp) → index_ok (pool hp').
Proof.
  unfold evict_one. intros Hev (Hexact & Hne & Hins).
  unfold hashXs_exact in Hexact.
  destruct (txs (pool hp) !! h) as [tx|] eqn:Htx; [|done].
  destruct (in_pairs tx) as [ins|] eqn:Hin; [|done].
  simpl in Hev.
  destruct (foldl (unindex h) (hashXs (pool hp), None) _)
    as [hx' [e|]] eqn:Hfold; [done|].
  injection Hev as <-.
  destruct (foldl_unindex _ _ _ _ Hfold) as [Hidx Hne'].
  split_and!; simpl.
  - intros sh h'. simpl. rewrite Hidx, Hexact.
    destruct (decide (h' = h)) as [->|Hneq].
    + rewrite lookup_delete_eq, Htx. split; [|naive_solver].
      intros ((tx' & [= <-] & Hsh) & Hnot). exfalso. apply Hnot.
      split; [|done]. apply elem_of_elements.
      unfold tx_hashXs_of in Hsh. rewrite Hin in Hsh. simpl in Hsh.
      rewrite fmap_app in Hsh. set_solver.
    + rewrite lookup_delete_ne by done. naive_solver.
  - intros sh s Hs. simpl in Hs. by eapply Hne'.
  - intros h' tx'. simpl. destruct (decide (h' = h)) as [->|Hneq].
    + by rewrite lookup_delete_eq.
    + rewrite lookup_delete_ne by done. apply Hins.
Qed.

Lemma evict_all_index_ok hp gone hp' :
  evict_all hp gone = (hp', None) →
  index_ok (pool hp) → index_ok (pool hp').
Proof.
  revert hp. induction gone as [|h gone IH]; intros hp; simpl.
  - by intros [= <-].
  - destruct (evict_one hp h) as [hp1 [e|]] eqn:Hone; [done|].
    intros Hrest Hok. apply (IH _ Hrest). by eapply evict_one_index_ok.
Qed.

Lemma fetch_batches_index_ok api all_hashes batches hp tx_map utxo_map
    hp' out :
  NoDup (concat batches) →
  fresh (pool hp) (concat batches) →
  index_ok (pool hp) →
  NoDup tx_map.*1 →
  fresh (pool hp) tx_map.*1 →
  (∀ h, h ∈ tx_map.*1 → h ∉ concat batches) →
  fetch_batches lib api all_hashes hp tx_map utxo_map batches = (hp', out) →
  index_ok (pool hp')
  ∧ ∀ tx_map' utxo_map', out = Returned (tx_map', utxo_map') →
      NoDup tx_map'.*1 ∧ fresh (pool hp') tx_map'.*1.
Proof.
  revert hp tx_map utxo_map.
  induction batches as [|hashes batches IH];
    intros hp tx_map utxo_map Hnd Hfresh Hok Hndm Hfreshm Hdisj; simpl.
  - intros [= <- <-]. split; [done|]. by intros ? ? [= <- <-].
  - simpl in Hnd, Hfresh, Hdisj. apply NoDup_app in Hnd as (Hnd1 & Hd & Hnd2).
    destruct (_fetch_and_accept lib api hp hashes all_hashes)
      as [hp1 [[dfr uns]|e]] eqn:Hfetch.
    + assert (Hf : fresh (pool hp) hashes).
      { intros h Hh. apply Hfresh, elem_of_app. by left. }
      destruct (fetch_and_accept_index_ok _ _ _ _ _ _ Hf Hok Hfetch)
        as (Hok1 & Hother & Hret).
      destruct (Hret _ _ eq_refl) as [Hndd Hind].
      apply IH; [done| |done| | |].
      * intros h Hh. rewrite Hother; [|by intros ?; eapply Hd].
        apply Hfresh, elem_of_app. by right.
      * by apply dict_update_NoDup.
      * intros h [Hh|Hh]%dict_update_keys.
        -- rewrite Hother; [by apply Hfreshm|].
           intros ?. apply (Hdisj h Hh), elem_of_app. by left.
        -- by apply Hind.
      * intros h [Hh|Hh]%dict_update_keys Hin.
        -- apply (Hdisj h Hh), elem_of_app. by right.
        -- by eapply Hd; [apply Hind|].
    + intros [= <- <-].
      assert (Hf : fresh (pool hp) hashes).
      { intros h Hh. apply Hfresh, elem_of_app. by left. }
      destruct (fetch_and_accept_index_ok _ _ _ _ _ _ Hf Hok Hfetch)
        as (Hok1 & _). by split.
Qed.

Lemma accept_until_stable_index_ok n hp tx_map utxo_map prior_count hp' out :
  NoDup tx_map.*1 →
  fresh (pool hp) tx_map.*1 →
  index_ok (pool hp) →
  accept_until_stable n hp tx_map utxo_map prior_count = (hp', out) →
  index_ok (pool hp').
Proof.
  revert hp tx_map utxo_map prior_count.
  induction n as [|n IH]; intros hp tx_map utxo_map prior_count Hnd Hfresh Hok;
    simpl.
  - by intros [= <- <-].
  - destruct (bool_decide (tx_map ≠ []) && _); [|by intros [= <- <-]].
    destruct (_accept_transactions hp tx_map utxo_map)
      as [hp1 [[tx_map1 utxo_map1]|e]] eqn:Hpass.
    + destruct (accept_transactions_index_ok _ _ _ _ _ Hnd Hfresh Hok Hpass)
        as [Hok1 _].
      destruct (accept_transactions_residue _ _ _ _ _ _ Hnd Hfresh Hpass)
        as [Hnd1 Hres].
      apply IH; [done| |done]. intros h Hh. by apply Hres.
    + intros [= <- <-].
      by destruct (accept_transactions_index_ok _ _ _ _ _ Hnd Hfresh Hok Hpass).
Qed.

Lemma chunks_upto_concat {A} n (items : list A) size :
  (0 < size)%nat → (length items ≤ n)%nat →
  concat (chunks_upto n items size) = items.
Proof.
  intros Hsize. revert items.
  induction n as [|n IH]; intros items Hn; destruct items as [|x items];
    simpl in *; try done; try lia.
  destruct size as [|size]; [lia|]. simpl. f_equal.
  rewrite IH; [apply take_drop|]. rewrite length_drop. lia.
Qed.

Lemma chunks_concat {A} (items : list A) size :
  (0 < size)%nat → concat (chunks items size) = items.
Proof. intros. by apply chunks_upto_concat. Qed.

(** A run of [_process_mempool] that returns keeps the index exact. *)
Lemma process_mempool_index_ok api hp all_hashes mempool_height hp' dropped :
  index_ok (pool hp) →
  _process_mempool lib api hp all_hashes mempool_height
    = (hp', Returned dropped) →
  index_ok (pool hp').
Proof.
  intros Hok. unfold _process_mempool.
  destruct (decide (mempool_height ≠ db_height api)); [done|].
  destruct (evict_all hp _) as [hp1 [e|]] eqn:Hevict; [done|].
  pose proof (evict_all_index_ok _ _ _ Hevict Hok) as Hok1.
  set (new_hashes := elements (all_hashes ∖ dom (txs (pool hp1)))).
  assert (Hnd : NoDup new_hashes) by apply NoDup_elements.
  assert (Hfresh : fresh (pool hp1) new_hashes).
  { intros h Hh. apply elem_of_elements in Hh.
    apply not_elem_of_dom. set_solver. }
  clearbody new_hashes.
  destruct new_hashes as [|h0 new_hashes]; [by intros [= <- <-]|].
  rewrite <- (chunks_concat (h0 :: new_hashes) 200) in Hnd, Hfresh by lia.
  destruct (fetch_batches lib api all_hashes hp1 [] ∅ _)
    as [hp2 [[tx_map utxo_map]|e]] eqn:Hfetch; [|done].
  assert (Hres : index_ok (pool hp2)
                 ∧ ∀ tx_map' utxo_map',
                     Returned (tx_map, utxo_map) = Returned (tx_map', utxo_map') →
                     NoDup tx_map'.*1 ∧ fresh (pool hp2) tx_map'.*1).
  { refine (fetch_batches_index_ok _ _ _ _ _ _ _ _ Hnd Hfresh Hok1 _ _ _ Hfetch).
    - constructor.
    - intros h Hh. by apply elem_of_nil in Hh.
    - intros h Hh. by apply elem_of_nil in Hh. }
  destruct Hres as [Hok2 Hret].
  destruct (Hret _ _ eq_refl) as [Hnd2 Hfresh2].
  intros Hloop. by eapply accept_until_stable_index_ok.
Qed.
End IndexPreserved.

(** ** What the reconciler can reach *)

(** The mempools the reconciler holds between two runs: the empty one, and
    what a run of [_process_mempool] that returns leaves.  (A run that raises
    [DBSyncError] leaves the mempool as it was; any other exception ends
    [_refresh_hashes].) *)
Inductive reachable (lib : Lib) : MemPool → Prop :=
  | reachable_init : reachable lib MemPool_init
  | reachable_run api m touched assets all_hashes mempool_height hp' dropped :
      reachable lib m →
      _process_mempool lib api (mkHeap m touched assets) all_hashes
        mempool_height = (hp', Returned dropped) →
      reachable lib (pool hp').

Lemma reachable_index_ok lib m : reachable lib m → index_ok m.
Proof.
  induction 1 as [|api m touched assets all_hashes height hp' dropped _ IH Hrun].
  - apply index_ok_init.
  - exact (process_mempool_index_ok lib api (mkHeap m touched assets)
             _ _ _ _ IH Hrun).
Qed.

(** C7.  After every run of [_process_mempool] that completes, a hash h is
    in [hashXs[sh]] exactly when h is a key of [txs] and an in_pair or
    out_pair of [txs[h]] has script hash sh, and no set stored in [hashXs] is
    empty. *)
Theorem hashXs_mirrors_txs_after_each_run
    (lib : Lib) (api : MemPoolAPI) (m : MemPool) (touched : gset hashX)
    (assets : gset string) (all_hashes : gset tx_hash) (mempool_height : Z)
    (hp' : heap) (dropped : list (tx_hash * MemPoolTx)) :
  reachable lib m →
  _process_mempool lib api (mkHeap m touched assets) all_hashes mempool_height
    = (hp', Returned dropped) →
  (∀ sh h,
     (∃ s, hashXs (pool hp') !! sh = Some s ∧ h ∈ s)
     ↔ ∃ tx ins, txs (pool hp') !! h = Some tx
         ∧ in_pairs tx = Some ins
         ∧ ∃ p, p ∈ ins ++ out_pairs tx ∧ pair_hashX p = sh)
  ∧ (∀ sh s, hashXs (pool hp') !! sh = Some s → s ≠ ∅).
Proof.
  intros Hm Hrun.
  assert (Hok : index_ok (pool hp')).
  { exact (process_mempool_index_ok lib api (mkHeap m touched assets)
             _ _ _ _ (reachable_index_ok lib m Hm) Hrun). }
  destruct Hok as (Hexact & Hne & Hins). split; [|exact Hne].
  intros sh h. fold (indexed (hashXs (pool hp')) sh h). rewrite (Hexact sh h).
  split.
  - intros (tx & Htx & Hsh). destruct (Hins _ _ Htx) as [ins Hin].
    exists tx, ins. split_and!; [done..|].
    unfold tx_hashXs_of in Hsh. rewrite Hin in Hsh. simpl in Hsh.
    apply list_elem_of_fmap in Hsh as (p & -> & Hp). eauto.
  - intros (tx & ins & Htx & Hin & p & Hp & <-). exists tx. split; [done|].
    unfold tx_hashXs_of. rewrite Hin. simpl. apply list_elem_of_fmap. eauto.
Qed.

(** The first run on the empty mempool, with u in the daemon's mempool. *)
Lemma hashXs_mirrors_txs_after_each_run_witness :
  reachable Demo.the_lib MemPool_init
  ∧ Demo.run Demo.refresh2 Demo.empty_heap
    = ((Demo.run Demo.refresh2 Demo.empty_heap).1, Returned [])
  ∧ hashXs (pool (Demo.run Demo.refresh2 Demo.empty_heap).1)
    = {[ Demo.sh := {[ Demo.u ]} ]}
  ∧ (∀ sh h,
       (∃ s, hashXs (pool (Demo.run Demo.refresh2 Demo.empty_heap).1) !! sh
             = Some s ∧ h ∈ s)
       ↔ ∃ tx ins,
           txs (pool (Demo.run Demo.refresh2 Demo.empty_heap).1) !! h = Some tx
           ∧ in_pairs tx = Some ins
           ∧ ∃ p, p ∈ ins ++ out_pairs tx ∧ pair_hashX p = sh)
  ∧ (∀ sh s, hashXs (pool (Demo.run Demo.refresh2 Demo.empty_heap).1) !! sh
             = Some s → s ≠ ∅).
Proof.
  assert (H1 : reachable Demo.the_lib MemPool_init) by constructor.
  assert (H2 : Demo.run Demo.refresh2 Demo.empty_heap
               = ((Demo.run Demo.refresh2 Demo.empty_heap).1, Returned []))
    by (by vm_compute).
  split; [exact H1|]. split; [exact H2|]. split; [by vm_compute|].
  exact (hashXs_mirrors_txs_after_each_run Demo.the_lib Demo.refresh2
           MemPool_init ∅ ∅ (mempool_hashes Demo.refresh2) 100 _ _ H1 H2).
Defined.

(** ** The DB-height interlock *)

Section Interlock.
Variable lib : Lib.
Implicit Types (hp : heap) (tx_map : list (tx_hash * MemPoolTx)).
Implicit Types (utxo_map : gmap prevout io_pair).

Lemma foldl_unindex_raises h l m m' e :
  foldl (unindex h) (m, None) l = (m', Some e) → e = KeyError.
Proof.
  revert m. induction l as [|x l IH]; intros m; simpl; [done|].
  destruct (unindex h (m, None) x) as [m1 [e1|]] eqn:Hstep.
  - rewrite foldl_unindex_raised. intros [= <- <-].
    unfold unindex in Hstep. destruct (m !! x) as [s|]; [|by injection Hstep].
    destruct (decide (h ∈ s)); [|by injection Hstep].
    by destruct (decide (s ∖ {[h]} = ∅)).
  - apply IH.
Qed.

Lemma evict_one_raises hp h hp' e :
  evict_one hp h = (hp', Some e) → e ≠ DBSyncError.
Proof.
  unfold evict_one. destruct (txs (pool hp) !! h) as [tx|];
    [|by intros [= <- <-]].
  destruct (in_pairs tx) as [ins|]; [|by intros [= <- <-]].
  destruct (foldl (unindex h) _ _) as [hx' [e1|]] eqn:Hfold; [|done].
  intros [= <- <-]. by rewrite (foldl_unindex_raises _ _ _ _ _ Hfold).
Qed.

Lemma evict_all_raises hp gone hp' e :
  evict_all hp gone = (hp', Some e) → e ≠ DBSyncError.
Proof.
  revert hp. induction gone as [|h gone IH]; intros hp; simpl; [done|].
  destruct (evict_one hp h) as [hp1 [e1|]] eqn:Hone.
  - intros [= <- <-]. by eapply evict_one_raises.
  - apply IH.
Qed.

Lemma accept_all_raises utxo_map tx_map (a a' : accepting) e :
  accept_all utxo_map a tx_map = (a', Some e) → e = IndexError.
Proof.
  revert a. induction tx_map as [|[k tx] tx_map IH]; intros a; simpl;
    [done|].
  destruct (accept_one utxo_map a (k, tx)) as [a1 [e1|]] eqn:Hone.
  - intros [= <- <-].
    by apply accept_one_cases in Hone as [(? & _)|[(? & _)|([= ->] & _)]].
  - apply IH.
Qed.

Lemma accept_transactions_raises hp tx_map utxo_map hp' e :
  _accept_transactions hp tx_map utxo_map = (hp', Raised e) →
  e = IndexError.
Proof.
  destruct (accept_transactions_unfold hp tx_map utxo_map)
    as (a & o & Hall & ->).
  destruct o as [e1|]; [|done]. intros [= <- <-].
  by eapply accept_all_raises.
Qed.

Lemma utxo_tuples_raises found e :
  utxo_tuples found = Raised e → e = TypeError.
Proof.
  induction found as [|[[hX v]|] found IH]; simpl; [done| |by intros [= <-]].
  destruct (utxo_tuples found); [done|]. intros [= <-]. by apply IH.
Qed.

Lemma asset_tuples_raises found e :
  asset_tuples found = Raised e → e = TypeError.
Proof.
  induction found as [|[[[hX v] name]|] found IH]; simpl;
    [done| |by intros [= <-]].
  destruct (asset_tuples found); [done|]. intros [= <-]. by apply IH.
Qed.

Lemma fetch_and_accept_raises api hp hashes all_hashes hp' e :
  _fetch_and_accept lib api hp hashes all_hashes = (hp', Raised e) →
  e ≠ DBSyncError.
Proof.
  unfold _fetch_and_accept.
  destruct (deserialize_txs lib hashes _) as [[tx_map creates] reissues].
  unfold resolve_prevouts.
  destruct (utxo_tuples _) as [from_utxos|e1] eqn:Hu.
  - destruct (asset_tuples _) as [from_assets|e2] eqn:Ha.
    + intros Hpass. by rewrite (accept_transactions_raises _ _ _ _ _ Hpass).
    + intros [= <- <-]. by rewrite (asset_tuples_raises _ _ Ha).
  - intros [= <- <-]. by rewrite (utxo_tuples_raises _ _ Hu).
Qed.

Lemma fetch_batches_raises api all_hashes batches hp tx_map utxo_map hp' e :
  fetch_batches lib api all_hashes hp tx_map utxo_map batches
    = (hp', Raised e) →
  e ≠ DBSyncError.
Proof.
  revert hp tx_map utxo_map.
  induction batches as [|hashes batches IH]; intros hp tx_map utxo_map;
    simpl; [done|].
  destruct (_fetch_and_accept lib api hp hashes all_hashes)
    as [hp1 [[dfr uns]|e1]] eqn:Hfetch.
  - apply IH.
  - intros [= <- <-]. by eapply fetch_and_accept_raises.
Qed.

Lemma accept_until_stable_raises n hp tx_map utxo_map prior_count hp' e :
  accept_until_stable n hp tx_map utxo_map prior_count = (hp', Raised e) →
  e ≠ DBSyncError.
Proof.
  revert hp tx_map utxo_map prior_count.
  induction n as [|n IH]; intros hp tx_map utxo_map prior_count; simpl;
    [done|].
  destruct (bool_decide (tx_map ≠ []) && _); [|done].
  destruct (_accept_transactions hp tx_map utxo_map)
    as [hp1 [[tx_map1 utxo_map1]|e1]] eqn:Hpass.
  - apply IH.
  - intros [= <- <-]. by rewrite (accept_transactions_raises _ _ _ _ _ Hpass).
Qed.

Lemma process_mempool_DBSyncError api hp all_hashes mempool_height hp' :
  _process_mempool lib api hp all_hashes mempool_height
    = (hp', Raised DBSyncError) →
  mempool_height ≠ db_height api ∧ hp' = hp.
Proof.
  unfold _process_mempool.
  destruct (decide (mempool_height ≠ db_height api)); [by intros [= <-]|].
  destruct (evict_all hp _) as [hp1 [e|]] eqn:Hevict.
  { intros [= <- ->]. by apply evict_all_raises in Hevict. }
  destruct (elements (all_hashes ∖ dom (txs (pool hp1))))
    as [|h0 new_hashes].
  { intros Hret. discriminate Hret. }
  destruct (fetch_batches lib api all_hashes hp1 [] ∅ _)
    as [hp2 [[tx_map utxo_map]|e]] eqn:Hfetch.
  - intros Hloop. by apply accept_until_stable_raises in Hloop.
  - intros [= <- ->]. by apply fetch_batches_raises in Hfetch.
Qed.
End Interlock.

(** C8.  [_process_mempool] raises [DBSyncError] exactly when the height of
    the cycle differs from [db_height()], and then it returns the very heap
    it was given: the six indices and both accumulators are untouched.  One
    turn of [_refresh_hashes] hands the accumulators back unchanged when it
    waits for the DB (or when the daemon's height moved), and empties them
    only in the turn that called [on_mempool] with their contents. *)
Theorem DBSyncError_iff_heights_differ
    (lib : Lib) (api : MemPoolAPI) (hp : heap) (all_hashes : gset tx_hash)
    (mempool_height : Z) :
  ((∃ hp', _process_mempool lib api hp all_hashes mempool_height
           = (hp', Raised DBSyncError))
   ↔ mempool_height ≠ db_height api)
  ∧ (∀ hp', _process_mempool lib api hp all_hashes mempool_height
            = (hp', Raised DBSyncError) → hp' = hp)
  ∧ (∀ hp' t, refresh_turn lib api hp = (hp', t) →
       match t with
       | HeightMoved => hp' = hp
       | WaitingForDB => hp' = hp ∧ cached_height api ≠ db_height api
       | Published published_touched published_height published_assets =>
           ∃ hp1 dropped,
             _process_mempool lib api hp (mempool_hashes api)
               (cached_height api) = (hp1, Returned dropped)
             ∧ published_touched = h_touched hp1
             ∧ published_assets = h_assets_touched hp1
             ∧ published_height = cached_height api
             ∧ hp' = mkHeap (pool hp1) ∅ ∅
       | Crashed e => e ≠ DBSyncError
       end).
Proof.
  split_and!.
  - split.
    + intros [hp' Hraise].
      by apply process_mempool_DBSyncError in Hraise as [? _].
    + intros Hne. exists hp. unfold _process_mempool.
      by rewrite decide_True.
  - intros hp' Hraise.
    by apply process_mempool_DBSyncError in Hraise as [_ ?].
  - intros hp' t. unfold refresh_turn.
    destruct (decide (cached_height api ≠ api_height api));
      [by intros [= <- <-]|].
    destruct (_process_mempool lib api hp (mempool_hashes api)
                (cached_height api)) as [hp1 [dropped|e]] eqn:Hrun.
    + intros [= <- <-]. by exists hp1, dropped.
    + destruct e; intros [= <- <-]; try done.
      apply process_mempool_DBSyncError in Hrun as [? ->]. done.
Qed.

(** The DB is at height 100 and the cycle at 99, with t in the mempool. *)
Lemma DBSyncError_iff_heights_differ_witness :
  99 ≠ db_height Demo.refresh5
  ∧ _process_mempool Demo.the_lib Demo.refresh5 Demo.after4 ∅ 99
    = (Demo.after4, Raised DBSyncError).
Proof.
  assert (H : 99 ≠ db_height Demo.refresh5) by (by vm_compute).
  split; [exact H|].
  destruct (DBSyncError_iff_heights_differ Demo.the_lib Demo.refresh5
              Demo.after4 ∅ 99) as (Hiff & Hsame & _).
  destruct (proj2 Hiff H) as [hp' Hraise].
  rewrite Hraise. f_equal. exact (Hsame hp' Hraise).
Defined.

(** ** Asset metadata of transactions that are never accepted *)

(** C3.  The daemon reports t, which issues FOO, and its parent p, but has
    no raw bytes for p any more.  The run completes: t is deferred, found
    unacceptable and dropped (line 379), so [txs] is empty; yet
    [asset_creates] holds FOO and [tx_to_asset_create] holds t, registered
    at lines 521-526 before acceptance.  When the daemon then reports an
    empty mempool, nothing is evicted, as eviction runs over [txs]: the two
    entries stay. *)
Theorem dropped_transaction_keeps_asset_entries :
  Demo.run Demo.refresh1 Demo.empty_heap
    = (Demo.after1,
       Returned [(Demo.t, mkMemPoolTx [(Demo.p, 0%nat)] None
                            [(Demo.sh, 500, true, Some "FOO"%string)] 0 250)])
  ∧ txs (pool Demo.after1) = ∅
  ∧ asset_creates (pool Demo.after1) = {[ "FOO"%string := Demo.FOO_by Demo.t ]}
  ∧ tx_to_asset_create (pool Demo.after1) = {[ Demo.t := {[ "FOO"%string ]} ]}
  ∧ Demo.run Demo.refresh3 Demo.after1
    = (mkHeap (pool Demo.after1) ∅ ∅, Returned [])
  ∧ pool (Demo.run Demo.refresh3 Demo.after1).1 = pool Demo.after1.
Proof. vm_compute. repeat split. Qed.

(** C9.  Three runs that complete lead to a mempool S in which t is fresh as
    the round trip asks (not in [txs], its asset FOO neither in [asset_creates]
    nor in [asset_reissues]) while [tx_to_asset_create] still holds t, left
    by the run that dropped it.  The fourth run digests and accepts t, the
    fifth evicts it: [txs], [hashXs], [asset_creates], [asset_reissues] and
    [tx_to_asset_reissue] are as in S, but [tx_to_asset_create] has lost
    t. *)
Theorem evicting_a_once_dropped_transaction_changes_the_reverse_index :
  (Demo.run Demo.refresh1 Demo.empty_heap).2
    = Returned [(Demo.t, mkMemPoolTx [(Demo.p, 0%nat)] None
                           [(Demo.sh, 500, true, Some "FOO"%string)] 0 250)]
  ∧ (Demo.run Demo.refresh2 Demo.after1).2 = Returned []
  ∧ (Demo.run Demo.refresh3 Demo.after2).2 = Returned []
  ∧ pool Demo.after3
    = mkMemPool ∅ ∅ ∅ {[ Demo.t := {[ "FOO"%string ]} ]} ∅ ∅
  ∧ (Demo.run Demo.refresh4 Demo.after3).2 = Returned []
  ∧ pool Demo.after4
    = mkMemPool
        {[ Demo.t := mkMemPoolTx [(Demo.p, 0%nat)] (Some [(6%N, 50, false, None)])
                       [(Demo.sh, 500, true, Some "FOO"%string)] 50 250 ]}
        {[ 6%N := {[ Demo.t ]}; Demo.sh := {[ Demo.t ]} ]}
        {[ "FOO"%string := Demo.FOO_by Demo.t ]}
        {[ Demo.t := {[ "FOO"%string ]} ]} ∅ ∅
  ∧ (Demo.run Demo.refresh5 Demo.after4).2 = Returned []
  ∧ pool Demo.after5 = mkMemPool ∅ ∅ ∅ ∅ ∅ ∅
  ∧ pool Demo.after5 ≠ pool Demo.after3.
Proof. vm_compute. repeat split. discriminate. Qed.

(** * Further properties of the reconciler *)

(** The heap an [accepting] state stands for. *)
Definition heap_of (a : accepting) : heap :=
  mkHeap (self a) (touched a) (assets_touched a).

(** ** What every step of a run preserves

    A property of the heap that registering the metadata of a digested
    batch keeps, and that committing a transaction whose hash is [allowed],
    with the in_pairs found for it, keeps, is kept by everything a run does
    after its eviction loop. *)

Section Ingest.
Variable lib : Lib.
Variable P : heap → Prop.
Variable allowed : tx_hash → Prop.
Hypothesis P_register : ∀ hp hashes raw_txs tx_map creates reissues,
  (∀ h, h ∈ hashes → allowed h) →
  deserialize_txs lib hashes raw_txs = (tx_map, creates, reissues) →
  P hp →
  P (mkHeap (register_all (pool hp) creates reissues)
            (h_touched hp) (h_assets_touched hp)).
Hypothesis P_commit : ∀ a h tx ins utxo_map,
  allowed h →
  find_in_pairs (txs (self a)) utxo_map (prevouts tx) = Returned ins →
  P (heap_of a) → P (heap_of (commit a h tx ins)).
Implicit Types (a : accepting) (hp : heap).
Implicit Types (utxo_map : gmap prevout io_pair).
Implicit Types (items tx_map : list (tx_hash * MemPoolTx)).

Lemma accept_all_keeps utxo_map items a a' o :
  (∀ h, h ∈ items.*1 → allowed h) →
  P (heap_of a) →
  accept_all utxo_map a items = (a', o) →
  P (heap_of a') ∧ ∀ h, h ∈ (deferred a').*1 → h ∈ (deferred a).*1 ∨ h ∈ items.*1.
Proof.
  revert a. induction items as [|[k tx] items IH]; intros a Hadm HP; simpl.
  - intros [= <- <-]. auto.
  - destruct (accept_one utxo_map a (k, tx)) as [a1 [e|]] eqn:Hone.
    + intros [= <- <-].
      apply accept_one_cases in Hone as [(? & _)|[(? & _)|(_ & ->)]];
        try done. auto.
    + intros Hrest.
      assert (Hadm' : ∀ h, h ∈ items.*1 → allowed h).
      { intros h Hh. apply Hadm. by right. }
      apply accept_one_cases in Hone
        as [(_ & -> & _)|[(_ & ins & -> & Hfind)|(? & _)]]; [| |done].
      * destruct (IH (defer a k tx) Hadm' HP Hrest) as [HP' Hd].
        split; [done|].
        intros h Hh. destruct (Hd h Hh) as [Hin|Hin]; [|right; by right].
        simpl in Hin. apply dict_set_keys in Hin as [->|?];
          [right; by left|by left].
      * assert (HP1 : P (heap_of (commit a k tx ins))).
        { apply (P_commit _ _ _ _ utxo_map); [|done..]. apply Hadm. by left. }
        destruct (IH _ Hadm' HP1 Hrest) as [HP' Hd]. split; [done|].
        intros h Hh. rewrite commit_deferred in Hd.
        destruct (Hd h Hh); [by left|right; by right].
Qed.

Lemma accept_transactions_keeps hp tx_map utxo_map hp' out :
  (∀ h, h ∈ tx_map.*1 → allowed h) →
  P hp →
  _accept_transactions hp tx_map utxo_map = (hp', out) →
  P hp'
  ∧ ∀ tx_map' utxo_map', out = Returned (tx_map', utxo_map') →
      ∀ h, h ∈ tx_map'.*1 → h ∈ tx_map.*1.
Proof.
  intros Hadm HP.
  destruct (accept_transactions_unfold hp tx_map utxo_map)
    as (a & o & Hall & ->).
  intros [= <- <-].
  assert (HP0 : P (heap_of (mkAccepting (pool hp) (h_touched hp)
                              (h_assets_touched hp) [] (dom utxo_map)))).
  { unfold heap_of. simpl. by destruct hp. }
  destruct (accept_all_keeps _ _ _ _ _ Hadm HP0 Hall) as [HP' Hd].
  split; [exact HP'|]. intros tx_map' utxo_map' Hout h Hh.
  destruct o; [done|]. injection Hout as <- <-.
  destruct (Hd h Hh) as [Hnil|?]; [|done]. by apply elem_of_nil in Hnil.
Qed.

Lemma fetch_and_accept_keeps api hp hashes all_hashes hp' out :
  (∀ h, h ∈ hashes → allowed h) →
  P hp →
  _fetch_and_accept lib api hp hashes all_hashes = (hp', out) →
  P hp'
  ∧ ∀ tx_map utxo_map, out = Returned (tx_map, utxo_map) →
      ∀ h, h ∈ tx_map.*1 → h ∈ hashes.
Proof.
  intros Hadm HP. unfold _fetch_and_accept.
  destruct (deserialize_txs_keys lib hashes (raw_transactions api hashes))
    as [_ Hin].
  destruct (deserialize_txs lib hashes (raw_transactions api hashes))
    as [[tx_map creates] reissues] eqn:Hdigest. simpl in Hin.
  pose proof (P_register hp _ _ _ _ _ Hadm Hdigest HP) as HP1.
  destruct (resolve_prevouts api tx_map all_hashes) as [utxo_map|e].
  - intros Hpass.
    destruct (accept_transactions_keeps _ _ _ _ _
                (λ h Hh, Hadm h (Hin h Hh)) HP1 Hpass) as [HP' Hd].
    split; [done|]. intros tx_map' utxo_map' Hout h Hh.
    by apply Hin, (Hd _ _ Hout).
  - intros [= <- <-]. by split.
Qed.

Lemma fetch_batches_keeps api all_hashes batches hp tx_map utxo_map hp' out :
  (∀ h, h ∈ concat batches → allowed h) →
  (∀ h, h ∈ tx_map.*1 → allowed h) →
  P hp →
  fetch_batches lib api all_hashes hp tx_map utxo_map batches = (hp', out) →
  P hp'
  ∧ ∀ tx_map' utxo_map', out = Returned (tx_map', utxo_map') →
      ∀ h, h ∈ tx_map'.*1 → allowed h.
Proof.
  revert hp tx_map utxo_map.
  induction batches as [|hashes batches IH];
    intros hp tx_map utxo_map Hadm Hmap HP; simpl.
  - intros [= <- <-]. split; [done|]. by intros ? ? [= <- <-].
  - simpl in Hadm.
    assert (Hadm1 : ∀ h, h ∈ hashes → allowed h).
    { intros h Hh. apply Hadm, elem_of_app. by left. }
    destruct (_fetch_and_accept lib api hp hashes all_hashes)
      as [hp1 [[dfr uns]|e]] eqn:Hfetch.
    + destruct (fetch_and_accept_keeps _ _ _ _ _ _ Hadm1 HP Hfetch)
        as [HP1 Hd].
      apply IH; [| |done].
      * intros h Hh. apply Hadm, elem_of_app. by right.
      * intros h [Hh|Hh]%dict_update_keys; [by apply Hmap|].
        by apply Hadm1, (Hd _ _ eq_refl).
    + intros [= <- <-].
      by destruct (fetch_and_accept_keeps _ _ _ _ _ _ Hadm1 HP Hfetch).
Qed.

Lemma accept_until_stable_keeps n hp tx_map utxo_map prior_count hp' out :
  (∀ h, h ∈ tx_map.*1 → allowed h) →
  P hp →
  accept_until_stable n hp tx_map utxo_map prior_count = (hp', out) →
  P hp'.
Proof.
  revert hp tx_map utxo_map prior_count.
  induction n as [|n IH]; intros hp tx_map utxo_map prior_count Hadm HP;
    simpl.
  - by intros [= <- <-].
  - destruct (bool_decide (tx_map ≠ []) && _); [|by intros [= <- <-]].
    destruct (_accept_transactions hp tx_map utxo_map)
      as [hp1 [[tx_map1 utxo_map1]|e]] eqn:Hpass.
    + destruct (accept_transactions_keeps _ _ _ _ _ Hadm HP Hpass)
        as [HP1 Hd].
      apply IH; [|done]. intros h Hh. by apply Hadm, (Hd _ _ eq_refl).
    + intros [= <- <-].
      by destruct (accept_transactions_keeps _ _ _ _ _ Hadm HP Hpass).
Qed.
(** What the run does once the vanished transactions are evicted. *)
Lemma process_mempool_keeps api hp all_hashes mempool_height hp1 hp' out :
  mempool_height = db_height api →
  evict_all hp (elements (dom (txs (pool hp)) ∖ all_hashes)) = (hp1, None) →
  (∀ h, h ∈ all_hashes → txs (pool hp1) !! h = None → allowed h) →
  P hp1 →
  _process_mempool lib api hp all_hashes mempool_height = (hp', out) →
  P hp'.
Proof.
  intros Hheight Hevict Hadm HP. unfold _process_mempool.
  rewrite decide_False by (by intros ?). rewrite Hevict.
  set (new_hashes := elements _).
  assert (Hnew : ∀ h, h ∈ new_hashes → allowed h).
  { intros h Hh. apply elem_of_elements, elem_of_difference in Hh as [? Hd].
    apply Hadm; [done|]. by apply not_elem_of_dom. }
  clearbody new_hashes.
  destruct new_hashes as [|h0 new_hashes]; [by intros [= <- <-]|].
  rewrite <- (chunks_concat (h0 :: new_hashes) 200) in Hnew by lia.
  destruct (fetch_batches lib api all_hashes hp1 [] ∅ _)
    as [hp2 [[tx_map utxo_map]|e]] eqn:Hfetch.
  - assert (Hnil : ∀ h, h ∈ ([] : list (tx_hash * MemPoolTx)).*1 → allowed h).
    { intros h Hh. by apply elem_of_nil in Hh. }
    destruct (fetch_batches_keeps _ _ _ _ _ _ _ _ Hnew Hnil HP Hfetch)
      as [HP2 Hd].
    intros Hloop.
    exact (accept_until_stable_keeps _ _ _ _ _ _ _ (Hd _ _ eq_refl) HP2 Hloop).
  - intros [= <- <-].
    assert (Hnil : ∀ h, h ∈ ([] : list (tx_hash * MemPoolTx)).*1 → allowed h).
    { intros h Hh. by apply elem_of_nil in Hh. }
    by destruct (fetch_batches_keeps _ _ _ _ _ _ _ _ Hnew Hnil HP Hfetch).
Qed.
End Ingest.

Section RunFacts.
Variable lib : Lib.
Implicit Types (hp : heap) (h : tx_hash).

(** A run that returns has the heights it compares equal and its eviction
    loop completed. *)
Lemma process_mempool_returned api hp all_hashes mempool_height hp' dropped :
  _process_mempool lib api hp all_hashes mempool_height
    = (hp', Returned dropped) →
  mempool_height = db_height api
  ∧ ∃ hp1, evict_all hp (elements (dom (txs (pool hp)) ∖ all_hashes))
           = (hp1, None).
Proof.
  unfold _process_mempool.
  destruct (decide (mempool_height ≠ db_height api)) as [|Heq]; [done|].
  destruct (evict_all hp _) as [hp1 [e|]]; [done|].
  intros _. split; [|by exists hp1].
  by destruct (decide (mempool_height = db_height api)).
Qed.
End RunFacts.

(** ** Eviction (lines 336-354) *)

(** The script hashes of an evicted transaction (lines 348-349). *)
Definition evicted_hashXs (ins : list io_pair) (tx : MemPoolTx) : gset hashX :=
  list_to_set (pair_hashX <$> ins) ∪ list_to_set (pair_hashX <$> out_pairs tx).

Section EvictFacts.
Implicit Types (hp : heap) (h : tx_hash) (m : gmap hashX (gset tx_hash)).

(** [remove] finds the hash under every script hash that lists it. *)
Lemma foldl_unindex_succeeds h l m :
  NoDup l → (∀ x, x ∈ l → indexed m x h) →
  ∃ m', foldl (unindex h) (m, None) l = (m', None).
Proof.
  revert m. induction l as [|x l IH]; intros m Hnd Hall; simpl; [eauto|].
  apply NoDup_cons in Hnd as [Hx Hnd].
  destruct (Hall x) as (s & Hs & Hin); [by left|].
  assert (Hstep : ∃ m1, unindex h (m, None) x = (m1, None)).
  { unfold unindex. rewrite Hs, decide_True by done.
    destruct (decide (s ∖ {[h]} = ∅)); eauto. }
  destruct Hstep as [m1 Hstep]. rewrite Hstep.
  apply IH; [done|]. intros y Hy.
  apply (unindex_step _ _ _ _ Hstep). split; [apply Hall; by right|].
  by intros [-> _].
Qed.

(** The loop writes [hashXs] under the script hashes it is given only. *)
Lemma foldl_unindex_other h l m m' o sh :
  foldl (unindex h) (m, None) l = (m', o) → sh ∉ l → m' !! sh = m !! sh.
Proof.
  revert m. induction l as [|x l IH]; intros m; simpl.
  - by intros [= <- <-].
  - intros Hfold [Hne Hnot]%not_elem_of_cons.
    destruct (unindex h (m, None) x) as [m1 [e|]] eqn:Hstep.
    + rewrite foldl_unindex_raised in Hfold. injection Hfold as <- <-.
      unfold unindex in Hstep. destruct (m !! x) as [s|].
      * destruct (decide (h ∈ s)); [|by injection Hstep as <-].
        by destruct (decide (s ∖ {[h]} = ∅)).
      * injection Hstep as <-. by rewrite lookup_insert_ne.
    + rewrite (IH _ Hfold Hnot). unfold unindex in Hstep.
      destruct (m !! x) as [s|]; [|done].
      destruct (decide (h ∈ s)); [|done].
      destruct (decide (s ∖ {[h]} = ∅)); injection Hstep as <-.
      * by rewrite lookup_delete_ne.
      * by rewrite lookup_insert_ne.
Qed.

(** What the eviction of one transaction leaves when it completes. *)
Lemma evict_one_returned hp h hp' :
  evict_one hp h = (hp', None) →
  ∃ tx ins hx',
    txs (pool hp) !! h = Some tx
    ∧ in_pairs tx = Some ins
    ∧ foldl (unindex h) (hashXs (pool hp), None)
        (elements (evicted_hashXs ins tx)) = (hx', None)
    ∧ pool hp'
      = mkMemPool (delete h (txs (pool hp))) hx'
          (pop_all (default ∅ (tx_to_asset_create (pool hp) !! h))
             (asset_creates (pool hp)))
          (delete h (tx_to_asset_create (pool hp)))
          (pop_all (default ∅ (tx_to_asset_reissue (pool hp) !! h))
             (asset_reissues (pool hp)))
          (delete h (tx_to_asset_reissue (pool hp)))
    ∧ h_touched hp' = h_touched hp ∪ evicted_hashXs ins tx
    ∧ h_assets_touched hp' = h_assets_touched hp.
Proof.
  unfold evict_one, evicted_hashXs.
  destruct (txs (pool hp) !! h) as [tx|]; [|done].
  destruct (in_pairs tx) as [ins|] eqn:Hin; [|done]. simpl.
  destruct (foldl (unindex h) _ _) as [hx' [e|]] eqn:Hfold; [done|].
  intros [= <-]. exists tx, ins, hx'. split_and!; done || exact Hfold.
Qed.

Lemma evict_one_succeeds hp h :
  index_ok (pool hp) → is_Some (txs (pool hp) !! h) →
  ∃ hp', evict_one hp h = (hp', None).
Proof.
  intros (Hexact & _ & Hins) [tx Htx].
  destruct (Hins _ _ Htx) as [ins Hin].
  destruct (foldl_unindex_succeeds h (elements (evicted_hashXs ins tx))
              (hashXs (pool hp))) as [hx' Hfold].
  { apply NoDup_elements. }
  { intros x Hx. apply Hexact. exists tx. split; [done|].
    unfold tx_hashXs_of. rewrite Hin. simpl. rewrite fmap_app.
    apply elem_of_elements in Hx. unfold evicted_hashXs in Hx. set_solver. }
  unfold evict_one. rewrite Htx, Hin. simpl.
  unfold evicted_hashXs in Hfold. rewrite Hfold. eauto.
Qed.

Lemma evict_all_succeeds hp gone :
  index_ok (pool hp) → NoDup gone →
  (∀ h, h ∈ gone → is_Some (txs (pool hp) !! h)) →
  ∃ hp', evict_all hp gone = (hp', None).
Proof.
  revert hp. induction gone as [|h gone IH]; intros hp Hok Hnd Hall; simpl;
    [eauto|].
  apply NoDup_cons in Hnd as [Hh Hnd].
  destruct (evict_one_succeeds hp h Hok) as [hp1 Hone]; [apply Hall; by left|].
  rewrite Hone. apply IH; [by eapply evict_one_index_ok|done|].
  intros h' Hh'.
  destruct (evict_one_returned _ _ _ Hone)
    as (tx & ins & hx' & _ & _ & _ & -> & _).
  simpl. rewrite lookup_delete_ne; [apply Hall; by right|]. by intros ->.
Qed.

(** A completed eviction removes the hashes it is given from [txs] and
    leaves the other records as they were. *)
Lemma evict_all_txs hp gone hp' h :
  evict_all hp gone = (hp', None) →
  txs (pool hp') !! h
  = if decide (h ∈ gone) then None else txs (pool hp) !! h.
Proof.
  revert hp. induction gone as [|h0 gone IH]; intros hp; cbn [evict_all].
  - intros [= <-].
    destruct (decide (h ∈ [])) as [Hin|]; [by apply elem_of_nil in Hin|done].
  - destruct (evict_one hp h0) as [hp1 [e|]] eqn:Hone; [done|].
    intros Hrest. rewrite (IH _ Hrest).
    destruct (evict_one_returned _ _ _ Hone)
      as (tx & ins & hx' & _ & _ & _ & -> & _). cbn [txs].
    destruct (decide (h ∈ gone)) as [Hin|Hnot].
    + rewrite decide_True; [done|by right].
    + destruct (decide (h = h0)) as [->|Hne].
      * rewrite decide_True by (by left). by rewrite lookup_delete_eq.
      * rewrite decide_False by (by intros [?|?]%elem_of_cons).
        by rewrite lookup_delete_ne.
Qed.

(** On a mirrored index the eviction loop completes, whatever is reported,
    and leaves the records of the reported hashes. *)
Lemma evict_vanished hp (all_hashes : gset tx_hash) :
  index_ok (pool hp) →
  ∃ hp1,
    evict_all hp (elements (dom (txs (pool hp)) ∖ all_hashes)) = (hp1, None)
    ∧ ∀ h, txs (pool hp1) !! h
           = if decide (h ∈ all_hashes) then txs (pool hp) !! h else None.
Proof.
  intros Hok.
  destruct (evict_all_succeeds hp
              (elements (dom (txs (pool hp)) ∖ all_hashes))) as [hp1 Hevict].
  { done. }
  { apply NoDup_elements. }
  { intros h Hh. apply elem_of_elements, elem_of_difference in Hh as [Hh _].
    by apply elem_of_dom in Hh. }
  exists hp1. split; [done|]. intros h.
  rewrite (evict_all_txs _ _ _ h Hevict).
  destruct (decide (h ∈ all_hashes)) as [Hin|Hnot].
  - rewrite decide_False; [done|].
    intros [_ ?]%elem_of_elements%elem_of_difference. done.
  - destruct (txs (pool hp) !! h) as [tx|] eqn:Htx; [|by destruct (decide _)].
    rewrite decide_True; [done|].
    apply elem_of_elements, elem_of_difference. split; [|done].
    by apply elem_of_dom.
Qed.
End EvictFacts.

(** ** Which exceptions a run can raise *)

Section Raises.
Variable lib : Lib.
Implicit Types (hp : heap) (tx_map : list (tx_hash * MemPoolTx)).
Implicit Types (utxo_map : gmap prevout io_pair).

Lemma fetch_and_accept_raises_which api hp hashes all_hashes hp' e :
  _fetch_and_accept lib api hp hashes all_hashes = (hp', Raised e) →
  e = TypeError ∨ e = IndexError.
Proof.
  unfold _fetch_and_accept.
  destruct (deserialize_txs lib hashes _) as [[tx_map creates] reissues].
  unfold resolve_prevouts.
  destruct (utxo_tuples _) as [from_utxos|e1] eqn:Hu.
  - destruct (asset_tuples _) as [from_assets|e2] eqn:Ha.
    + intros Hpass. right. by eapply accept_transactions_raises.
    + intros [= <- <-]. left. by eapply asset_tuples_raises.
    - intros [= <- <-]. left. by eapply utxo_tuples_raises.
Qed.

Lemma fetch_batches_raises_which api all_hashes batches hp tx_map utxo_map
    hp' e :
  fetch_batches lib api all_hashes hp tx_map utxo_map batches
    = (hp', Raised e) →
  e = TypeError ∨ e = IndexError.
Proof.
  revert hp tx_map utxo_map.
  induction batches as [|hashes batches IH]; intros hp tx_map utxo_map;
    simpl; [done|].
  destruct (_fetch_and_accept lib api hp hashes all_hashes)
    as [hp1 [[dfr uns]|e1]] eqn:Hfetch.
  - apply IH.
  - intros [= <- <-]. by eapply fetch_and_accept_raises_which.
Qed.

Lemma accept_until_stable_raises_which n hp tx_map utxo_map prior_count
    hp' e :
  accept_until_stable n hp tx_map utxo_map prior_count = (hp', Raised e) →
  e = IndexError.
Proof.
  revert hp tx_map utxo_map prior_count.
  induction n as [|n IH]; intros hp tx_map utxo_map prior_count; simpl;
    [done|].
  destruct (bool_decide (tx_map ≠ []) && _); [|done].
  destruct (_accept_transactions hp tx_map utxo_map)
    as [hp1 [[tx_map1 utxo_map1]|e1]] eqn:Hpass.
  - apply IH.
  - intros [= <- <-]. by eapply accept_transactions_raises.
Qed.
End Raises.

(** The mempool a run leaves is one the reconciler can reach. *)
Lemma reachable_after_run lib api hp all_hashes mempool_height hp' dropped :
  reachable lib (pool hp) →
  _process_mempool lib api hp all_hashes mempool_height
    = (hp', Returned dropped) →
  reachable lib (pool hp').
Proof. destruct hp as [m t s]. simpl. intros Hm Hrun. by eapply reachable_run. Qed.

(** X1.  On a mempool the reconciler can reach, the eviction loop of
    [_process_mempool] (lines 337-354) completes whatever set of hashes the
    daemon reports: [txs.pop] finds every hash it is given, [tx.in_pairs]
    is never [None], and [hashXs[hashX].remove(tx_hash)] finds the hash
    under every script hash of the transaction.  It leaves in [txs] exactly
    the records of the reported hashes, unchanged. *)
Theorem eviction_completes_on_a_reachable_mempool
    (lib : Lib) (m : MemPool) (touched : gset hashX) (assets : gset string)
    (all_hashes : gset tx_hash) :
  reachable lib m →
  ∃ hp1,
    evict_all (mkHeap m touched assets) (elements (dom (txs m) ∖ all_hashes))
      = (hp1, None)
    ∧ ∀ h, txs (pool hp1) !! h
           = if decide (h ∈ all_hashes) then txs m !! h else None.
Proof.
  intros Hm.
  apply (evict_vanished (mkHeap m touched assets) all_hashes).
  by apply (reachable_index_ok lib).
Qed.

(** X2.  A run of [_process_mempool] on a mempool the reconciler can reach
    raises no [KeyError]: it raises [DBSyncError] when the heights differ,
    and otherwise only while it ingests hashes that are new to it, a
    [TypeError] when a lookup of the DB answers [None] for a prevout (lines
    546-550) or an [IndexError] when a prevout names an output position that
    an accepted transaction does not have (line 268). *)
Theorem run_on_a_reachable_mempool_raises_no_KeyError
    (lib : Lib) (api : MemPoolAPI) (m : MemPool) (touched : gset hashX)
    (assets : gset string) (all_hashes : gset tx_hash) (mempool_height : Z)
    (hp' : heap) (e : exn) :
  reachable lib m →
  _process_mempool lib api (mkHeap m touched assets) all_hashes mempool_height
    = (hp', Raised e) →
  (e = DBSyncError ∧ mempool_height ≠ db_height api)
  ∨ ((e = TypeError ∨ e = IndexError)
     ∧ mempool_height = db_height api
     ∧ ∃ h, h ∈ all_hashes ∧ txs m !! h = None).
Proof.
  intros Hm. unfold _process_mempool.
  destruct (decide (mempool_height ≠ db_height api)) as [Hne|Heq];
    [intros [= <- <-]; by left|].
  assert (Hheight : mempool_height = db_height api)
    by (by destruct (decide (mempool_height = db_height api))).
  destruct (evict_vanished (mkHeap m touched assets) all_hashes)
    as (hp1 & Hevict & Htxs); [by apply (reachable_index_ok lib)|].
  cbn [pool] in Hevict, Htxs.
  cbn [pool]. rewrite Hevict.
  destruct (elements (all_hashes ∖ dom (txs (pool hp1))))
    as [|h0 new_hashes] eqn:Hnew; [done|].
  assert (Hh0 : h0 ∈ all_hashes ∧ txs m !! h0 = None).
  { assert (Hin : h0 ∈ elements (all_hashes ∖ dom (txs (pool hp1))))
      by (rewrite Hnew; by left).
    apply elem_of_elements, elem_of_difference in Hin as [Hin Hd].
    split; [done|]. apply not_elem_of_dom in Hd.
    by rewrite Htxs, decide_True in Hd. }
  intros Hrun. right.
  split; [|split; [done|by exists h0]].
  destruct (fetch_batches lib api all_hashes hp1 [] ∅ _)
    as [hp2 [[tx_map utxo_map]|e1]] eqn:Hfetch.
  - right. exact (accept_until_stable_raises_which _ _ _ _ _ _ _ Hrun).
  - injection Hrun as <- <-. by eapply fetch_batches_raises_which.
Qed.

(** ** Invariants of the mempools the reconciler can reach *)

Section ReachableInvariant.
Variable lib : Lib.
Variable I : MemPool → Prop.
Hypothesis I_init : I MemPool_init.
Hypothesis I_evict : ∀ hp h hp',
  evict_one hp h = (hp', None) → I (pool hp) → I (pool hp').
Hypothesis I_register : ∀ m hashes raw_txs tx_map creates reissues,
  deserialize_txs lib hashes raw_txs = (tx_map, creates, reissues) →
  I m → I (register_all m creates reissues).
Hypothesis I_commit : ∀ a h tx ins utxo_map,
  find_in_pairs (txs (self a)) utxo_map (prevouts tx) = Returned ins →
  I (self a) → I (self (commit a h tx ins)).

Lemma evict_all_invariant hp gone hp' :
  evict_all hp gone = (hp', None) → I (pool hp) → I (pool hp').
Proof.
  revert hp. induction gone as [|h gone IH]; intros hp; simpl.
  - by intros [= <-].
  - destruct (evict_one hp h) as [hp1 [e|]] eqn:Hone; [done|].
    intros Hrest HI. apply (IH _ Hrest). by eapply I_evict.
Qed.

Lemma process_mempool_invariant api hp all_hashes mempool_height hp' dropped :
  I (pool hp) →
  _process_mempool lib api hp all_hashes mempool_height
    = (hp', Returned dropped) →
  I (pool hp').
Proof.
  intros HI Hrun.
  destruct (process_mempool_returned lib _ _ _ _ _ _ Hrun)
    as (Hheight & hp1 & Hevict).
  refine (process_mempool_keeps lib (λ hp, I (pool hp)) (λ _, True) _ _
            api hp all_hashes mempool_height hp1 hp' _ Hheight Hevict _ _ Hrun).
  - intros hp0 hashes raw_txs tx_map creates reissues _ Hdigest.
    simpl. by apply I_register with hashes raw_txs tx_map.
  - intros a h tx ins utxo_map _ Hfind. unfold heap_of. simpl.
    by apply I_commit with utxo_map.
  - done.
  - by eapply evict_all_invariant.
Qed.

Lemma reachable_invariant m : reachable lib m → I m.
Proof.
  induction 1 as [|api m touched assets all_hashes height hp' dropped _ IH Hrun];
    [done|].
  exact (process_mempool_invariant api (mkHeap m touched assets) _ _ _ _
           IH Hrun).
Qed.
End ReachableInvariant.

Lemma find_in_pairs_length txs utxo_map pos ins :
  find_in_pairs txs utxo_map pos = Returned ins → length ins = length pos.
Proof.
  revert ins. induction pos as [|po pos IH]; intros ins; simpl.
  - by intros [= <-].
  - destruct (find_utxo txs utxo_map po); [|done].
    destruct (find_in_pairs txs utxo_map pos); [|done].
    intros [= <-]. simpl. f_equal. by apply IH.
Qed.

(** X3.  A run of [_process_mempool] that returns leaves in [txs] only
    hashes the daemon reported in [all_hashes], and of the records [txs]
    held before the run exactly those whose hash is reported, each as it
    was: a transaction still in the daemon's mempool is not fetched or
    accepted again, one that left it is evicted. *)
Theorem run_keeps_exactly_the_reported_transactions
    (lib : Lib) (api : MemPoolAPI) (hp : heap) (all_hashes : gset tx_hash)
    (mempool_height : Z) (hp' : heap) (dropped : list (tx_hash * MemPoolTx)) :
  _process_mempool lib api hp all_hashes mempool_height
    = (hp', Returned dropped) →
  (∀ h, is_Some (txs (pool hp') !! h) → h ∈ all_hashes)
  ∧ (∀ h tx, txs (pool hp) !! h = Some tx →
       txs (pool hp') !! h
       = if decide (h ∈ all_hashes) then Some tx else None).
Proof.
  intros Hrun.
  destruct (process_mempool_returned lib _ _ _ _ _ _ Hrun)
    as (Hheight & hp1 & Hevict).
  assert (Htxs1 : ∀ h, txs (pool hp1) !! h
                       = if decide (h ∈ all_hashes) then txs (pool hp) !! h
                         else None).
  { intros h. rewrite (evict_all_txs _ _ _ h Hevict).
    destruct (decide (h ∈ all_hashes)) as [Hin|Hnot].
    - rewrite decide_False; [done|].
      intros [_ ?]%elem_of_elements%elem_of_difference. done.
    - destruct (txs (pool hp) !! h) as [tx|] eqn:Htx; [|by destruct (decide _)].
      rewrite decide_True; [done|].
      apply elem_of_elements, elem_of_difference. split; [|done].
      by apply elem_of_dom. }
  assert (HP : (∀ h, is_Some (txs (pool hp') !! h) → h ∈ all_hashes)
               ∧ ∀ h, is_Some (txs (pool hp1) !! h) →
                      txs (pool hp') !! h = txs (pool hp1) !! h).
  { refine (process_mempool_keeps lib
              (λ hp2, (∀ h, is_Some (txs (pool hp2) !! h) → h ∈ all_hashes)
                      ∧ ∀ h, is_Some (txs (pool hp1) !! h) →
                             txs (pool hp2) !! h = txs (pool hp1) !! h)
              (λ h, h ∈ all_hashes ∧ txs (pool hp1) !! h = None) _ _
              api hp all_hashes mempool_height hp1 hp' _ Hheight Hevict _ _
              Hrun).
    - intros hp0 hashes raw_txs tx_map creates reissues _ _. simpl.
      by destruct (register_all_txs (pool hp0) creates reissues) as [-> _].
    - intros a h tx ins utxo_map [Hin Hnew] _ [Hsub Hsame].
      unfold heap_of in *. simpl in *. split.
      + intros h'. destruct (decide (h' = h)) as [->|Hne]; [done|].
        rewrite commit_txs_other by done. apply Hsub.
      + intros h' Hh'. rewrite commit_txs_other; [by apply Hsame|].
        intros ->. rewrite Hnew in Hh'. by destruct Hh'.
    - done.
    - split; [|done]. intros h. rewrite Htxs1.
      destruct (decide (h ∈ all_hashes)); [done|]. by intros []. }
  destruct HP as [Hsub Hsame]. split; [done|].
  intros h tx Htx. destruct (decide (h ∈ all_hashes)) as [Hin|Hnot].
  - rewrite Hsame; rewrite Htxs1, decide_True by done; by rewrite Htx.
  - destruct (txs (pool hp') !! h) as [tx'|] eqn:Htx'; [|done].
    destruct Hnot. apply Hsub. by rewrite Htx'.
Qed.

(** X4.  Every record of a mempool the reconciler can reach is an accepted
    one: its [in_pairs] are set, one for each of its prevouts, and its fee
    is the clamp at zero of the native value of its in_pairs minus that of
    its out_pairs, hence not negative.  (Eviction, registration of asset
    metadata and later acceptances leave the records of [txs] alone.) *)
Theorem records_of_a_reachable_mempool_are_accepted
    (lib : Lib) (m : MemPool) (h : tx_hash) (tx : MemPoolTx) :
  reachable lib m →
  txs m !! h = Some tx →
  ∃ ins,
    in_pairs tx = Some ins
    ∧ length ins = length (prevouts tx)
    ∧ fee tx = Z.max 0 (native_sum ins - native_sum (out_pairs tx))
    ∧ 0 ≤ fee tx.
Proof.
  intros Hm. revert h tx.
  apply (reachable_invariant lib
           (λ m, ∀ h tx, txs m !! h = Some tx →
              ∃ ins, in_pairs tx = Some ins
                ∧ length ins = length (prevouts tx)
                ∧ fee tx = Z.max 0 (native_sum ins - native_sum (out_pairs tx))
                ∧ 0 ≤ fee tx)); [| | | |done].
  - intros h tx Htx. simpl in Htx. by rewrite lookup_empty in Htx.
  - intros hp h hp' Hone HI h' tx'.
    destruct (evict_one_returned _ _ _ Hone)
      as (tx & ins & hx' & _ & _ & _ & -> & _). simpl.
    intros [_ Htx']%lookup_delete_Some. by apply HI with h'.
  - intros m0 hashes raw_txs tx_map creates reissues _ HI.
    by destruct (register_all_txs m0 creates reissues) as [-> _].
  - intros a h tx ins utxo_map Hfind HI h' tx'.
    destruct (decide (h' = h)) as [->|Hne].
    + destruct (commit_self a h tx ins) as (t' & hx' & _ & ->). simpl.
      rewrite lookup_insert_eq. intros [= <-]. simpl.
      exists ins. split_and!; [done| |done|lia].
      by eapply find_in_pairs_length.
    + rewrite commit_txs_other by done. by apply HI.
Qed.

(** ** What the accumulators record *)

(** Between [hp0] and [hp] the accumulators have only grown, and every
    script hash whose entry in [hashXs] differs is in [touched]. *)
Definition covers (hp0 hp : heap) : Prop :=
  h_touched hp0 ⊆ h_touched hp
  ∧ h_assets_touched hp0 ⊆ h_assets_touched hp
  ∧ ∀ sh, hashXs (pool hp) !! sh ≠ hashXs (pool hp0) !! sh →
          sh ∈ h_touched hp.

Section Covers.
Implicit Types (hp : heap) (h : tx_hash).

Lemma covers_refl hp : covers hp hp.
Proof. by split_and!. Qed.

Lemma covers_trans hp0 hp1 hp2 :
  covers hp0 hp1 → covers hp1 hp2 → covers hp0 hp2.
Proof.
  intros (Ht1 & Ha1 & Hx1) (Ht2 & Ha2 & Hx2). split_and!.
  - set_solver.
  - set_solver.
  - intros sh Hne.
    destruct (decide (hashXs (pool hp2) !! sh = hashXs (pool hp1) !! sh))
      as [Heq|Hne2]; [|by apply Hx2].
    apply Ht2, Hx1. by rewrite <- Heq.
Qed.

(** Lines 285-287: what the loop leaves in [touched] and in [hashXs]. *)
Lemma foldl_touch_others h pairs (t0 : gset hashX)
    (m : gmap hashX (gset tx_hash)) t' m' :
  foldl (touch h) (t0, m) pairs = (t', m') →
  t' = t0 ∪ list_to_set (pair_hashX <$> pairs)
  ∧ ∀ sh, sh ∉ pair_hashX <$> pairs → m' !! sh = m !! sh.
Proof.
  revert t0 m. induction pairs as [|p pairs IH]; intros t0 m; simpl.
  - intros [= <- <-]. split; [set_solver|done].
  - unfold touch at 2. simpl. intros Hfold.
    destruct (IH _ _ Hfold) as [-> Hother]. split; [set_solver|].
    intros sh [Hne Hnot]%not_elem_of_cons.
    by rewrite (Hother sh Hnot), lookup_insert_ne.
Qed.

Lemma commit_covers (a : accepting) h tx ins :
  covers (heap_of a) (heap_of (commit a h tx ins)).
Proof.
  destruct (commit_self a h tx ins) as (t' & hx' & Hfold & ->).
  destruct (foldl_touch_others _ _ _ _ _ _ Hfold) as [-> Hother].
  unfold heap_of. split_and!; simpl.
  - set_solver.
  - set_solver.
  - intros sh Hne. apply elem_of_union. right. apply elem_of_list_to_set.
    destruct (decide (sh ∈ pair_hashX <$> ins ++ out_pairs tx)); [done|].
    destruct Hne. by apply Hother.
Qed.

Lemma evict_one_covers hp h hp' :
  evict_one hp h = (hp', None) → covers hp hp'.
Proof.
  intros Hone.
  destruct (evict_one_returned _ _ _ Hone)
    as (tx & ins & hx' & _ & _ & Hfold & Hpool & Ht & Ha).
  split_and!.
  - rewrite Ht. set_solver.
  - by rewrite Ha.
  - intros sh Hne. rewrite Ht. apply elem_of_union. right.
    destruct (decide (sh ∈ elements (evicted_hashXs ins tx))) as [Hin|Hnot];
      [by apply elem_of_elements in Hin|].
    destruct Hne. rewrite Hpool. simpl.
    by apply (foldl_unindex_other _ _ _ _ _ _ Hfold).
Qed.

Lemma evict_all_covers hp gone hp' :
  evict_all hp gone = (hp', None) → covers hp hp'.
Proof.
  revert hp. induction gone as [|h gone IH]; intros hp; simpl.
  - intros [= <-]. apply covers_refl.
  - destruct (evict_one hp h) as [hp1 [e|]] eqn:Hone; [done|].
    intros Hrest. eapply covers_trans; [by eapply evict_one_covers|].
    by apply IH.
Qed.

(** Eviction leaves [assets_touched] alone, also when it raises. *)
Lemma evict_one_assets_touched hp h hp' o :
  evict_one hp h = (hp', o) → h_assets_touched hp' = h_assets_touched hp.
Proof.
  unfold evict_one. destruct (txs (pool hp) !! h) as [tx|];
    [|by intros [= <- <-]].
  destruct (in_pairs tx) as [ins|]; [|by intros [= <- <-]].
  simpl. destruct (foldl (unindex h) _ _) as [hx' [e|]];
    by intros [= <- <-].
Qed.

Lemma evict_all_assets_touched hp gone hp' o :
  evict_all hp gone = (hp', o) → h_assets_touched hp' = h_assets_touched hp.
Proof.
  revert hp. induction gone as [|h gone IH]; intros hp; simpl.
  - by intros [= <- <-].
  - destruct (evict_one hp h) as [hp1 [e|]] eqn:Hone.
    + intros [= <- <-]. by eapply evict_one_assets_touched.
    + intros Hrest. rewrite (IH _ Hrest). by eapply evict_one_assets_touched.
Qed.
End Covers.

(** X5.  When a run of [_process_mempool] returns, the accumulators
    [touched] and [assets_touched] hold whatever they held before, and
    [touched] holds every script hash whose entry in [hashXs] is not what
    it was before the run: no change of the set of transactions touching a
    script hash goes unreported to [on_mempool]. *)
Theorem touched_holds_every_changed_script_hash
    (lib : Lib) (api : MemPoolAPI) (hp : heap) (all_hashes : gset tx_hash)
    (mempool_height : Z) (hp' : heap) (dropped : list (tx_hash * MemPoolTx)) :
  _process_mempool lib api hp all_hashes mempool_height
    = (hp', Returned dropped) →
  h_touched hp ⊆ h_touched hp'
  ∧ h_assets_touched hp ⊆ h_assets_touched hp'
  ∧ ∀ sh, hashXs (pool hp') !! sh ≠ hashXs (pool hp) !! sh →
          sh ∈ h_touched hp'.
Proof.
  intros Hrun.
  destruct (process_mempool_returned lib _ _ _ _ _ _ Hrun)
    as (Hheight & hp1 & Hevict).
  refine (process_mempool_keeps lib (covers hp) (λ _, True) _ _
            api hp all_hashes mempool_height hp1 hp' _ Hheight Hevict _ _ Hrun).
  - intros hp0 hashes raw_txs tx_map creates reissues _ _ (Ht & Ha & Hx).
    split_and!; [done..|]. simpl.
    by destruct (register_all_txs (pool hp0) creates reissues) as [_ ->].
  - intros a h tx ins utxo_map _ _ Hcov.
    eapply covers_trans; [exact Hcov|apply commit_covers].
  - done.
  - by eapply evict_all_covers.
Qed.

(** X6.  A run in which the daemon reports no hash that is new to the
    mempool leaves [assets_touched] as it was, whatever it evicts: the
    eviction loop pops the asset entries of a vanished transaction (lines
    340-346) but adds a script hash to [touched] only (line 354), never an
    asset name to [assets_touched]. *)
Theorem eviction_adds_nothing_to_assets_touched
    (lib : Lib) (api : MemPoolAPI) (hp : heap) (all_hashes : gset tx_hash)
    (mempool_height : Z) (hp' : heap)
    (out : result (list (tx_hash * MemPoolTx))) :
  all_hashes ⊆ dom (txs (pool hp)) →
  _process_mempool lib api hp all_hashes mempool_height = (hp', out) →
  h_assets_touched hp' = h_assets_touched hp.
Proof.
  intros Hsub. unfold _process_mempool.
  destruct (decide (mempool_height ≠ db_height api)); [by intros [= <- <-]|].
  destruct (evict_all hp _) as [hp1 [e|]] eqn:Hevict.
  { intros [= <- <-]. by eapply evict_all_assets_touched. }
  destruct (elements (all_hashes ∖ dom (txs (pool hp1))))
    as [|h0 new_hashes] eqn:Hnew.
  { intros [= <- <-]. by eapply evict_all_assets_touched. }
  exfalso.
  assert (Hin : h0 ∈ elements (all_hashes ∖ dom (txs (pool hp1))))
    by (rewrite Hnew; by left).
  apply elem_of_elements, elem_of_difference in Hin as [Hin Hd].
  apply not_elem_of_dom in Hd.
  rewrite (evict_all_txs _ _ _ h0 Hevict) in Hd.
  rewrite decide_False in Hd.
  - apply Hsub, elem_of_dom in Hin as [tx Htx]. by rewrite Htx in Hd.
  - intros [_ ?]%elem_of_elements%elem_of_difference. done.
Qed.

(** ** The unspent part of [utxo_map] (lines 258, 275 and 294) *)

Section Unspent.
Implicit Types (a : accepting) (utxo_map : gmap prevout io_pair).
Implicit Types (items : list (tx_hash * MemPoolTx)).

Lemma commit_unspent a h tx ins po :
  po ∈ unspent (commit a h tx ins) ↔ po ∈ unspent a ∧ po ∉ prevouts tx.
Proof.
  destruct (commit_self a h tx ins) as (t' & hx' & _ & ->). simpl.
  rewrite elem_of_difference, elem_of_list_to_set. done.
Qed.

Lemma commit_txs_self a h tx ins : is_Some (txs (self (commit a h tx ins)) !! h).
Proof. destruct (commit_fee_rule a h tx ins) as (tx' & -> & _). by eexists. Qed.

(** A pass only adds keys to [txs] and only takes prevouts away from
    [unspent]; a prevout it takes away is one of a transaction it has put
    into [txs], and a transaction it has not deferred has no prevout
    left in [unspent]. *)
Lemma accept_all_unspent utxo_map items a a' o po :
  accept_all utxo_map a items = (a', o) →
  (∀ h, is_Some (txs (self a) !! h) → is_Some (txs (self a') !! h))
  ∧ (po ∈ unspent a' → po ∈ unspent a)
  ∧ (po ∈ unspent a → po ∉ unspent a' →
     ∃ h tx, (h, tx) ∈ items ∧ po ∈ prevouts tx
             ∧ is_Some (txs (self a') !! h))
  ∧ (o = None → ∀ h tx, (h, tx) ∈ items → h ∉ (deferred a').*1 →
     po ∈ prevouts tx → po ∉ unspent a').
Proof.
  revert a. induction items as [|[k tx] items IH]; intros a; simpl.
  - intros [= <- <-]. split_and!; [done|done|done|].
    intros _ h tx Hin. by apply elem_of_nil in Hin.
  - destruct (accept_one utxo_map a (k, tx)) as [a1 [e|]] eqn:Hone.
    + intros [= <- <-].
      apply accept_one_cases in Hone as [(? & _)|[(? & _)|(_ & ->)]];
        try done.
    + intros Hrest. destruct (IH _ Hrest) as (Hkeys & Hsub & Hgone & Hspent).
      apply accept_one_cases in Hone
        as [(_ & -> & _)|[(_ & ins & -> & _)|(? & _)]]; [| |done].
      * split_and!; [done|done| |].
        -- intros Hin Hnot. destruct (Hgone Hin Hnot) as (h & tx' & ? & ? & ?).
           exists h, tx'. split_and!; [by right|done|done].
        -- intros Ho h tx' [[= -> ->]|Hin]%elem_of_cons Hdef Hpo;
             [|by eapply Hspent].
           destruct Hdef.
           eapply accept_all_deferred_grows; [exact Hrest|].
           simpl. apply dict_set_keys. by left.
      * split_and!.
        -- intros h Hh. apply Hkeys.
           destruct (decide (h = k)) as [->|Hne];
             [apply commit_txs_self|by rewrite commit_txs_other].
        -- intros Hin. by apply Hsub, commit_unspent in Hin as [? _].
        -- intros Hin Hnot.
           destruct (decide (po ∈ prevouts tx)) as [Hpo|Hpo].
           ++ exists k, tx. split_and!; [by left|done|].
              apply Hkeys, commit_txs_self.
           ++ destruct Hgone as (h & tx' & ? & ? & ?); [|done|].
              { by apply commit_unspent. }
              exists h, tx'. split_and!; [by right|done|done].
        -- intros Ho h tx' [[= -> ->]|Hin]%elem_of_cons Hdef Hpo;
             [|by eapply Hspent].
           intros Hun. by apply Hsub, commit_unspent in Hun as [_ ?].
Qed.
End Unspent.

(** X7.  The second component of what [_accept_transactions] returns is
    [utxo_map] without the prevouts the pass has spent: each of its entries
    is an entry of [utxo_map]; an entry of [utxo_map] that is missing is a
    prevout of a transaction of [tx_map] that is now in [txs]; and no
    prevout of a transaction that was not handed back as deferred is
    left. *)
Theorem returned_utxo_map_is_what_the_pass_has_not_spent
    (hp : heap) (tx_map : list (tx_hash * MemPoolTx))
    (utxo_map : gmap prevout io_pair) (hp' : heap)
    (handed_back : list (tx_hash * MemPoolTx))
    (left_over : gmap prevout io_pair) :
  _accept_transactions hp tx_map utxo_map
    = (hp', Returned (handed_back, left_over)) →
  (∀ po utxo, left_over !! po = Some utxo → utxo_map !! po = Some utxo)
  ∧ (∀ po utxo, utxo_map !! po = Some utxo →
       left_over !! po = Some utxo
       ∨ ∃ h tx, (h, tx) ∈ tx_map ∧ po ∈ prevouts tx
                 ∧ is_Some (txs (pool hp') !! h))
  ∧ (∀ h tx po, (h, tx) ∈ tx_map → h ∉ handed_back.*1 → po ∈ prevouts tx →
       left_over !! po = None).
Proof.
  destruct (accept_transactions_unfold hp tx_map utxo_map)
    as (a & o & Hall & ->).
  destruct o as [e|]; [done|]. intros [= <- <- <-].
  split_and!.
  - intros po utxo Hpo. by apply map_lookup_filter_Some in Hpo as [? _].
  - intros po utxo Hpo.
    destruct (accept_all_unspent _ _ _ _ _ po Hall) as (_ & _ & Hgone & _).
    destruct (decide (po ∈ unspent a)) as [Hin|Hnot].
    + left. by apply map_lookup_filter_Some.
    + right. apply Hgone; [|done]. simpl. by apply elem_of_dom.
  - intros h tx po Hin Hdef Hpo.
    destruct (accept_all_unspent _ _ _ _ _ po Hall) as (_ & _ & _ & Hspent).
    apply map_lookup_filter_None. right. intros utxo _. simpl.
    by eapply Hspent.
Qed.

(** ** A refresh that finds nothing new *)

(** X8.  When the heights agree and the daemon reports exactly the hashes
    that are the keys of [txs], one turn of [_refresh_hashes] leaves the
    mempool as it is: nothing is evicted, fetched or accepted, the
    accumulators are published as they were and start the next turn
    empty. *)
Theorem refresh_with_the_same_hashes_changes_nothing
    (lib : Lib) (api : MemPoolAPI) (hp : heap) :
  cached_height api = api_height api →
  cached_height api = db_height api →
  mempool_hashes api = dom (txs (pool hp)) →
  refresh_turn lib api hp
  = (mkHeap (pool hp) ∅ ∅,
     Published (h_touched hp) (cached_height api) (h_assets_touched hp)).
Proof.
  intros Hheight Hdb Hsame. unfold refresh_turn, _process_mempool.
  rewrite decide_False by (by intros ?).
  rewrite decide_False by (by intros ?).
  rewrite Hsame, difference_diag_L, elements_empty. simpl.
  by rewrite difference_diag_L, elements_empty.
Qed.

(** ** The asset indices *)

(** Every entry of a forward index ([asset_creates], [asset_reissues]) is
    listed in its reverse index under the hash of its source. *)
Definition listed_under_source (fwd : gmap string AssetIssuance)
    (rev : gmap tx_hash (gset string)) : Prop :=
  ∀ name stats, fwd !! name = Some stats →
    ∃ names, rev !! source_tx_hash (source stats) = Some names ∧ name ∈ names.

Section AssetFacts.
Implicit Types (fwd : gmap string AssetIssuance).
Implicit Types (rev : gmap tx_hash (gset string)).

Lemma register_listed idx item :
  listed_under_source idx.1 idx.2 →
  listed_under_source (register idx item).1 (register idx item).2.
Proof.
  destruct item as [asset stats]. unfold register. simpl.
  intros Hl name st. destruct (decide (name = asset)) as [->|Hne].
  - rewrite lookup_insert_eq. intros [= <-]. rewrite lookup_insert_eq.
    eexists. split; [done|]. set_solver.
  - rewrite lookup_insert_ne by done. intros Hst.
    destruct (Hl _ _ Hst) as (names & Hn & Hin).
    destruct (decide (source_tx_hash (source st)
                      = source_tx_hash (source stats))) as [Heq|Hne'].
    + rewrite Heq, lookup_insert_eq. eexists. split; [done|].
      rewrite <- Heq, Hn. set_solver.
    + rewrite lookup_insert_ne by done. eauto.
Qed.

Lemma foldl_register_listed items idx :
  listed_under_source idx.1 idx.2 →
  listed_under_source (foldl register idx items).1
    (foldl register idx items).2.
Proof.
  revert idx. induction items as [|item items IH]; intros idx Hl; simpl;
    [done|].
  by apply IH, register_listed.
Qed.

(** Lines 340-346: the names listed under the evicted hash are popped. *)
Lemma pop_all_listed fwd rev h :
  listed_under_source fwd rev →
  listed_under_source (pop_all (default ∅ (rev !! h)) fwd) (delete h rev)
  ∧ ∀ name stats,
      pop_all (default ∅ (rev !! h)) fwd !! name = Some stats →
      source_tx_hash (source stats) ≠ h.
Proof.
  intros Hl.
  assert (Hkey : ∀ name st,
            pop_all (default ∅ (rev !! h)) fwd !! name = Some st →
            fwd !! name = Some st ∧ source_tx_hash (source st) ≠ h).
  { intros name st Hst. unfold pop_all in Hst.
    apply map_lookup_filter_Some in Hst as [Hf Hnot]. simpl in Hnot.
    split; [done|]. intros Heq. destruct (Hl _ _ Hf) as (names & Hn & Hin).
    rewrite Heq in Hn. by rewrite Hn in Hnot. }
  split.
  - intros name st Hst. destruct (Hkey _ _ Hst) as [Hf Hne].
    destruct (Hl _ _ Hf) as (names & Hn & Hin). exists names.
    by rewrite lookup_delete_ne.
  - intros name st Hst. by destruct (Hkey _ _ Hst).
Qed.
End AssetFacts.

(** Both forward indices are listed in their reverse indices. *)
Definition assets_listed (m : MemPool) : Prop :=
  listed_under_source (asset_creates m) (tx_to_asset_create m)
  ∧ listed_under_source (asset_reissues m) (tx_to_asset_reissue m).

Lemma reachable_assets_listed lib m : reachable lib m → assets_listed m.
Proof.
  apply (reachable_invariant lib assets_listed).
  - split; intros name st Hst; simpl in Hst; by rewrite lookup_empty in Hst.
  - intros hp h hp' Hone [Hc Hr].
    destruct (evict_one_returned _ _ _ Hone)
      as (tx & ins & hx' & _ & _ & _ & Hpool & _).
    unfold assets_listed. rewrite Hpool. simpl.
    split; by apply pop_all_listed.
  - intros m0 hashes raw_txs tx_map creates reissues _ [Hc Hr].
    unfold assets_listed, register_all.
    pose proof (foldl_register_listed creates
                  (asset_creates m0, tx_to_asset_create m0) Hc) as Hc'.
    pose proof (foldl_register_listed reissues
                  (asset_reissues m0, tx_to_asset_reissue m0) Hr) as Hr'.
    destruct (foldl register (asset_creates m0, _) creates).
    destruct (foldl register (asset_reissues m0, _) reissues).
    by split.
  - intros a h tx ins utxo_map _ HI. unfold assets_listed.
    by destruct (commit_self a h tx ins) as (t' & hx' & _ & ->).
Qed.

(** X9.  In every mempool the reconciler can reach, an asset recorded in
    [asset_creates] is listed in [tx_to_asset_create] under the hash of the
    transaction named as its source, and likewise an asset of
    [asset_reissues] in [tx_to_asset_reissue]: the reverse indices that
    eviction consults (lines 340-346) miss no entry of the forward ones. *)
Theorem asset_entries_are_listed_under_their_source
    (lib : Lib) (m : MemPool) :
  reachable lib m →
  (∀ name stats, asset_creates m !! name = Some stats →
     ∃ names, tx_to_asset_create m !! source_tx_hash (source stats)
              = Some names ∧ name ∈ names)
  ∧ (∀ name stats, asset_reissues m !! name = Some stats →
       ∃ names, tx_to_asset_reissue m !! source_tx_hash (source stats)
                = Some names ∧ name ∈ names).
Proof. intros Hm. exact (reachable_assets_listed lib m Hm). Qed.

(** ** Accepting a transaction and evicting it again *)

(** Two indices without empty sets that list the same hashes under the same
    script hashes are the same map. *)
Lemma indexed_ext (m1 m2 : gmap hashX (gset tx_hash)) :
  (∀ sh s, m1 !! sh = Some s → s ≠ ∅) →
  (∀ sh s, m2 !! sh = Some s → s ≠ ∅) →
  (∀ sh h, indexed m1 sh h ↔ indexed m2 sh h) →
  m1 = m2.
Proof.
  intros Hne1 Hne2 Hidx. apply map_eq. intros sh.
  destruct (m1 !! sh) as [s1|] eqn:E1, (m2 !! sh) as [s2|] eqn:E2.
  - f_equal. apply set_eq. intros h. specialize (Hidx sh h).
    unfold indexed in Hidx. rewrite E1, E2 in Hidx. naive_solver.
  - exfalso. destruct (set_choose_L s1 (Hne1 _ _ E1)) as [h Hh].
    assert (Hi : indexed m1 sh h) by (by exists s1).
    apply Hidx in Hi as (s & Hs & _). congruence.
  - exfalso. destruct (set_choose_L s2 (Hne2 _ _ E2)) as [h Hh].
    assert (Hi : indexed m2 sh h) by (by exists s2).
    apply Hidx in Hi as (s & Hs & _). congruence.
  - done.
Qed.

(** X10.  Accepting a transaction under a hash that is not a key of [txs]
    (lines 274-287) and then evicting it (lines 338-353) gives back [txs]
    and [hashXs] as they were, when [hashXs] mirrored [txs] before: the
    eviction completes, every hash added to a set of [hashXs] is removed
    from it, and a set that was created for the transaction is deleted
    again.  When the hash is a key of neither reverse asset index, the
    whole mempool is as it was. *)
Theorem evicting_an_accepted_transaction_restores_the_index
    (a : accepting) (h : tx_hash) (tx : MemPoolTx) (ins : list io_pair) :
  index_ok (self a) →
  txs (self a) !! h = None →
  ∃ hp',
    evict_one (heap_of (commit a h tx ins)) h = (hp', None)
    ∧ txs (pool hp') = txs (self a)
    ∧ hashXs (pool hp') = hashXs (self a)
    ∧ (tx_to_asset_create (self a) !! h = None →
       tx_to_asset_reissue (self a) !! h = None →
       pool hp' = self a).
Proof.
  intros Hok Hfresh.
  pose proof (commit_index_ok a h tx ins Hfresh Hok) as Hok'.
  destruct (commit_fee_rule a h tx ins) as (tx' & Htx' & _ & _ & _ & Hout & Hin).
  destruct (evict_one_succeeds (heap_of (commit a h tx ins)) h) as [hp' Hone].
  { done. }
  { unfold heap_of. simpl. by rewrite Htx'. }
  exists hp'. split; [done|].
  pose proof (evict_one_index_ok _ _ _ Hone Hok') as Hok''.
  destruct (evict_one_returned _ _ _ Hone)
    as (tx0 & ins0 & hx' & Htx0 & Hin0 & Hfold & Hpool & _).
  unfold heap_of in Htx0, Hfold, Hpool, Hok''. simpl in Htx0, Hfold, Hpool.
  rewrite Htx' in Htx0. injection Htx0 as <-.
  rewrite Hin in Hin0. injection Hin0 as <-.
  destruct (commit_self a h tx ins) as (t' & hx1 & Htouch & Hcommit).
  rewrite Hcommit in Hpool, Hfold. simpl in Hpool, Hfold.
  assert (Htxs : delete h (<[h := mkMemPoolTx (prevouts tx) (Some ins)
                               (out_pairs tx)
                               (Z.max 0 (native_sum ins
                                         - native_sum (out_pairs tx)))
                               (tx_size tx)]> (txs (self a)))
                 = txs (self a)).
  { apply map_eq. intros k. destruct (decide (k = h)) as [->|Hne].
    - by rewrite lookup_delete_eq.
    - by rewrite lookup_delete_ne, lookup_insert_ne. }
  assert (Hhx : hx' = hashXs (self a)).
  { destruct Hok as (Hexact & Hne & _).
    destruct (foldl_unindex _ _ _ _ Hfold) as [Hidx Hne'].
    destruct (foldl_touch h (ins ++ out_pairs tx) (touched a)
                (hashXs (self a))) as (t2 & hx2 & Htouch2 & _ & Hidx2 & Hne2).
    rewrite Htouch in Htouch2. injection Htouch2 as <- <-.
    apply indexed_ext; [by apply Hne', Hne2|done|].
    intros sh k. rewrite Hidx, Hidx2. split.
    - intros [[Hi|[Hsh ->]] Hnot]; [done|]. destruct Hnot. split; [|done].
      apply elem_of_elements. unfold evicted_hashXs. rewrite Hout.
      rewrite fmap_app in Hsh. set_solver.
    - intros Hi. split; [by left|]. intros [_ ->].
      apply Hexact in Hi as (tx1 & Htx1 & _). congruence. }
  rewrite Hpool. simpl. rewrite Htxs, Hhx. split; [done|]. split; [done|].
  intros Hc Hr. rewrite Hc, Hr. simpl.
  assert (Hpop : ∀ (fwd : gmap string AssetIssuance), pop_all ∅ fwd = fwd).
  { intros fwd. unfold pop_all. apply map_filter_id. intros name st _.
    simpl. set_solver. }
  rewrite !Hpop, !delete_id by done. by destruct (self a).
Qed.

(** ** The asset entries of evicted transactions *)

(** No entry of a forward index names a hash of [gone] as its source, and
    no hash of [gone] is a key of the reverse index. *)
Definition rid_of (gone : gset tx_hash) (fwd : gmap string AssetIssuance)
    (rev : gmap tx_hash (gset string)) : Prop :=
  (∀ name stats, fwd !! name = Some stats →
     source_tx_hash (source stats) ∉ gone)
  ∧ (∀ h, h ∈ gone → rev !! h = None).

Section RidFacts.
Implicit Types (fwd : gmap string AssetIssuance).
Implicit Types (rev : gmap tx_hash (gset string)) (gone : gset tx_hash).

Lemma rid_of_pop_all gone fwd rev h :
  listed_under_source fwd rev →
  rid_of gone fwd rev →
  rid_of (gone ∪ {[h]}) (pop_all (default ∅ (rev !! h)) fwd) (delete h rev).
Proof.
  intros Hl [Hfwd Hrev]. destruct (pop_all_listed fwd rev h Hl) as [_ Hne].
  split.
  - intros name st Hst. specialize (Hne _ _ Hst).
    unfold pop_all in Hst. apply map_lookup_filter_Some in Hst as [Hst _].
    specialize (Hfwd _ _ Hst). set_solver.
  - intros h' [Hin| ->%elem_of_singleton]%elem_of_union.
    + rewrite lookup_delete_None. right. by apply Hrev.
    + by rewrite lookup_delete_eq.
Qed.

Lemma rid_of_register gone idx item :
  source_tx_hash (source item.2) ∉ gone →
  rid_of gone idx.1 idx.2 →
  rid_of gone (register idx item).1 (register idx item).2.
Proof.
  destruct item as [asset stats]. unfold register. simpl.
  intros Hsrc [Hfwd Hrev]. split.
  - intros name st. destruct (decide (name = asset)) as [->|Hne].
    + rewrite lookup_insert_eq. by intros [= <-].
    + rewrite lookup_insert_ne by done. apply Hfwd.
  - intros h Hh. rewrite lookup_insert_ne; [by apply Hrev|]. by intros <-.
Qed.

Lemma rid_of_foldl_register gone items idx :
  (∀ item, item ∈ items → source_tx_hash (source item.2) ∉ gone) →
  rid_of gone idx.1 idx.2 →
  rid_of gone (foldl register idx items).1 (foldl register idx items).2.
Proof.
  revert idx. induction items as [|item items IH]; intros idx Hsrc Hrid;
    simpl; [done|].
  apply IH; [intros ? ?; apply Hsrc; by right|].
  apply rid_of_register; [apply Hsrc; by left|done].
Qed.
End RidFacts.

Definition assets_rid_of (gone : gset tx_hash) (m : MemPool) : Prop :=
  rid_of gone (asset_creates m) (tx_to_asset_create m)
  ∧ rid_of gone (asset_reissues m) (tx_to_asset_reissue m).

Lemma evict_all_rid_of hp gone0 gone hp' :
  assets_listed (pool hp) →
  assets_rid_of gone0 (pool hp) →
  evict_all hp gone = (hp', None) →
  assets_rid_of (gone0 ∪ list_to_set gone) (pool hp').
Proof.
  revert hp gone0. induction gone as [|h gone IH]; intros hp gone0 Hl Hrid;
    simpl.
  - intros [= <-]. by rewrite union_empty_r_L.
  - destruct (evict_one hp h) as [hp1 [e|]] eqn:Hone; [done|].
    intros Hrest.
    replace (gone0 ∪ ({[h]} ∪ list_to_set gone))
      with ((gone0 ∪ {[h]}) ∪ list_to_set gone) by set_solver.
    destruct (evict_one_returned _ _ _ Hone)
      as (tx & ins & hx' & _ & _ & _ & Hpool & _).
    destruct Hl as [Hlc Hlr]. destruct Hrid as [Hc Hr].
    refine (IH hp1 (gone0 ∪ {[h]}) _ _ Hrest); rewrite Hpool; simpl.
    + split; by apply pop_all_listed.
    + split; by apply rid_of_pop_all.
Qed.

(** * Further properties of the digester *)

(** ** The [try] block (lines 437-509) *)

(** What leaving the [try] block can have done to the locals: it raised
    before or after the asset pair was appended, or it ran to its end and
    recorded nothing (a transfer), an issuance, or a reissue. *)
Inductive try_effect (hX : hashX) (h : tx_hash) (vout_n : nat) (l l' : locals)
  : option unit → Prop :=
  | raised_early :
      txout_tuple_list l' = txout_tuple_list l →
      asset_meta_creates l' = asset_meta_creates l →
      asset_meta_reissues l' = asset_meta_reissues l →
      try_effect hX h vout_n l l' None
  | raised_late v name :
      txout_tuple_list l' = txout_tuple_list l ++ [(hX, v, true, Some name)] →
      value_var l' = v →
      asset_meta_creates l' = asset_meta_creates l →
      asset_meta_reissues l' = asset_meta_reissues l →
      try_effect hX h vout_n l l' None
  | parsed_transfer v name :
      txout_tuple_list l' = txout_tuple_list l ++ [(hX, v, true, Some name)] →
      asset_meta_creates l' = asset_meta_creates l →
      asset_meta_reissues l' = asset_meta_reissues l →
      try_effect hX h vout_n l l' (Some tt)
  | parsed_create v name d :
      txout_tuple_list l' = txout_tuple_list l ++ [(hX, v, true, Some name)] →
      source d = mkAssetSource h vout_n (-1) →
      asset_meta_creates l' = dict_set name d (asset_meta_creates l) →
      asset_meta_reissues l' = asset_meta_reissues l →
      try_effect hX h vout_n l l' (Some tt)
  | parsed_reissue v name d :
      txout_tuple_list l' = txout_tuple_list l ++ [(hX, v, true, Some name)] →
      source d = mkAssetSource h vout_n (-1) →
      asset_meta_creates l' = asset_meta_creates l →
      asset_meta_reissues l' = dict_set name d (asset_meta_reissues l) →
      try_effect hX h vout_n l l' (Some tt).

(** Runs the block on symbolic locals, one goal for each way through it. *)
Ltac run_try H :=
  unfold asset_portion, mbind, Try_bind, fmap, Try_fmap, mret, Try_ret,
    try_ret, or_raise, parse, new_parser, the_parser, append_pair,
    assign_value, the_value, set_create, set_reissue in H;
  repeat (unfold try_bind in *; case_match; simplify_eq; simpl in * ).

Lemma asset_portion_effect lib hX ops op_ptr h vout_n l l' o :
  asset_portion lib hX ops op_ptr h vout_n l = (l', o) →
  try_effect hX h vout_n l l' o.
Proof.
  intros H. run_try H.
  all: try match goal with u : unit |- _ => destruct u end.
  all: first
    [ by apply raised_early
    | by eapply raised_late
    | by eapply parsed_transfer
    | eapply parsed_create; [reflexivity| |reflexivity|reflexivity];
      reflexivity
    | eapply parsed_reissue; [reflexivity| |reflexivity|reflexivity];
      reflexivity ].
Qed.

(** ** One output (lines 412-511) *)

(** The script hash an output is indexed under (lines 419-433): that of the
    script up to the opcode before the first [OP_RVN_ASSET], or of the whole
    script when there is none or the script starts with it. *)
Definition output_hashX (lib : Lib) (txout : TxOutput) : hashX :=
  let ops := get_ops lib (pk_script txout) in
  let op_ptr := find_op_ptr lib 0 ops in
  if 0 <? op_ptr then
    match ops !! Z.to_nat (op_ptr - 1) with
    | Some prev_op =>
        hashX_from_script lib (take (op_end prev_op) (pk_script txout))
    | None => hashX_from_script lib (pk_script txout)
    end
  else hashX_from_script lib (pk_script txout).

(** The pairs one output contributes: a coin pair, an asset pair, or an
    asset pair followed by a coin pair with the same value. *)
Inductive out_group (hX : hashX) : list io_pair → Prop :=
  | group_coin v : out_group hX [(hX, v, false, None)]
  | group_asset v name : out_group hX [(hX, v, true, Some name)]
  | group_both v name :
      out_group hX [(hX, v, true, Some name); (hX, v, false, None)].

(** The new value of a metadata dict: the old one, or the old one with an
    entry whose source is the output being digested. *)
Definition meta_step (h : tx_hash) (vout_n : nat)
    (old new : list (string * AssetIssuance)) : Prop :=
  new = old
  ∨ ∃ name d, new = dict_set name d old
              ∧ source d = mkAssetSource h vout_n (-1).

Lemma digest_output_effect lib h l vout_n txout :
  ∃ group,
    txout_tuple_list (digest_output lib h l (vout_n, txout))
      = txout_tuple_list l ++ group
    ∧ out_group (output_hashX lib txout) group
    ∧ meta_step h vout_n (asset_meta_creates l)
        (asset_meta_creates (digest_output lib h l (vout_n, txout)))
    ∧ meta_step h vout_n (asset_meta_reissues l)
        (asset_meta_reissues (digest_output lib h l (vout_n, txout))).
Proof.
  unfold digest_output. fold (output_hashX lib txout).
  set (hX := output_hashX lib txout).
  destruct ((0 <? _) && _).
  - destruct (asset_portion _ _ _ _ _ _ _) as [l' o] eqn:Htry.
    apply asset_portion_effect in Htry.
    inversion Htry as [Hp Hc Hr|v name Hp Hv Hc Hr|v name Hp Hc Hr
                      |v name d Hp Hd Hc Hr|v name d Hp Hd Hc Hr];
      subst; simpl in *.
    + eexists. rewrite Hp, Hc, Hr. split; [done|].
      split; [constructor|]. split; by left.
    + exists [(hX, value_var l', true, Some name);
              (hX, value_var l', false, None)].
      rewrite Hp, Hc, Hr, <- app_assoc. simpl. split; [done|].
      split; [constructor|]. split; by left.
    + eexists. rewrite Hp, Hc, Hr. split; [done|].
      split; [constructor|]. split; by left.
    + eexists. rewrite Hp, Hc, Hr. split; [done|].
      split; [constructor|]. split; [right; eauto|by left].
    + eexists. rewrite Hp, Hc, Hr. split; [done|].
      split; [constructor|]. split; [by left|right; eauto].
  - simpl. eexists. split; [done|]. split; [constructor|]. split; by left.
Qed.

(** ** A transaction and a batch (lines 400-516) *)

Lemma dict_set_elem {K V} `{EqDecision K} (k : K) (v : V) (d : list (K * V))
    (kv : K * V) :
  kv ∈ dict_set k v d → kv = (k, v) ∨ kv ∈ d.
Proof.
  induction d as [|[k' v'] d IH]; simpl.
  - intros ->%list_elem_of_singleton. by left.
  - case_decide; subst.
    + intros [->|Hin]%elem_of_cons; [by left|]. right. by right.
    + intros [->|Hin]%elem_of_cons; [right; by left|].
      destruct (IH Hin); [by left|]. right. by right.
Qed.

(** The source of a metadata entry names output [tx_pos] of [h]. *)
Definition sourced_from (h : tx_hash) (positions : list nat)
    (entry : string * AssetIssuance) : Prop :=
  source_tx_hash (source entry.2) = h
  ∧ tx_pos (source entry.2) ∈ positions
  ∧ height (source entry.2) = -1.

Lemma meta_step_elem h vout_n old new entry :
  meta_step h vout_n old new → entry ∈ new →
  entry ∈ old ∨ sourced_from h [vout_n] entry.
Proof.
  intros [->|(name & d & -> & Hd)] Hin; [by left|].
  apply dict_set_elem in Hin as [->|?]; [|by left].
  right. unfold sourced_from. simpl. rewrite Hd. simpl.
  split_and!; [done| |done]. by left.
Qed.

Arguments digest_output : simpl never.

Lemma foldl_digest_output lib h (outs : list (nat * TxOutput)) l :
  ∃ groups,
    txout_tuple_list (foldl (digest_output lib h) l outs)
      = txout_tuple_list l ++ concat groups
    ∧ Forall2 (λ numbered group,
                 out_group (output_hashX lib numbered.2) group) outs groups
    ∧ (∀ entry,
         entry ∈ asset_meta_creates (foldl (digest_output lib h) l outs) →
         entry ∈ asset_meta_creates l ∨ sourced_from h outs.*1 entry)
    ∧ (∀ entry,
         entry ∈ asset_meta_reissues (foldl (digest_output lib h) l outs) →
         entry ∈ asset_meta_reissues l ∨ sourced_from h outs.*1 entry).
Proof.
  revert l. induction outs as [|[vout_n txout] outs IH]; intros l; simpl.
  - exists []. rewrite app_nil_r. split_and!; [done|constructor|auto..].
  - destruct (digest_output_effect lib h l vout_n txout)
      as (group & Hp & Hg & Hc & Hr).
    destruct (IH (digest_output lib h l (vout_n, txout)))
      as (groups & Hps & Hgs & Hcs & Hrs).
    exists (group :: groups). split_and!.
    + rewrite Hps, Hp. simpl. by rewrite app_assoc.
    + by constructor.
    + intros entry Hin. destruct (Hcs _ Hin) as [Hold|(? & ? & ?)].
      * destruct (meta_step_elem _ _ _ _ _ Hc Hold)
          as [?|(? & Hpos%list_elem_of_singleton & ?)]; [by left|].
        right. split_and!; [done| |done]. simpl. rewrite Hpos. by left.
      * right. split_and!; [done| |done]. by right.
    + intros entry Hin. destruct (Hrs _ Hin) as [Hold|(? & ? & ?)].
      * destruct (meta_step_elem _ _ _ _ _ Hr Hold)
          as [?|(? & Hpos%list_elem_of_singleton & ?)]; [by left|].
        right. split_and!; [done| |done]. simpl. rewrite Hpos. by left.
      * right. split_and!; [done| |done]. by right.
Qed.

Lemma enumerate_positions {A} (xs : list A) (n : nat) :
  n ∈ (enumerate xs).*1 → (n < length xs)%nat.
Proof.
  unfold enumerate. rewrite fst_zip by (by rewrite length_seq).
  intros Hn%elem_of_seq. lia.
Qed.

Lemma enumerate_values {A} (xs : list A) : (enumerate xs).*2 = xs.
Proof. unfold enumerate. apply snd_zip. by rewrite length_seq. Qed.

(** The record the digester makes of the raw transaction [raw]: pending,
    with the prevouts of the inputs that are not generation-like, and for
    each output, in order, one group of pairs. *)
Definition digested (lib : Lib) (raw : bytes) (record : MemPoolTx) : Prop :=
  prevouts record
    = ((λ txin, (prev_hash txin, prev_idx txin)) <$>
       filter (λ txin, is_generation txin = false)
         (inputs (read_tx lib raw).1))
  ∧ in_pairs record = None
  ∧ fee record = 0
  ∧ tx_size record = (read_tx lib raw).2
  ∧ ∃ groups,
      out_pairs record = concat groups
      ∧ Forall2 (λ txout group, out_group (output_hashX lib txout) group)
          (outputs (read_tx lib raw).1) groups.

(** The entry was recorded for an output of a transaction of the batch
    whose raw bytes the daemon returned. *)
Definition recorded_in (lib : Lib) (batch : list (tx_hash * option bytes))
    (entry : string * AssetIssuance) : Prop :=
  ∃ raw,
    (source_tx_hash (source entry.2), Some raw) ∈ batch
    ∧ raw ≠ []
    ∧ (tx_pos (source entry.2) < length (outputs (read_tx lib raw).1))%nat
    ∧ height (source entry.2) = -1.

Section BatchFacts.
Variable lib : Lib.
Variable batch : list (tx_hash * option bytes).

(** What [deserialize_txs] has built after a part of the batch. *)
Definition batch_inv
    (acc : list (tx_hash * MemPoolTx) * list (string * AssetIssuance)
           * list (string * AssetIssuance)) : Prop :=
  (∀ h record, (h, record) ∈ acc.1.1 →
     ∃ raw, (h, Some raw) ∈ batch ∧ raw ≠ [] ∧ digested lib raw record)
  ∧ (∀ entry, entry ∈ acc.1.2 → recorded_in lib batch entry)
  ∧ (∀ entry, entry ∈ acc.2 → recorded_in lib batch entry).

Lemma digest_tx_inv acc item :
  item ∈ batch → batch_inv acc → batch_inv (digest_tx lib acc item).
Proof.
  destruct acc as [[txs0 creates] reissues]. destruct item as [h raw_tx].
  intros Hitem (Htxs & Hcreates & Hreissues). unfold digest_tx.
  destruct raw_tx as [[|b raw]|]; [done| |done].
  destruct (read_tx lib (b :: raw)) as [tx size] eqn:Hread.
  destruct (foldl_digest_output lib h (enumerate (outputs tx))
              (mkLocals [] creates reissues 0 (mkDataParser [] 0)))
    as (groups & Hp & Hg & Hc & Hr).
  simpl in Hp, Hc, Hr.
  assert (Hsrc : ∀ entry,
            sourced_from h (enumerate (outputs tx)).*1 entry →
            recorded_in lib batch entry).
  { intros entry (Hh & Hpos & Hheight). exists (b :: raw).
    rewrite Hh, Hread. simpl. split_and!; [done|done| |done].
    by apply enumerate_positions. }
  split_and!; simpl.
  - intros h' record [[= -> ->]|Hin]%dict_set_elem; [|by apply Htxs].
    exists (b :: raw). split_and!; [done|done|].
    unfold digested. rewrite Hread. simpl. split_and!; [done..|].
    exists groups. split; [done|].
    rewrite <- (enumerate_values (outputs tx)). apply Forall2_fmap_l.
    exact Hg.
  - intros entry Hin. destruct (Hc _ Hin); auto.
  - intros entry Hin. destruct (Hr _ Hin); auto.
Qed.

Lemma foldl_digest_tx_inv acc items :
  (∀ item, item ∈ items → item ∈ batch) →
  batch_inv acc → batch_inv (foldl (digest_tx lib) acc items).
Proof.
  revert acc. induction items as [|item items IH]; intros acc Hsub Hinv;
    simpl; [done|].
  apply IH; [intros ? ?; apply Hsub; by right|].
  apply digest_tx_inv; [apply Hsub; by left|done].
Qed.
End BatchFacts.

Lemma deserialize_txs_inv lib hashes raw_txs :
  batch_inv lib (zip hashes raw_txs) (deserialize_txs lib hashes raw_txs).
Proof.
  unfold deserialize_txs. apply foldl_digest_tx_inv; [done|].
  split_and!; simpl.
  - intros h record Hin. by apply elem_of_nil in Hin.
  - intros entry Hin. by apply elem_of_nil in Hin.
  - intros entry Hin. by apply elem_of_nil in Hin.
Qed.

Lemma out_group_length hX group :
  out_group hX group → (1 ≤ length group ≤ 2)%nat.
Proof. destruct 1; simpl; lia. Qed.

Lemma out_groups_length {A} (R : A → list io_pair → Prop) xs groups :
  (∀ x group, R x group → (1 ≤ length group ≤ 2)%nat) →
  Forall2 R xs groups →
  (length xs ≤ length (concat groups) ≤ 2 * length xs)%nat.
Proof.
  intros HR. induction 1 as [|x group xs groups Hg _ IH]; simpl; [lia|].
  rewrite length_app. specialize (HR _ _ Hg). lia.
Qed.

(** X11.  Every record [deserialize_txs] returns belongs to a hash of the
    batch for which the daemon returned raw bytes, and is pending: its
    prevouts are those of the inputs that are not generation-like, it has
    no in_pairs and fee 0, and its size is the one [read_tx] reports.  Its
    out_pairs are made of one group for each output, in the order of the
    outputs, all under the script hash of the output: a coin pair, an asset
    pair, or (when the parse of the asset payload raised after the asset
    pair was appended) an asset pair followed by a coin pair of the same
    value.  No output is left out, and a transaction with n outputs has
    between n and 2n out_pairs. *)
Theorem digested_record_has_a_group_of_pairs_for_each_output
    (lib : Lib) (hashes : list tx_hash) (raw_txs : list (option bytes))
    (h : tx_hash) (record : MemPoolTx) :
  (h, record) ∈ (deserialize_txs lib hashes raw_txs).1.1 →
  ∃ raw,
    (h, Some raw) ∈ zip hashes raw_txs
    ∧ raw ≠ []
    ∧ digested lib raw record
    ∧ (length (outputs (read_tx lib raw).1) ≤ length (out_pairs record)
       ≤ 2 * length (outputs (read_tx lib raw).1))%nat.
Proof.
  intros Hin.
  destruct (deserialize_txs_inv lib hashes raw_txs) as (Htxs & _ & _).
  destruct (Htxs _ _ Hin) as (raw & Hraw & Hne & Hd).
  exists raw. do 3 (split; [done|]).
  destruct Hd as (_ & _ & _ & _ & groups & -> & Hg).
  eapply out_groups_length; [|exact Hg].
  intros txout group. apply out_group_length.
Qed.

(** X12.  Every entry of the two metadata dicts [deserialize_txs] returns
    names as its source a hash of the batch for which the daemon returned
    raw bytes and the position of an output of that transaction, with
    height -1: metadata is recorded for outputs that were digested only,
    under the hash of their own transaction. *)
Theorem metadata_entry_names_a_digested_output
    (lib : Lib) (hashes : list tx_hash) (raw_txs : list (option bytes))
    (entry : string * AssetIssuance) :
  entry ∈ (deserialize_txs lib hashes raw_txs).1.2
  ∨ entry ∈ (deserialize_txs lib hashes raw_txs).2 →
  ∃ raw,
    (source_tx_hash (source entry.2), Some raw) ∈ zip hashes raw_txs
    ∧ raw ≠ []
    ∧ (tx_pos (source entry.2) < length (outputs (read_tx lib raw).1))%nat
    ∧ height (source entry.2) = -1.
Proof.
  destruct (deserialize_txs_inv lib hashes raw_txs) as (_ & Hc & Hr).
  intros [Hin|Hin]; [by apply Hc|by apply Hr].
Qed.

(** X13.  When the [try] block raises, neither metadata dict has changed:
    an entry is written by the last statement of a branch only (lines 446,
    483, 507).  The list of pairs is as it was, or has got the asset pair
    of line 459, whose value is then the one left in the local [value] that
    the handler at line 509 uses for the coin pair. *)
Theorem failed_parse_records_no_metadata
    (lib : Lib) (hX : hashX) (ops : list ScriptOp) (op_ptr : Z)
    (h : tx_hash) (vout_n : nat) (l l' : locals) :
  asset_portion lib hX ops op_ptr h vout_n l = (l', None) →
  asset_meta_creates l' = asset_meta_creates l
  ∧ asset_meta_reissues l' = asset_meta_reissues l
  ∧ (txout_tuple_list l' = txout_tuple_list l
     ∨ ∃ name,
         txout_tuple_list l'
         = txout_tuple_list l ++ [(hX, value_var l', true, Some name)]).
Proof.
  intros Htry. apply asset_portion_effect in Htry.
  inversion Htry as [Hp Hc Hr|v name Hp Hv Hc Hr| | |]; subst.
  - split_and!; [done..|by left].
  - split_and!; [done..|]. right. by exists name.
Qed.

(** ** Outputs without an asset portion *)

Lemma find_op_ptr_none lib i ops :
  (∀ op, op ∈ ops → op_code op ≠ OP_RVN_ASSET lib) →
  find_op_ptr lib i ops = -1.
Proof.
  revert i. induction ops as [|op ops IH]; intros i Hall; simpl; [done|].
  destruct (op_code op =? OP_RVN_ASSET lib) eqn:Heq.
  - apply Z.eqb_eq in Heq. destruct (Hall op); [by left|done].
  - apply IH. intros op' Hop'. apply Hall. by right.
Qed.

(** X14.  An output whose script has no [OP_RVN_ASSET], or starts with it,
    is digested to exactly one coin pair, under the hash of the whole
    script and with the value of the output, and records no metadata: the
    asset parser is entered for an [OP_RVN_ASSET] at a positive index only
    (lines 426 and 436). *)
Theorem output_without_asset_portion_is_one_coin_pair
    (lib : Lib) (h : tx_hash) (l : locals) (vout_n : nat) (txout : TxOutput) :
  (∀ op, op ∈ get_ops lib (pk_script txout) → op_code op ≠ OP_RVN_ASSET lib)
  ∨ (∃ op, head (get_ops lib (pk_script txout)) = Some op
           ∧ op_code op = OP_RVN_ASSET lib) →
  txout_tuple_list (digest_output lib h l (vout_n, txout))
  = txout_tuple_list l
    ++ [(hashX_from_script lib (pk_script txout), value txout, false, None)]
  ∧ asset_meta_creates (digest_output lib h l (vout_n, txout))
    = asset_meta_creates l
  ∧ asset_meta_reissues (digest_output lib h l (vout_n, txout))
    = asset_meta_reissues l.
Proof.
  intros Hplain.
  assert (Hptr : find_op_ptr lib 0 (get_ops lib (pk_script txout)) ≤ 0).
  { destruct Hplain as [Hnone|(op & Hhead & Hop)].
    - by rewrite find_op_ptr_none.
    - destruct (get_ops lib (pk_script txout)) as [|op' ops]; [done|].
      injection Hhead as ->. simpl. apply Z.eqb_eq in Hop. by rewrite Hop. }
  unfold digest_output.
  destruct (0 <? find_op_ptr lib 0 (get_ops lib (pk_script txout))) eqn:Hpos;
    [apply Z.ltb_lt in Hpos; lia|].
  done.
Qed.

(** ** Outputs with an asset portion *)

Lemma find_op_ptr_first lib i before op after :
  (∀ o, o ∈ before → op_code o ≠ OP_RVN_ASSET lib) →
  op_code op = OP_RVN_ASSET lib →
  find_op_ptr lib i (before ++ op :: after) = i + Z.of_nat (length before).
Proof.
  revert i. induction before as [|o before IH]; intros i Hbefore Hop; simpl.
  - apply Z.eqb_eq in Hop. rewrite Hop. lia.
  - destruct (op_code o =? OP_RVN_ASSET lib) eqn:Ho.
    + apply Z.eqb_eq in Ho. destruct (Hbefore o); [by left|done].
    + rewrite IH; [lia| |done]. intros o' Ho'. apply Hbefore. by right.
Qed.

(** X15.  When the first [OP_RVN_ASSET] of a script follows another opcode,
    every pair the output is given, whether the parse of the asset payload
    succeeds or raises, carries the hash of the script cut at the end of
    that opcode (lines 426-430): the output is indexed under the script
    hash of the holder, not under that of the whole script. *)
Theorem asset_output_is_indexed_under_the_script_before_the_asset_opcode
    (lib : Lib) (h : tx_hash) (l : locals) (vout_n : nat) (txout : TxOutput)
    (before : list ScriptOp) (prev op : ScriptOp) (after : list ScriptOp) :
  get_ops lib (pk_script txout) = before ++ prev :: op :: after →
  (∀ o, o ∈ before ++ [prev] → op_code o ≠ OP_RVN_ASSET lib) →
  op_code op = OP_RVN_ASSET lib →
  ∃ group,
    txout_tuple_list (digest_output lib h l (vout_n, txout))
      = txout_tuple_list l ++ group
    ∧ out_group
        (hashX_from_script lib (take (op_end prev) (pk_script txout))) group.
Proof.
  intros Hops Hbefore Hop.
  destruct (digest_output_effect lib h l vout_n txout)
    as (group & Hp & Hg & _).
  exists group. split; [done|].
  assert (HhX : output_hashX lib txout
                = hashX_from_script lib
                    (take (op_end prev) (pk_script txout))).
  { unfold output_hashX. rewrite Hops.
    replace (before ++ prev :: op :: after)
      with ((before ++ [prev]) ++ op :: after) by (by rewrite <- app_assoc).
    rewrite (find_op_ptr_first lib 0 (before ++ [prev]) op after Hbefore Hop).
    rewrite length_app. simpl.
    replace (Z.to_nat (0 + Z.of_nat (length before + 1) - 1))
      with (length before) by lia.
    destruct (0 <? 0 + Z.of_nat (length before + 1)) eqn:Hpos;
      [|apply Z.ltb_ge in Hpos; lia].
    rewrite <- app_assoc. simpl.
    by rewrite list_lookup_middle. }
  by rewrite <- HhX.
Qed.

(** * Asset entries across a run *)

(** X16.  When a run of [_process_mempool] on a mempool the reconciler can
    reach returns, the asset indices hold nothing of the transactions it
    evicted: no entry of [asset_creates] or [asset_reissues] names as its
    source a hash that was a key of [txs] and is not reported in
    [all_hashes], and no such hash is a key of [tx_to_asset_create] or
    [tx_to_asset_reissue].  (Eviction pops the names listed under the hash,
    which are all the entries with that source, and the metadata registered
    afterwards has its source in the batch, hence in [all_hashes].) *)
Theorem evicted_transaction_leaves_no_asset_entry
    (lib : Lib) (api : MemPoolAPI) (m : MemPool) (touched : gset hashX)
    (assets : gset string) (all_hashes : gset tx_hash) (mempool_height : Z)
    (hp' : heap) (dropped : list (tx_hash * MemPoolTx)) (h : tx_hash) :
  reachable lib m →
  _process_mempool lib api (mkHeap m touched assets) all_hashes mempool_height
    = (hp', Returned dropped) →
  is_Some (txs m !! h) →
  h ∉ all_hashes →
  (∀ name stats, asset_creates (pool hp') !! name = Some stats →
     source_tx_hash (source stats) ≠ h)
  ∧ (∀ name stats, asset_reissues (pool hp') !! name = Some stats →
       source_tx_hash (source stats) ≠ h)
  ∧ tx_to_asset_create (pool hp') !! h = None
  ∧ tx_to_asset_reissue (pool hp') !! h = None.
Proof.
  intros Hm Hrun Hh Hnot.
  set (gone := dom (txs m) ∖ all_hashes).
  assert (Hrid : assets_rid_of gone (pool hp')).
  { destruct (process_mempool_returned lib _ _ _ _ _ _ Hrun)
      as (Hheight & hp1 & Hevict).
    refine (process_mempool_keeps lib (λ hp, assets_rid_of gone (pool hp))
              (λ h, h ∈ all_hashes) _ _ api _ all_hashes mempool_height
              hp1 hp' _ Hheight Hevict _ _ Hrun).
    - intros hp0 hashes raw_txs tx_map creates reissues Hadm Hdigest [Hc Hr].
      assert (Hsrc : ∀ item, item ∈ creates ∨ item ∈ reissues →
                             source_tx_hash (source item.2) ∉ gone).
      { intros item Hitem.
        destruct (deserialize_txs_inv lib hashes raw_txs) as (_ & Hcs & Hrs).
        rewrite Hdigest in Hcs, Hrs. simpl in Hcs, Hrs.
        assert (Hrec : recorded_in lib (zip hashes raw_txs) item)
          by (destruct Hitem; auto).
        destruct Hrec as (raw & Hraw & _).
        apply elem_of_zip_l, Hadm in Hraw. set_solver. }
      simpl. unfold register_all.
      pose proof (rid_of_foldl_register gone creates
                    (asset_creates (pool hp0), tx_to_asset_create (pool hp0))
                    (λ item Hin, Hsrc item (or_introl Hin)) Hc) as Hc'.
      pose proof (rid_of_foldl_register gone reissues
                    (asset_reissues (pool hp0), tx_to_asset_reissue (pool hp0))
                    (λ item Hin, Hsrc item (or_intror Hin)) Hr) as Hr'.
      destruct (foldl register (asset_creates (pool hp0), _) creates).
      destruct (foldl register (asset_reissues (pool hp0), _) reissues).
      by split.
    - intros a k tx ins utxo_map _ _ Hrid. unfold heap_of in *. simpl in *.
      by destruct (commit_self a k tx ins) as (t' & hx' & _ & ->).
    - done.
    - replace gone with (∅ ∪ list_to_set (elements gone) : gset tx_hash)
        by (rewrite list_to_set_elements_L; set_solver).
      eapply evict_all_rid_of; [| |exact Hevict].
      + by apply (reachable_assets_listed lib).
      + split; split; set_solver. }
  assert (Hgone : h ∈ gone).
  { apply elem_of_difference. split; [by apply elem_of_dom|done]. }
  destruct Hrid as [[Hc Hcr] [Hr Hrr]].
  split_and!.
  - intros name st Hst Heq. apply (Hc _ _ Hst). by rewrite Heq.
  - intros name st Hst Heq. apply (Hr _ _ Hst). by rewrite Heq.
  - by apply Hcr.
  - by apply Hrr.
Qed.

(** * Further properties of the fee-histogram compactor *)

Section HistogramBuckets.
Context {rate : Type} (rate_le : relation rate) `{!RelDecision rate_le}.
Context {num : Type} (is_positive : num → bool) (gt_twice gt : Z → num → bool)
        (times_1_1 : num → result num).

Local Abbreviation loop_step :=
  (compress_step (rate:=rate) gt_twice gt times_1_1).
Local Abbreviation loop :=
  (compress_items (rate:=rate) gt_twice gt times_1_1).
Local Abbreviation pre := (after_pre_flush (rate:=rate) gt_twice times_1_1).
Local Abbreviation post := (after_post_flush (rate:=rate) gt times_1_1).
Local Abbreviation descends := (rate_gt (rate:=rate) rate_le).

Lemma after_pre_flush_cases w size w1 :
  pre w size = Returned w1 →
  w1 = w
  ∨ ∃ prev bin', prev_fee_rate w = Some prev ∧ 0 < cum_size w
                 ∧ w1 = Walk (compact w ++ [(prev, cum_size w)]) 0
                             (prev_fee_rate w) bin'.
Proof.
  unfold after_pre_flush. destruct (gt_twice _ _); [|intros [= <-]; by left].
  destruct (prev_fee_rate w) as [prev|] eqn:Hprev; [|intros [= <-]; by left].
  case_bool_decide; [|intros [= <-]; by left]. unfold emit.
  destruct (times_1_1 (bin_size w)) as [bin'|]; [|done].
  intros [= <-]. right. exists prev, bin'. by rewrite Hprev.
Qed.

Lemma after_post_flush_cases w1 fee_rate size w3 :
  post w1 fee_rate size = Returned w3 →
  w3 = Walk (compact w1) (cum_size w1 + size) (prev_fee_rate w1) (bin_size w1)
  ∨ ∃ bin', w3 = Walk (compact w1 ++ [(fee_rate, cum_size w1 + size)]) 0
                      (prev_fee_rate w1) bin'.
Proof.
  unfold after_post_flush. destruct (gt _ _); [|intros [= <-]; by left].
  unfold emit. simpl. destruct (times_1_1 (bin_size w1)) as [bin'|]; [|done].
  intros [= <-]. right. by exists bin'.
Qed.

(** A step that returns went through both flushes. *)
Lemma compress_step_returned w fee_rate size w' :
  loop_step w (fee_rate, size) = Returned w' →
  ∃ w1 w3,
    pre w size = Returned w1
    ∧ post w1 fee_rate size = Returned w3
    ∧ w' = Walk (compact w3) (cum_size w3) (Some fee_rate) (bin_size w3).
Proof.
  rewrite compress_step_unfold.
  destruct (pre w size) as [w1|] eqn:Hpre; [|done]. simpl.
  destruct (post w1 fee_rate size) as [w3|] eqn:Hpost; [|done]. simpl.
  intros [= <-]. by exists w1, w3.
Qed.

Lemma StronglySorted_snoc {A} (R : relation A) (l : list A) (x : A) :
  StronglySorted R l → Forall (λ e, R e x) l → StronglySorted R (l ++ [x]).
Proof.
  induction 1 as [|a l Hs IH Ha]; intros Hx; simpl.
  - by repeat constructor.
  - apply Forall_cons in Hx as [Hax Hx]. constructor; [by apply IH|].
    apply Forall_app. split; [done|]. by constructor.
Qed.

(** *** The emitted fee rates descend *)

(** The emitted buckets descend strictly and lie above every entry that is
    still to come; so does the previous fee rate, and a bucket emitted at
    the previous fee rate has left [cum_size] at zero. *)
Definition descending_inv (w : walk (rate:=rate) (num:=num))
    (rest : list (rate * Z)) : Prop :=
  StronglySorted descends (compact w)
  ∧ (∀ e x, e ∈ compact w → x ∈ rest → descends e x)
  ∧ (∀ prev, prev_fee_rate w = Some prev →
       (∀ x, x ∈ rest → rate_le x.1 prev ∧ prev ≠ x.1)
       ∧ ∀ e, e ∈ compact w →
              (rate_le prev e.1 ∧ e.1 ≠ prev) ∨ (e.1 = prev ∧ cum_size w = 0)).

Lemma after_pre_flush_descending w size rest w1 :
  pre w size = Returned w1 →
  descending_inv w rest → descending_inv w1 rest.
Proof.
  intros Hpre (Hsorted & Habove & Hprev).
  destruct (after_pre_flush_cases w size w1 Hpre)
    as [->|(prev & bin' & Hp & Hcum & ->)]; [done|].
  destruct (Hprev _ Hp) as [Hrest Hcompact].
  split_and!; simpl.
  - apply StronglySorted_snoc; [done|]. apply Forall_forall. intros e He.
    destruct (Hcompact _ He) as [?|[_ Hzero]]; [done|lia].
  - intros e x [He| ->%list_elem_of_singleton]%elem_of_app Hx;
      [by apply Habove|]. by apply Hrest.
  - intros prev' Hp'. rewrite Hp in Hp'. injection Hp' as <-.
    split; [done|].
    intros e [He| ->%list_elem_of_singleton]%elem_of_app; [|by right].
    destruct (Hcompact _ He) as [?|[? _]]; [by left|by right].
Qed.

Lemma compress_step_descending w item rest w' :
  loop_step w item = Returned w' →
  StronglySorted descends (item :: rest) →
  descending_inv w (item :: rest) →
  descending_inv w' rest.
Proof.
  destruct item as [fee_rate size].
  intros (w1 & w3 & Hpre & Hpost & ->)%compress_step_returned Hitems Hinv.
  apply (after_pre_flush_descending _ size _ w1 Hpre) in Hinv.
  destruct Hinv as (Hsorted & Habove & _).
  apply StronglySorted_inv in Hitems as [_ Hrest].
  assert (Hold : ∀ e, e ∈ compact w1 →
                      rate_le fee_rate e.1 ∧ e.1 ≠ fee_rate).
  { intros e He. apply (Habove e (fee_rate, size)); [done|by left]. }
  assert (Hnext : ∀ x, x ∈ rest → rate_le x.1 fee_rate ∧ fee_rate ≠ x.1).
  { intros x Hx. by apply (proj1 (Forall_forall _ _) Hrest). }
  destruct (after_post_flush_cases _ _ _ _ Hpost) as [->|(bin' & ->)];
    split_and!; simpl.
  - done.
  - intros e x He Hx. apply Habove; [done|by right].
  - intros prev [= <-]. split; [done|]. intros e He. left. by apply Hold.
  - apply StronglySorted_snoc; [done|]. apply Forall_forall. intros e He.
    by apply Hold.
  - intros e x [He| ->%list_elem_of_singleton]%elem_of_app Hx.
    + apply Habove; [done|by right].
    + by apply Hnext.
  - intros prev [= <-]. split; [done|].
    intros e [He| ->%list_elem_of_singleton]%elem_of_app;
      [left; by apply Hold|by right].
Qed.

Lemma compress_items_descending items w w' :
  loop w items = Returned w' →
  StronglySorted descends items →
  descending_inv w items →
  descending_inv w' [].
Proof.
  revert w. induction items as [|item items IH]; intros w Hrun Hitems Hinv.
  { by injection Hrun as <-. }
  cbn [compress_items] in Hrun.
  destruct (loop_step w item) as [w1|] eqn:Hstep; [|done]. simpl in Hrun.
  apply (IH w1 Hrun); [by apply StronglySorted_inv in Hitems as [? _]|].
  by eapply compress_step_descending.
Qed.

(** *** The emitted sizes are those of runs of entries *)

(** A bucket stands for a run of consecutive entries: it has the fee rate
    of the last entry of the run and the size of the whole run. *)
Definition bucket_of (run : list (rate * Z)) (bucket : rate * Z) : Prop :=
  ∃ front size, run = front ++ [(bucket.1, size)]
                ∧ bucket.2 = sum_sizes run.

(** The entries walked so far are the runs of the emitted buckets followed
    by the entries [cum_size] counts. *)
Definition runs_inv (w : walk (rate:=rate) (num:=num))
    (walked : list (rate * Z)) : Prop :=
  ∃ runs pending,
    walked = concat runs ++ pending
    ∧ Forall2 bucket_of runs (compact w)
    ∧ cum_size w = sum_sizes pending
    ∧ prev_fee_rate w = fst <$> last walked.

Lemma sum_sizes_snoc (l : list (rate * Z)) (e : rate * Z) :
  sum_sizes (l ++ [e]) = sum_sizes l + e.2.
Proof. induction l as [|a l IH]; simpl; [lia|]. rewrite IH. lia. Qed.

Lemma after_pre_flush_runs w size walked w1 :
  pre w size = Returned w1 →
  runs_inv w walked →
  ∃ runs pending,
    walked = concat runs ++ pending
    ∧ Forall2 bucket_of runs (compact w1)
    ∧ cum_size w1 = sum_sizes pending.
Proof.
  intros Hpre (runs & pending & Hwalked & Hruns & Hcum & Hprev).
  destruct (after_pre_flush_cases w size w1 Hpre)
    as [->|(prev & bin' & Hp & Hpos & ->)]; [by exists runs, pending|].
  simpl. exists (runs ++ [pending]), []. split_and!.
  - by rewrite concat_app, Hwalked; simpl; rewrite !app_nil_r.
  - apply Forall2_app; [done|]. constructor; [|constructor].
    destruct pending as [|e pending _] using rev_ind.
    { simpl in Hcum. lia. }
    rewrite Hwalked, app_assoc, last_snoc, Hp in Hprev.
    injection Hprev as ->. exists pending, e.2. simpl.
    split; [by destruct e|done].
  - done.
Qed.

Lemma compress_step_runs w item walked w' :
  loop_step w item = Returned w' →
  runs_inv w walked → runs_inv w' (walked ++ [item]).
Proof.
  destruct item as [fee_rate size].
  intros (w1 & w3 & Hpre & Hpost & ->)%compress_step_returned Hinv.
  destruct (after_pre_flush_runs _ size _ w1 Hpre Hinv)
    as (runs & pending & Hwalked & Hruns & Hcum).
  destruct (after_post_flush_cases _ _ _ _ Hpost) as [->|(bin' & ->)]; simpl.
  - exists runs, (pending ++ [(fee_rate, size)]). split_and!; simpl.
    + by rewrite Hwalked, app_assoc.
    + done.
    + by rewrite sum_sizes_snoc, Hcum.
    + by rewrite last_snoc.
  - exists (runs ++ [pending ++ [(fee_rate, size)]]), []. split_and!; simpl.
    + rewrite concat_app, Hwalked. simpl. by rewrite !app_nil_r, app_assoc.
    + apply Forall2_app; [done|]. constructor; [|constructor].
      exists pending, size. simpl. by rewrite sum_sizes_snoc, Hcum.
    + done.
    + by rewrite last_snoc.
Qed.

Lemma compress_items_runs items w walked w' :
  loop w items = Returned w' →
  runs_inv w walked → runs_inv w' (walked ++ items).
Proof.
  revert w walked. induction items as [|item items IH];
    intros w walked Hrun Hinv.
  - injection Hrun as <-. by rewrite app_nil_r.
  - cbn [compress_items] in Hrun.
    destruct (loop_step w item) as [w1|] eqn:Hstep; [|done]. simpl in Hrun.
    replace (walked ++ item :: items) with ((walked ++ [item]) ++ items)
      by (by rewrite <- app_assoc).
    apply (IH w1 _ Hrun). by eapply compress_step_runs.
Qed.

(** What the compactor returns is the list of pairs of a loop that ran to
    its end. *)
Lemma compress_histogram_returned (histogram : list (rate * Z)) (bin : num)
    (compacted : list (rate * Z)) :
  _compress_histogram rate_le is_positive gt_twice gt times_1_1 histogram bin
    = Returned compacted →
  ∃ w, loop (compress_init bin) (sorted_reverse rate_le histogram)
       = Returned w
       ∧ compacted = compact w.
Proof.
  unfold _compress_histogram, compress_loop.
  destruct (is_positive bin); [|done].
  destruct (loop _ _) as [w|]; [|done]. simpl. intros [= <-]. by exists w.
Qed.

(** X17.  The fee rates of the compact histogram strictly decrease, for
    every histogram with distinct keys and every [bin_size] with which the
    call returns: a bucket emitted by the pre-flush has the fee rate of the
    previous entry, and none was emitted at that entry, since the pre-flush
    asks for [cum_size > 0] and every emission leaves [cum_size] at zero. *)
Theorem compact_histogram_fee_rates_strictly_decrease
    `{!Transitive rate_le} `{!Total rate_le}
    (histogram : list (rate * Z)) (bin : num) (compacted : list (rate * Z)) :
  NoDup histogram.*1 →
  _compress_histogram rate_le is_positive gt_twice gt times_1_1 histogram bin
    = Returned compacted →
  StronglySorted descends compacted.
Proof.
  intros Hnodup (w & Hrun & ->)%compress_histogram_returned.
  apply (compress_items_descending _ _ _ Hrun).
  - by apply sorted_reverse_strict.
  - split_and!; simpl; [constructor| |done].
    intros e x He. by apply elem_of_nil in He.
Qed.

(** X18.  Every pair of the compact histogram stands for a run of
    consecutive entries of the histogram in descending order of fee rate:
    it carries the fee rate of the last entry of the run, which is the
    lowest, and the sum of the sizes of the run.  The runs follow one
    another from the highest fee rate on without gap or overlap; the
    entries after the last run are in no bucket. *)
Theorem compact_histogram_buckets_are_runs_of_entries
    `{!Transitive rate_le} `{!Total rate_le}
    (histogram : list (rate * Z)) (bin : num) (compacted : list (rate * Z)) :
  NoDup histogram.*1 →
  _compress_histogram rate_le is_positive gt_twice gt times_1_1 histogram bin
    = Returned compacted →
  ∃ entries runs residue,
    entries ≡ₚ histogram
    ∧ StronglySorted descends entries
    ∧ entries = concat runs ++ residue
    ∧ Forall2 (λ run bucket,
                 ∃ front size, run = front ++ [(bucket.1, size)]
                               ∧ bucket.2 = sum_sizes run) runs compacted.
Proof.
  intros Hnodup (w & Hrun & ->)%compress_histogram_returned.
  destruct (compress_items_runs _ _ [] _ Hrun)
    as (runs & residue & Hwalked & Hruns & _).
  { exists [], []. split_and!; [done|constructor|done|done]. }
  exists (sorted_reverse rate_le histogram), runs, residue.
  split_and!; [apply merge_sort_Permutation|by apply sorted_reverse_strict
              |done|done].
Qed.
End HistogramBuckets.

(** * Script templates (lines 28-65) *)

(** An item of a template: an opcode, or an [OPPushDataGeneric] with the
    [check_data_len] it answers to, which is [pushlen] when the instance was
    made with one and the method of the class otherwise. *)
Inductive template_item : Type :=
  | Opcode (code : Z)
  | PushDataGeneric (check_data_len : Z → bool).

Section Matcher.
(** Opcodes of [electrumx.lib.script.OpCodes]. *)
Variable OP_PUSHDATA4 : Z.
Variable OP_CHECKSIG : Z.

(** Line 36. *)
Definition check_data_len (datalen : Z) : bool :=
  (datalen <=? OP_PUSHDATA4) && (0 <=? datalen).

(** Line 46. *)
Definition SCRIPTPUBKEY_TEMPLATE_P2PK : list template_item :=
  [PushDataGeneric (λ x, bool_decide (x ∈ [33; 65])); Opcode OP_CHECKSIG].

(** Line 61: [is_instance(template_item) and
    template_item.check_data_len(script_item[0])]. *)
Definition is_push_of (template_item : template_item) (opcode : Z) : bool :=
  match template_item with
  | PushDataGeneric check => check opcode
  | Opcode _ => false
  end.

(** Line 63: [template_item != script_item[0]]; an [OPPushDataGeneric]
    is not equal to an integer. *)
Definition differs (template_item : template_item) (opcode : Z) : bool :=
  match template_item with
  | PushDataGeneric _ => true
  | Opcode code => bool_decide (code ≠ opcode)
  end.

(** Lines 57-65: the loop over [range(len(template))], on what is left of
    the template and of the script. *)
Fixpoint match_items (ctr : Z) (template : list template_item)
    (script : list ScriptOp) : Z :=
  match template, script with
  | [], _ => ctr
  | _ :: _, [] => -1     (* not reached: the script is long enough *)
  | template_item :: template', script_item :: script' =>
      if is_push_of template_item (op_code script_item)
      then match_items (ctr + 1) template' script'
      else if differs template_item (op_code script_item) then -1
      else match_items (ctr + 1) template' script'
  end.

(** [script] is [None] or the list [Script.get_ops] made. *)
Definition match_script_against_template (script : option (list ScriptOp))
    (template : list template_item) : Z :=
  match script with
  | None => -1
  | Some script =>
      if bool_decide (length script < length template)%nat then -1
      else match_items 0 template script
  end.

(** The opcode is the one the item names, or satisfies its check. *)
Definition accepts (template_item : template_item) (script_item : ScriptOp)
  : Prop :=
  match template_item with
  | Opcode code => op_code script_item = code
  | PushDataGeneric check => check (op_code script_item) = true
  end.

Lemma match_items_spec ctr template script :
  (length template ≤ length script)%nat →
  (Forall2 accepts template (take (length template) script)
   ∧ match_items ctr template script = ctr + Z.of_nat (length template))
  ∨ (¬ Forall2 accepts template (take (length template) script)
     ∧ match_items ctr template script = -1).
Proof.
  revert ctr script.
  induction template as [|item template IH]; intros ctr script Hlen.
  { left. simpl. split; [constructor|lia]. }
  destruct script as [|op script]; simpl in Hlen; [lia|].
  assert (Hrest : accepts item op →
            (Forall2 accepts (item :: template)
               (take (length (item :: template)) (op :: script))
             ∧ match_items (ctr + 1) template script
               = ctr + Z.of_nat (length (item :: template)))
            ∨ (¬ Forall2 accepts (item :: template)
                   (take (length (item :: template)) (op :: script))
               ∧ match_items (ctr + 1) template script = -1)).
  { intros Hacc. simpl take.
    destruct (IH (ctr + 1) script) as [[Hall ->]|[Hnot ->]]; [lia| |].
    - left. split; [by constructor|]. simpl length. lia.
    - right. split; [|done]. by intros [_ Hall]%Forall2_cons. }
  assert (Hstop : ¬ accepts item op →
            ¬ Forall2 accepts (item :: template)
                (take (length (item :: template)) (op :: script))).
  { intros Hnot. simpl take. by intros [Hacc _]%Forall2_cons. }
  cbn [match_items]. destruct item as [code|check]; cbn [is_push_of differs].
  - case_bool_decide as Hcode.
    + right. split; [|done]. apply Hstop. simpl. congruence.
    + apply Hrest. simpl. by destruct (decide (code = op_code op)).
  - destruct (check (op_code op)) eqn:Hcheck.
    + by apply Hrest.
    + right. split; [|done]. apply Hstop. simpl. congruence.
Qed.

Lemma match_items_app ctr template ops rest :
  (length template ≤ length ops)%nat →
  match_items ctr template (ops ++ rest) = match_items ctr template ops.
Proof.
  revert ctr ops. induction template as [|item template IH]; intros ctr ops;
    [by destruct ops|].
  destruct ops as [|op ops]; simpl; [lia|]. intros Hlen.
  rewrite IH by lia. done.
Qed.

(** X19.  [match_script_against_template] returns the number of items of
    the template when the script is not [None], has at least as many
    elements as the template, and each of its first elements has the opcode
    the item at its position names or an opcode the item's [check_data_len]
    accepts; in every other case it returns -1.  For the empty template the
    result is 0, which is not positive. *)
Theorem match_script_against_template_spec
    (script : option (list ScriptOp)) (template : list template_item) :
  ((∃ ops, script = Some ops
           ∧ (length template ≤ length ops)%nat
           ∧ Forall2 accepts template (take (length template) ops))
   ∧ match_script_against_template script template
     = Z.of_nat (length template))
  ∨ (¬ (∃ ops, script = Some ops
               ∧ (length template ≤ length ops)%nat
               ∧ Forall2 accepts template (take (length template) ops))
     ∧ match_script_against_template script template = -1).
Proof.
  unfold match_script_against_template.
  destruct script as [ops|]; [|right; split; [by intros (? & ? & _)|done]].
  case_bool_decide as Hlen.
  - right. split; [|done]. intros (ops' & [= <-] & Hle & _). lia.
  - destruct (match_items_spec 0 template ops) as [[Hall ->]|[Hnot ->]];
      [lia| |].
    + left. split; [|lia]. exists ops. split_and!; [done|lia|done].
    + right. split; [|done]. by intros (ops' & [= <-] & _ & Hall).
Qed.

(** X20.  Only the first [len(template)] elements of the script are
    compared: what follows them does not change the result. *)
Theorem match_script_against_template_ignores_the_rest
    (ops rest : list ScriptOp) (template : list template_item) :
  (length template ≤ length ops)%nat →
  match_script_against_template (Some (ops ++ rest)) template
  = match_script_against_template (Some ops) template.
Proof.
  intros Hlen. unfold match_script_against_template.
  rewrite !bool_decide_eq_false_2 by (rewrite ?length_app; lia).
  by apply match_items_app.
Qed.
End Matcher.

(** * The query surface (lines 572-659) *)

(** What a query can raise: [self.txs[hash_]] for a hash that is not a key,
    the iteration over [tx.in_pairs] when it is [None], and [tx.out_pairs]
    when [self.txs.get(tx_hash)] returned [None]. *)
Inductive query_exn : Type :=
  | QueryKeyError
  | QueryTypeError
  | QueryAttributeError.

Inductive answer (A : Type) : Type :=
  | Answer (a : A)
  | Fails (e : query_exn).
Arguments Answer {A} a.
Arguments Fails {A} e.

(** Lines 78-82. *)
Record MemPoolTxSummary : Type := mkMemPoolTxSummary {
  summary_hash : tx_hash;               (* the attribute [hash] *)
  summary_fee : Z;
  has_unconfirmed_inputs : bool;
}.

(** [UTXO(tx_num, tx_pos, tx_hash, height, value)] and
    [ASSET(tx_num, tx_pos, tx_hash, height, name, value)] of
    electrumx.server.db, as the tuples of their arguments. *)
Abbreviation UTXO := (Z * nat * tx_hash * Z * Z)%type.
Abbreviation ASSET := (Z * nat * tx_hash * Z * option string * Z)%type.

Section Queries.
Variable m : MemPool.
Variable hX : hashX.

(** [self.hashXs.get(hashX, ())] as the loops see it.  Python does not
    specify the order in which a set is iterated; [elements] stands for
    it. *)
Definition touching : list tx_hash :=
  elements (default ∅ (hashXs m !! hX)).

(** The loop [for tx_hash in ...: tx = m.txs[tx_hash]; ...]: [missing] is
    what the lookup of a hash that is not a key ends in. *)
Fixpoint for_each {A} (missing : query_exn)
    (body : A → tx_hash → MemPoolTx → answer A) (acc : A)
    (hashes : list tx_hash) : answer A :=
  match hashes with
  | [] => Answer acc
  | tx_hash :: rest =>
      match txs m !! tx_hash with
      | None => Fails missing
      | Some tx =>
          match body acc tx_hash tx with
          | Answer acc' => for_each missing body acc' rest
          | Fails e => Fails e
          end
      end
  end.

(** [sum(v for h168, v, is_asset, _ in pairs
         if h168 == hashX and not is_asset)] *)
Definition native_at (pairs : list io_pair) : Z :=
  foldr (λ p acc,
           (if bool_decide (pair_hashX p = hX) && negb (pair_is_asset p)
            then pair_value p else 0) + acc) 0 pairs.

(** Lines 592-603. *)
Definition balance_delta : answer Z :=
  for_each QueryKeyError
    (λ value _ tx,
       match in_pairs tx with
       | None => Fails QueryTypeError
       | Some ins =>
           Answer (value - native_at ins + native_at (out_pairs tx))
       end)
    0 touching.

(** Lines 578-582 and 584-588: one pair, with [sign] -1 for an in_pair and
    1 for an out_pair. *)
Definition add_asset (sign : Z) (ret : list (option string * Z))
    (p : io_pair) : list (option string * Z) :=
  if bool_decide (pair_hashX p = hX) && pair_is_asset p then
    match dict_get (pair_name p) ret with
    | None => dict_set (pair_name p) (sign * pair_value p) ret
    | Some old => dict_set (pair_name p) (old + sign * pair_value p) ret
    end
  else ret.

(** Lines 572-590. *)
Definition asset_balance_delta : answer (list (option string * Z)) :=
  for_each QueryKeyError
    (λ ret _ tx,
       match in_pairs tx with
       | None => Fails QueryTypeError
       | Some ins =>
           Answer (foldl (add_asset 1) (foldl (add_asset (-1)) ret ins)
                     (out_pairs tx))
       end)
    [] touching.

(** Lines 609-620. *)
Definition potential_spends : answer (gset prevout) :=
  for_each QueryKeyError
    (λ result _ tx, Answer (result ∪ list_to_set (prevouts tx)))
    ∅ touching.

(** Line 627: [any(hash in m.txs for hash, idx in tx.prevouts)]. *)
Definition has_ui (tx : MemPoolTx) : bool :=
  existsb (λ po, bool_decide (is_Some (txs m !! po.1))) (prevouts tx).

(** Lines 622-629. *)
Definition transaction_summaries : answer (list MemPoolTxSummary) :=
  for_each QueryKeyError
    (λ result tx_hash tx,
       Answer (result ++ [mkMemPoolTxSummary tx_hash (fee tx) (has_ui tx)]))
    [] touching.

(** Lines 641-643: the coin outputs of one transaction that pay [hashX]. *)
Definition utxos_of (tx_hash : tx_hash) (tx : MemPoolTx) : list UTXO :=
  omap (λ numbered : nat * io_pair,
          let '(pos, p) := numbered in
          if bool_decide (pair_hashX p = hX) && negb (pair_is_asset p)
          then Some (-1, pos, tx_hash, 0, pair_value p) else None)
       (enumerate (out_pairs tx)).

(** Lines 631-644. *)
Definition unordered_UTXOs : answer (list UTXO) :=
  for_each QueryAttributeError
    (λ utxos tx_hash tx, Answer (utxos ++ utxos_of tx_hash tx))
    [] touching.

(** Lines 650-652. *)
Definition assets_of (tx_hash : tx_hash) (tx : MemPoolTx) : list ASSET :=
  omap (λ numbered : nat * io_pair,
          let '(pos, p) := numbered in
          if bool_decide (pair_hashX p = hX) && pair_is_asset p
          then Some (-1, pos, tx_hash, 0, pair_name p, pair_value p)
          else None)
       (enumerate (out_pairs tx)).

(** Lines 646-653. *)
Definition unordered_ASSETs : answer (list ASSET) :=
  for_each QueryAttributeError
    (λ assets tx_hash tx, Answer (assets ++ assets_of tx_hash tx))
    [] touching.

(** Lines 655-659. *)
Definition get_asset_creation_if_any (asset : string)
  : option AssetIssuance := asset_creates m !! asset.
Definition get_asset_reissues_if_any (asset : string)
  : option AssetIssuance := asset_reissues m !! asset.

(** ** When the index mirrors [txs] *)

(** The records of the transactions the loops visit, in the order of the
    visit. *)
Definition touching_records : list (tx_hash * MemPoolTx) :=
  omap (λ h, (λ tx, (h, tx)) <$> txs m !! h) touching.

Lemma elem_of_touching h : h ∈ touching ↔ indexed (hashXs m) hX h.
Proof.
  unfold touching, indexed. rewrite elem_of_elements.
  destruct (hashXs m !! hX) as [s|]; simpl; [naive_solver|].
  split; [set_solver|]. by intros (? & ? & _).
Qed.

Lemma NoDup_touching : NoDup touching.
Proof. apply NoDup_elements. Qed.

(** A loop whose body does not fail on the records it meets is a fold over
    the records. *)
Lemma for_each_fold {A} missing (body : A → tx_hash → MemPoolTx → answer A)
    (f : A → tx_hash * MemPoolTx → A) acc hashes :
  (∀ h, h ∈ hashes → is_Some (txs m !! h)) →
  (∀ acc h tx, h ∈ hashes → txs m !! h = Some tx →
               body acc h tx = Answer (f acc (h, tx))) →
  for_each missing body acc hashes
  = Answer (foldl f acc
              (omap (λ h, (λ tx, (h, tx)) <$> txs m !! h) hashes)).
Proof.
  revert acc. induction hashes as [|h hashes IH]; intros acc Hkeys Hbody;
    simpl; [done|].
  destruct (Hkeys h) as [tx Htx]; [by left|]. rewrite Htx. simpl.
  rewrite (Hbody acc h tx) by (done || by left).
  apply IH; [intros ? ?; apply Hkeys; by right|].
  intros acc' h' tx' Hh'. apply Hbody. by right.
Qed.

Hypothesis m_ok : index_ok m.

Lemma touching_known h :
  h ∈ touching →
  ∃ tx ins, txs m !! h = Some tx ∧ in_pairs tx = Some ins
            ∧ hX ∈ tx_hashXs_of tx.
Proof.
  destruct m_ok as (Hexact & _ & Hins).
  intros (tx & Htx & Hsh)%elem_of_touching%Hexact.
  destruct (Hins _ _ Htx) as [ins Hin]. by exists tx, ins.
Qed.

Lemma elem_of_touching_records h tx :
  (h, tx) ∈ touching_records
  ↔ txs m !! h = Some tx ∧ hX ∈ tx_hashXs_of tx.
Proof.
  unfold touching_records. rewrite list_elem_of_omap. split.
  - intros (h' & Hh' & Heq).
    destruct (touching_known _ Hh') as (tx' & ins & Htx' & _ & Hsh).
    rewrite Htx' in Heq. by injection Heq as <- <-.
  - intros [Htx Hsh]. exists h. rewrite Htx. split; [|done].
    apply elem_of_touching. destruct m_ok as (Hexact & _).
    apply Hexact. by exists tx.
Qed.

Lemma touching_records_hashes : touching_records.*1 = touching.
Proof.
  unfold touching_records.
  assert (Hall : ∀ h, h ∈ touching → is_Some (txs m !! h)).
  { intros h (tx & _ & -> & _)%touching_known. by eexists. }
  induction touching as [|h l IH]; simpl; [done|].
  destruct (Hall h) as [tx Htx]; [by left|]. rewrite Htx. simpl.
  f_equal. apply IH. intros ? ?. apply Hall. by right.
Qed.

Lemma NoDup_touching_records : NoDup touching_records.*1.
Proof. rewrite touching_records_hashes. apply NoDup_touching. Qed.

Lemma balance_delta_fold :
  balance_delta
  = Answer (foldl (λ value item,
                     value - native_at (default [] (in_pairs item.2))
                     + native_at (out_pairs item.2)) 0 touching_records).
Proof.
  unfold balance_delta, touching_records. apply for_each_fold.
  - intros h (tx & _ & -> & _)%touching_known. by eexists.
  - intros acc h tx (tx' & ins & Htx' & Hin & _)%touching_known Htx.
    rewrite Htx' in Htx. injection Htx as <-. simpl. by rewrite Hin.
Qed.

Lemma asset_balance_delta_fold :
  asset_balance_delta
  = Answer (foldl (λ ret item,
                     foldl (add_asset 1)
                       (foldl (add_asset (-1)) ret
                          (default [] (in_pairs item.2)))
                       (out_pairs item.2)) [] touching_records).
Proof.
  unfold asset_balance_delta, touching_records. apply for_each_fold.
  - intros h (tx & _ & -> & _)%touching_known. by eexists.
  - intros acc h tx (tx' & ins & Htx' & Hin & _)%touching_known Htx.
    rewrite Htx' in Htx. injection Htx as <-. simpl. by rewrite Hin.
Qed.

Lemma potential_spends_fold :
  potential_spends
  = Answer (foldl (λ result item, result ∪ list_to_set (prevouts item.2)) ∅
              touching_records).
Proof.
  unfold potential_spends, touching_records. apply for_each_fold; [|done].
  intros h (tx & _ & -> & _)%touching_known. by eexists.
Qed.

Lemma transaction_summaries_fold :
  transaction_summaries
  = Answer (foldl (λ result item,
                     result ++ [mkMemPoolTxSummary item.1 (fee item.2)
                                  (has_ui item.2)]) [] touching_records).
Proof.
  unfold transaction_summaries, touching_records.
  apply for_each_fold; [|done].
  intros h (tx & _ & -> & _)%touching_known. by eexists.
Qed.

Lemma unordered_UTXOs_fold :
  unordered_UTXOs
  = Answer (foldl (λ utxos item, utxos ++ utxos_of item.1 item.2) []
              touching_records).
Proof.
  unfold unordered_UTXOs, touching_records. apply for_each_fold; [|done].
  intros h (tx & _ & -> & _)%touching_known. by eexists.
Qed.

Lemma unordered_ASSETs_fold :
  unordered_ASSETs
  = Answer (foldl (λ assets item, assets ++ assets_of item.1 item.2) []
              touching_records).
Proof.
  unfold unordered_ASSETs, touching_records. apply for_each_fold; [|done].
  intros h (tx & _ & -> & _)%touching_known. by eexists.
Qed.
End Queries.

(** ** What the queries answer *)

Section QueryFacts.
Variable m : MemPool.
Variable hX : hashX.
Hypothesis m_ok : index_ok m.

Lemma enumerate_lookup {A} (xs : list A) (pos : nat) (x : A) :
  (pos, x) ∈ enumerate xs ↔ xs !! pos = Some x.
Proof.
  unfold enumerate. rewrite elem_of_lookup_zip_with. split.
  - intros (i & n & y & [= -> ->] & Hn & Hy).
    by apply lookup_seq in Hn as [-> _].
  - intros Hx. exists pos, pos, x. split_and!; [done| |done].
    apply lookup_seq. split; [done|]. by eapply lookup_lt_Some.
Qed.

Lemma NoDup_enumerate {A} (xs : list A) : NoDup (enumerate xs).*1.
Proof.
  unfold enumerate. rewrite fst_zip by (by rewrite length_seq).
  apply NoDup_seq.
Qed.

Lemma NoDup_omap_positions {A B} (f : nat * A → option B)
    (l : list (nat * A)) :
  NoDup l.*1 →
  (∀ x1 x2 y, f x1 = Some y → f x2 = Some y → x1.1 = x2.1) →
  NoDup (omap f l).
Proof.
  intros Hnd Hinj. induction l as [|x l IH]; simpl; [constructor|].
  simpl in Hnd. apply NoDup_cons in Hnd as [Hx Hnd].
  destruct (f x) as [y|] eqn:Hy; [|by apply IH].
  constructor; [|by apply IH].
  intros (x' & Hx' & Hy')%list_elem_of_omap. apply Hx.
  rewrite (Hinj _ _ _ Hy Hy'). apply list_elem_of_fmap. by exists x'.
Qed.

Lemma foldl_app_bind {A B} (f : A → list B) (l : list A) (acc : list B) :
  foldl (λ acc x, acc ++ f x) acc l = acc ++ (l ≫= f).
Proof.
  revert acc. induction l as [|x l IH]; intros acc; csimpl.
  - by rewrite app_nil_r.
  - by rewrite IH, app_assoc.
Qed.

(** Two records the loops visit under the same hash are the same. *)
Lemma touching_records_functional h tx1 tx2 :
  (h, tx1) ∈ touching_records m hX → (h, tx2) ∈ touching_records m hX →
  tx1 = tx2.
Proof.
  intros [H1 _]%elem_of_touching_records [H2 _]%elem_of_touching_records;
    [|done..]. congruence.
Qed.

Lemma NoDup_touching_records_pairs : NoDup (touching_records m hX).
Proof.
  eapply NoDup_fmap_1, NoDup_touching_records. exact m_ok.
Qed.

(** *** [balance_delta] *)

(** What one transaction adds to the balance of [hX]. *)
Definition delta_at (tx : MemPoolTx) : Z :=
  native_at hX (out_pairs tx) - native_at hX (default [] (in_pairs tx)).

Definition sum_list (l : list Z) : Z := foldr Z.add 0 l.

Lemma native_at_elsewhere pairs :
  hX ∉ pair_hashX <$> pairs → native_at hX pairs = 0.
Proof.
  induction pairs as [|p pairs IH]; simpl; [done|].
  intros [Hne Hnot]%not_elem_of_cons.
  rewrite bool_decide_eq_false_2 by done. simpl. by rewrite IH.
Qed.

Lemma delta_at_elsewhere tx : hX ∉ tx_hashXs_of tx → delta_at tx = 0.
Proof.
  unfold tx_hashXs_of, delta_at. rewrite fmap_app.
  intros [Hin Hout]%not_elem_of_app.
  by rewrite !native_at_elsewhere.
Qed.

Lemma foldl_balance (records : list (tx_hash * MemPoolTx)) (value : Z) :
  foldl (λ value item,
           value - native_at hX (default [] (in_pairs item.2))
           + native_at hX (out_pairs item.2)) value records
  = value + sum_list (delta_at <$> records.*2).
Proof.
  revert value. induction records as [|item records IH]; intros value; csimpl.
  - unfold sum_list. simpl. lia.
  - rewrite IH.
    change (sum_list (delta_at item.2 :: (delta_at <$> records.*2)))
      with (delta_at item.2 + sum_list (delta_at <$> records.*2)).
    unfold delta_at. lia.
Qed.

Lemma sum_list_Permutation l1 l2 : l1 ≡ₚ l2 → sum_list l1 = sum_list l2.
Proof. induction 1; simpl; lia. Qed.

Lemma sum_list_filter (records : list (tx_hash * MemPoolTx)) :
  sum_list (delta_at <$> (filter (λ item, hX ∈ tx_hashXs_of item.2)
                            records).*2)
  = sum_list (delta_at <$> records.*2).
Proof.
  induction records as [|item records IH]; [done|].
  rewrite filter_cons. case_decide as Hin; csimpl.
  - change (sum_list (?x :: ?l)) with (x + sum_list l). by rewrite IH.
  - rewrite IH. change (sum_list (?x :: ?l)) with (x + sum_list l).
    by rewrite (delta_at_elsewhere _ Hin).
Qed.

Lemma touching_records_filter :
  touching_records m hX
  ≡ₚ filter (λ item, hX ∈ tx_hashXs_of item.2) (map_to_list (txs m)).
Proof.
  apply NoDup_Permutation.
  - apply NoDup_touching_records_pairs.
  - apply NoDup_filter, NoDup_map_to_list.
  - intros [h tx]. rewrite list_elem_of_filter, elem_of_map_to_list.
    rewrite elem_of_touching_records by done. simpl. tauto.
Qed.
End QueryFacts.

(** X21.  On a mempool whose index mirrors [txs], as it does in every
    mempool the reconciler can reach, no query raises: every hash found in
    [hashXs[hashX]] is a key of [txs], and the [in_pairs] of its record are
    set. *)
Theorem queries_never_raise_on_a_mirrored_index
    (m : MemPool) (hX : hashX) :
  index_ok m →
  (∃ value, balance_delta m hX = Answer value)
  ∧ (∃ ret, asset_balance_delta m hX = Answer ret)
  ∧ (∃ result, potential_spends m hX = Answer result)
  ∧ (∃ result, transaction_summaries m hX = Answer result)
  ∧ (∃ utxos, unordered_UTXOs m hX = Answer utxos)
  ∧ (∃ assets, unordered_ASSETs m hX = Answer assets).
Proof.
  intros Hok. split_and!; eexists.
  - by apply balance_delta_fold.
  - by apply asset_balance_delta_fold.
  - by apply potential_spends_fold.
  - by apply transaction_summaries_fold.
  - by apply unordered_UTXOs_fold.
  - by apply unordered_ASSETs_fold.
Qed.

(** X22.  On a mempool whose index mirrors [txs], [balance_delta(hashX)]
    is the sum, over all transactions of the mempool, of the coin values
    their out_pairs pay to the script hash minus the coin values their
    in_pairs take from it: restricting the loop to [hashXs[hashX]] leaves
    out only transactions that contribute nothing. *)
Theorem balance_delta_is_the_sum_over_the_mempool
    (m : MemPool) (hX : hashX) :
  index_ok m →
  balance_delta m hX
  = Answer (sum_list (delta_at hX <$> (map_to_list (txs m)).*2)).
Proof.
  intros Hok. rewrite balance_delta_fold by done. f_equal.
  rewrite foldl_balance, Z.add_0_l.
  rewrite <- (sum_list_filter hX (map_to_list (txs m))).
  apply sum_list_Permutation. do 2 apply fmap_Permutation.
  by apply touching_records_filter.
Qed.

(** X23.  On a mempool whose index mirrors [txs], [potential_spends(hashX)]
    is the set of the prevouts of the transactions whose record has an
    in_pair or an out_pair with the script hash, and holds no other
    prevout. *)
Theorem potential_spends_are_the_prevouts_of_the_touching_transactions
    (m : MemPool) (hX : hashX) :
  index_ok m →
  ∃ result,
    potential_spends m hX = Answer result
    ∧ ∀ po, po ∈ result
            ↔ ∃ h tx, txs m !! h = Some tx
                      ∧ hX ∈ tx_hashXs_of tx
                      ∧ po ∈ prevouts tx.
Proof.
  intros Hok. eexists. split; [by apply potential_spends_fold|].
  intros po.
  assert (Hfold : ∀ (records : list (tx_hash * MemPoolTx)) (acc : gset prevout),
            po ∈ foldl (λ result item,
                          result ∪ list_to_set (prevouts item.2)) acc records
            ↔ po ∈ acc ∨ ∃ item, item ∈ records ∧ po ∈ prevouts item.2).
  { induction records as [|item records IH]; intros acc; simpl.
    - split; [by left|]. intros [?|(? & []%elem_of_nil & _)]. done.
    - rewrite IH, elem_of_union, elem_of_list_to_set. split.
      + intros [[?|?]|(item' & ? & ?)]; [by left| |].
        * right. exists item. split; [by left|done].
        * right. exists item'. split; [by right|done].
      + intros [?|(item' & [->|?]%elem_of_cons & ?)]; [by left; left| |].
        * left. by right.
        * right. by exists item'. }
  rewrite Hfold. split.
  - intros [[]%elem_of_empty|([h tx] & Hin & Hpo)].
    apply elem_of_touching_records in Hin as [? ?]; [|done].
    by exists h, tx.
  - intros (h & tx & Htx & Hsh & Hpo). right. exists (h, tx).
    split; [|done]. by apply elem_of_touching_records.
Qed.

(** X24.  On a mempool whose index mirrors [txs], [transaction_summaries]
    returns one summary for each transaction that has an in_pair or an
    out_pair with the script hash and no other: it carries the fee of the
    record, and [has_unconfirmed_inputs] is set exactly when a prevout of
    the transaction names a transaction of the mempool. *)
Theorem transaction_summaries_has_one_summary_for_each_touching_transaction
    (m : MemPool) (hX : hashX) :
  index_ok m →
  ∃ result,
    transaction_summaries m hX = Answer result
    ∧ NoDup (summary_hash <$> result)
    ∧ ∀ s, s ∈ result
           ↔ ∃ tx, txs m !! summary_hash s = Some tx
                   ∧ hX ∈ tx_hashXs_of tx
                   ∧ summary_fee s = fee tx
                   ∧ (has_unconfirmed_inputs s = true
                      ↔ ∃ po, po ∈ prevouts tx ∧ is_Some (txs m !! po.1)).
Proof.
  intros Hok. eexists. split; [by apply transaction_summaries_fold|].
  assert (Hmap : ∀ (records : list (tx_hash * MemPoolTx)) acc,
            foldl (λ result item,
                     result ++ [mkMemPoolTxSummary item.1 (fee item.2)
                                  (has_ui m item.2)]) acc records
            = acc ++ ((λ item, mkMemPoolTxSummary item.1 (fee item.2)
                                 (has_ui m item.2)) <$> records)).
  { induction records as [|item records IH]; intros acc; simpl.
    - by rewrite app_nil_r.
    - by rewrite IH, <- app_assoc. }
  rewrite Hmap. simpl.
  assert (Hui : ∀ tx, has_ui m tx = true
                      ↔ ∃ po, po ∈ prevouts tx ∧ is_Some (txs m !! po.1)).
  { intros tx. unfold has_ui. rewrite <- Is_true_true, existb_True.
    rewrite Exists_exists. split.
    - intros (po & Hpo & Hin). exists po. split; [done|].
      by apply bool_decide_unpack in Hin.
    - intros (po & Hpo & Hin). exists po. split; [done|].
      by apply bool_decide_pack. }
  split.
  - rewrite <- list_fmap_compose.
    replace (summary_hash ∘ _) with (fst : tx_hash * MemPoolTx → tx_hash)
      by done.
    by apply NoDup_touching_records.
  - intros s. rewrite list_elem_of_fmap. split.
    + intros ([h tx] & -> & Hin). simpl.
      apply elem_of_touching_records in Hin as [Htx Hsh]; [|done].
      exists tx. by rewrite Hui.
    + intros (tx & Htx & Hsh & Hfee & Hs). exists (summary_hash s, tx).
      split; [|by apply elem_of_touching_records].
      destruct s as [h f ui]. simpl in *. f_equal; [done|].
      destruct ui, (has_ui m tx) eqn:Hh; try done.
      * apply proj1 in Hs. specialize (Hs eq_refl). apply Hui in Hs.
        congruence.
      * apply Hui, Hs in Hh. done.
Qed.

(** X25.  On a mempool whose index mirrors [txs], [unordered_UTXOs(hashX)]
    lists, once each, the coin out_pairs with the script hash of all
    transactions of the mempool, each with the hash of its transaction, its
    position among the out_pairs and its value, and with -1 and 0 as
    transaction number and height; [unordered_ASSETs(hashX)] lists the
    asset out_pairs in the same way, with their names. *)
Theorem unordered_UTXOs_are_the_out_pairs_of_the_script_hash
    (m : MemPool) (hX : hashX) :
  index_ok m →
  ∃ utxos assets,
    unordered_UTXOs m hX = Answer utxos
    ∧ unordered_ASSETs m hX = Answer assets
    ∧ NoDup utxos
    ∧ NoDup assets
    ∧ (∀ tx_num pos h height value,
         (tx_num, pos, h, height, value) ∈ utxos
         ↔ tx_num = -1 ∧ height = 0
           ∧ ∃ tx name, txs m !! h = Some tx
               ∧ out_pairs tx !! pos = Some (hX, value, false, name))
    ∧ (∀ tx_num pos h height name value,
         (tx_num, pos, h, height, name, value) ∈ assets
         ↔ tx_num = -1 ∧ height = 0
           ∧ ∃ tx, txs m !! h = Some tx
               ∧ out_pairs tx !! pos = Some (hX, value, true, name)).
Proof.
  intros Hok. eexists _, _.
  split; [by apply unordered_UTXOs_fold|].
  split; [by apply unordered_ASSETs_fold|].
  rewrite !foldl_app_bind. simpl.
  assert (Hpays : ∀ h tx pos value is_asset name,
            txs m !! h = Some tx →
            out_pairs tx !! pos = Some (hX, value, is_asset, name) →
            (h, tx) ∈ touching_records m hX).
  { intros h tx pos value is_asset name Htx Hpos.
    apply elem_of_touching_records; [done|]. split; [done|].
    unfold tx_hashXs_of. rewrite fmap_app. apply elem_of_app. right.
    apply list_elem_of_fmap. eexists. split; [|by eapply list_elem_of_lookup_2].
    done. }
  split_and!.
  - apply NoDup_bind; [| |by apply NoDup_touching_records_pairs].
    + intros [h1 tx1] [h2 tx2] y H1 H2 Hy1 Hy2.
      unfold utxos_of in Hy1, Hy2. simpl in Hy1, Hy2.
      apply list_elem_of_omap in Hy1 as ([pos1 p1] & _ & Hy1).
      apply list_elem_of_omap in Hy2 as ([pos2 p2] & _ & Hy2).
      destruct (_ && _); [|done]. destruct (_ && _); [|done].
      injection Hy1 as <-. injection Hy2 as _ <- _. f_equal.
      by eapply touching_records_functional.
    + intros [h tx] _. unfold utxos_of. simpl.
      apply NoDup_omap_positions; [apply NoDup_enumerate|].
      intros [pos1 p1] [pos2 p2] y Hy1 Hy2.
      destruct (_ && _); [|done]. destruct (_ && _); [|done].
      injection Hy1 as <-. by injection Hy2 as <- _.
  - apply NoDup_bind; [| |by apply NoDup_touching_records_pairs].
    + intros [h1 tx1] [h2 tx2] y H1 H2 Hy1 Hy2.
      unfold assets_of in Hy1, Hy2. simpl in Hy1, Hy2.
      apply list_elem_of_omap in Hy1 as ([pos1 p1] & _ & Hy1).
      apply list_elem_of_omap in Hy2 as ([pos2 p2] & _ & Hy2).
      destruct (_ && _); [|done]. destruct (_ && _); [|done].
      injection Hy1 as <-. injection Hy2 as _ <- _ _. f_equal.
      by eapply touching_records_functional.
    + intros [h tx] _. unfold assets_of. simpl.
      apply NoDup_omap_positions; [apply NoDup_enumerate|].
      intros [pos1 p1] [pos2 p2] y Hy1 Hy2.
      destruct (_ && _); [|done]. destruct (_ && _); [|done].
      injection Hy1 as <-. by injection Hy2 as <- _.
  - intros tx_num pos h height value. rewrite list_elem_of_bind. split.
    + intros ([h' tx] & Hy & Hin). unfold utxos_of in Hy. simpl in Hy.
      apply list_elem_of_omap in Hy as ([pos' p] & Hp & Hy).
      apply enumerate_lookup in Hp.
      destruct (bool_decide (pair_hashX p = hX)) eqn:Hsh; [|done].
      destruct (pair_is_asset p) eqn:Has; [done|]. simpl in Hy.
      injection Hy as <- <- <- <- <-.
      apply bool_decide_eq_true in Hsh.
      apply elem_of_touching_records in Hin as [Htx _]; [|done].
      split_and!; [done..|]. exists tx, (pair_name p). split; [done|].
      rewrite Hp. f_equal. destruct p as [[[sh v] a] n].
      unfold pair_hashX, pair_is_asset in *. simpl in *. by subst.
    + intros (-> & -> & tx & name & Htx & Hpos).
      exists (h, tx). split; [|by eapply Hpays].
      unfold utxos_of. simpl. apply list_elem_of_omap.
      exists (pos, (hX, value, false, name)).
      split; [by apply enumerate_lookup|].
      unfold pair_hashX, pair_is_asset, pair_value. simpl.
      by rewrite bool_decide_eq_true_2.
  - intros tx_num pos h height name value. rewrite list_elem_of_bind. split.
    + intros ([h' tx] & Hy & Hin). unfold assets_of in Hy. simpl in Hy.
      apply list_elem_of_omap in Hy as ([pos' p] & Hp & Hy).
      apply enumerate_lookup in Hp.
      destruct (bool_decide (pair_hashX p = hX)) eqn:Hsh; [|done].
      destruct (pair_is_asset p) eqn:Has; [|done]. simpl in Hy.
      injection Hy as <- <- <- <- <- <-.
      apply bool_decide_eq_true in Hsh.
      apply elem_of_touching_records in Hin as [Htx _]; [|done].
      split_and!; [done..|]. exists tx. split; [done|].
      rewrite Hp. f_equal. destruct p as [[[sh v] a] n].
      unfold pair_hashX, pair_is_asset in *. simpl in *. by subst.
    + intros (-> & -> & tx & Htx & Hpos).
      exists (h, tx). split; [|by eapply Hpays].
      unfold assets_of. simpl. apply list_elem_of_omap.
      exists (pos, (hX, value, true, name)).
      split; [by apply enumerate_lookup|].
      unfold pair_hashX, pair_is_asset, pair_value, pair_name. simpl.
      by rewrite bool_decide_eq_true_2.
Qed.

(** * The histogram builder: [_update_histogram] (lines 192-206) *)

Section UpdateHistogram.
Context {rate : Type} `{EqDecision rate}.
Context (rate_le : relation rate) `{!RelDecision rate_le}.
Context {num : Type} (is_positive : num → bool) (gt_twice gt : Z → num → bool)
        (times_1_1 : num → result num).
(** Lines 196-201: [math.floor(10 * (tx.fee / tx.size)) / 10], the fee rate
    rounded down to a tenth, or the exception the expression raises
    ([ZeroDivisionError] when [tx.size] is zero).  What is proved below
    holds whatever this function is. *)
Variable fee_rate_of : Z → Z → result rate.

(** How a call ends: it assigns [cached_compact_histogram], or it raises
    what the fee rate of a transaction or the compactor raised. *)
Inductive update_outcome : Type :=
  | Cached (compact : list (rate * Z))
  | Failed (e : exn).

(** Lines 196-202: [histogram[fee_rate] += tx.size] on a
    [defaultdict(int)]. *)
Definition histogram_add (histogram : list (rate * Z)) (tx : MemPoolTx)
  : result (list (rate * Z)) :=
  fee_rate ← fee_rate_of (fee tx) (tx_size tx);
  mret (dict_set fee_rate
          (default 0 (dict_get fee_rate histogram) + tx_size tx) histogram).

(** Lines 195-202. *)
Fixpoint build_histogram (histogram : list (rate * Z))
    (values : list MemPoolTx) : result (list (rate * Z)) :=
  match values with
  | [] => mret histogram
  | tx :: rest =>
      histogram' ← histogram_add histogram tx;
      build_histogram histogram' rest
  end.

(** Lines 192-206; [values] is [self.txs.values()] in the order of the
    dict. *)
Definition _update_histogram (values : list MemPoolTx) (bin_size : num)
  : update_outcome :=
  match
    histogram ← build_histogram [] values;
    _compress_histogram rate_le is_positive gt_twice gt times_1_1
      histogram bin_size
  with
  | Returned compact => Cached compact
  | Raised e => Failed e
  end.

Lemma sum_sizes_dict_set (k : rate) (size : Z) (d : list (rate * Z)) :
  sum_sizes (dict_set k (default 0 (dict_get k d) + size) d)
  = sum_sizes d + size.
Proof.
  induction d as [|[k' v'] d IH]; simpl; [lia|].
  case_decide; simpl; [lia|]. rewrite IH. lia.
Qed.

Lemma dict_get_elem (k : rate) (v : Z) (d : list (rate * Z)) :
  dict_get k d = Some v → (k, v) ∈ d.
Proof.
  induction d as [|[k' v'] d IH]; simpl; [done|].
  case_decide; subst.
  - intros [= ->]. by left.
  - intros Hget. right. by apply IH.
Qed.

(** What the loop keeps true of the histogram: distinct keys, each the fee
    rate of a transaction, sizes that are not negative and add up to the
    sizes of the transactions counted so far. *)
Definition histogram_inv (counted : list MemPoolTx)
    (histogram : list (rate * Z)) : Prop :=
  NoDup histogram.*1
  ∧ (∀ k, k ∈ histogram.*1 →
       ∃ tx, tx ∈ counted ∧ fee_rate_of (fee tx) (tx_size tx) = Returned k)
  ∧ ((∀ tx, tx ∈ counted → 0 ≤ tx_size tx) →
     Forall (λ e, 0 ≤ e.2) histogram)
  ∧ sum_sizes histogram = sum_list (tx_size <$> counted).

Lemma histogram_add_inv counted histogram tx histogram' :
  histogram_inv counted histogram →
  histogram_add histogram tx = Returned histogram' →
  histogram_inv (counted ++ [tx]) histogram'.
Proof.
  intros (Hnd & Hkeys & Hpos & Hsum). unfold histogram_add.
  destruct (fee_rate_of (fee tx) (tx_size tx)) as [k|] eqn:Hk; [|done].
  simpl. intros [= <-]. split_and!.
  - by apply dict_set_NoDup.
  - intros k' [->|Hin]%dict_set_keys.
    + exists tx. split; [|done]. apply elem_of_app. right. by left.
    + destruct (Hkeys _ Hin) as (tx' & ? & ?). exists tx'.
      split; [|done]. apply elem_of_app. by left.
  - intros Hall. apply Forall_forall. intros e He.
    assert (Hold : Forall (λ e, 0 ≤ e.2) histogram).
    { apply Hpos. intros tx' Htx'. apply Hall, elem_of_app. by left. }
    apply dict_set_elem in He as [->|He];
      [|by apply (proj1 (Forall_forall _ _) Hold)].
    simpl. assert (0 ≤ tx_size tx).
    { apply Hall, elem_of_app. right. by left. }
    destruct (dict_get k histogram) as [v|] eqn:Hget; simpl; [|lia].
    apply dict_get_elem in Hget.
    pose proof (proj1 (Forall_forall _ _) Hold _ Hget). simpl in *. lia.
  - rewrite sum_sizes_dict_set, Hsum, fmap_app. unfold sum_list.
    rewrite foldr_app. simpl.
    generalize (tx_size <$> counted). intros l.
    induction l as [|x l IH]; simpl; lia.
Qed.

Lemma build_histogram_inv counted histogram values histogram' :
  histogram_inv counted histogram →
  build_histogram histogram values = Returned histogram' →
  histogram_inv (counted ++ values) histogram'.
Proof.
  revert counted histogram.
  induction values as [|tx values IH]; intros counted histogram Hinv; simpl.
  - intros [= <-]. by rewrite app_nil_r.
  - destruct (histogram_add histogram tx) as [h1|] eqn:Hadd; [|done].
    simpl. intros Hrest.
    replace (counted ++ tx :: values) with ((counted ++ [tx]) ++ values)
      by (by rewrite <- app_assoc).
    eapply IH; [|done]. by eapply histogram_add_inv.
Qed.

Lemma elem_of_concat {A} (x : A) (ls : list (list A)) (l : list A) :
  l ∈ ls → x ∈ l → x ∈ concat ls.
Proof.
  induction ls as [|l' ls IH]; simpl; [by intros ?%elem_of_nil|].
  intros [->|Hl]%elem_of_cons Hx; apply elem_of_app; [by left|].
  right. by apply IH.
Qed.

Lemma sum_sizes_concat (runs : list (list (rate * Z))) (rest : list (rate * Z)) :
  Forall (λ e, 0 ≤ e.2) (concat runs ++ rest) →
  sum_sizes (concat runs) ≤ sum_sizes (concat runs ++ rest).
Proof.
  rewrite sum_sizes_app. intros [_ Hrest]%Forall_app.
  assert (0 ≤ sum_sizes rest); [|lia].
  induction Hrest as [|e rest He _ IH]; simpl; lia.
Qed.

Lemma sum_sizes_buckets (runs : list (list (rate * Z)))
    (buckets : list (rate * Z)) :
  Forall2 (bucket_of (rate:=rate)) runs buckets →
  sum_sizes buckets = sum_sizes (concat runs).
Proof.
  induction 1 as [|run bucket runs buckets (front & size & _ & Hb) _ IH];
    simpl; [done|].
  rewrite sum_sizes_app, IH. lia.
Qed.

(** X26.  What [_update_histogram] assigns to [cached_compact_histogram]
    has strictly decreasing fee rates, each the rounded fee rate of a
    transaction of the mempool, and when no transaction has a negative
    size, the sizes of its pairs add up to at most the total size of the
    transactions: the histogram the loop builds has one entry for each fee
    rate, so the compactor is given distinct keys. *)
Theorem cached_histogram_is_strictly_decreasing
    `{!Transitive rate_le} `{!Total rate_le}
    (values : list MemPoolTx) (bin_size : num) (compact : list (rate * Z)) :
  _update_histogram values bin_size = Cached compact →
  StronglySorted (rate_gt rate_le) compact
  ∧ (∀ bucket, bucket ∈ compact →
       ∃ tx, tx ∈ values
             ∧ fee_rate_of (fee tx) (tx_size tx) = Returned bucket.1)
  ∧ ((∀ tx, tx ∈ values → 0 ≤ tx_size tx) →
     sum_sizes compact ≤ sum_list (tx_size <$> values)).
Proof.
  unfold _update_histogram.
  destruct (build_histogram [] values) as [histogram|] eqn:Hbuild; [|done].
  destruct (build_histogram_inv [] [] values histogram)
    as (Hnd & Hkeys & Hpos & Hsum); [|done|].
  { split_and!; [constructor| |by constructor|done].
    intros k Hk. by apply elem_of_nil in Hk. }
  simpl in Hkeys, Hpos, Hsum. simpl.
  destruct (_compress_histogram _ _ _ _ _ histogram bin_size)
    as [compacted|] eqn:Hcompress; [|done].
  intros [= <-].
  destruct (compress_histogram_returned _ _ _ _ _ _ _ _ Hcompress)
    as (w & Hloop & ->).
  destruct (compress_items_runs gt_twice gt times_1_1 _ _ [] _ Hloop)
    as (runs & residue & Hwalked & Hruns & _).
  { exists [], []. split_and!; [done|constructor|done|done]. }
  simpl in Hwalked.
  assert (Hperm : sorted_reverse rate_le histogram ≡ₚ histogram)
    by apply merge_sort_Permutation.
  split_and!.
  - apply (compress_items_descending rate_le gt_twice gt times_1_1
             _ _ _ Hloop).
    + by apply sorted_reverse_strict.
    + split_and!; simpl; [constructor| |done].
      intros e x He. by apply elem_of_nil in He.
  - intros bucket Hb. apply Hkeys.
    apply (list_elem_of_lookup_1 _ _) in Hb as [i Hi].
    destruct (Forall2_lookup_r _ _ _ _ _ Hruns Hi)
      as (run & Hrun & front & size & -> & _).
    apply list_elem_of_fmap. exists (bucket.1, size). split; [done|].
    rewrite <- Hperm, Hwalked. apply elem_of_app. left.
    apply (elem_of_concat _ _ (front ++ [(bucket.1, size)]));
      [by eapply list_elem_of_lookup_2|].
    apply elem_of_app. right. by left.
  - intros Hall. rewrite (sum_sizes_buckets _ _ Hruns), <- Hsum.
    rewrite <- (sum_sizes_Permutation _ _ Hperm), Hwalked.
    apply sum_sizes_concat. rewrite <- Hwalked, Hperm. by apply Hpos.
Qed.
End UpdateHistogram.

(** *** [asset_balance_delta] *)

Lemma dict_get_set_ne {K V} `{EqDecision K} (k k' : K) (v : V)
    (d : list (K * V)) :
  k ≠ k' → dict_get k' (dict_set k v d) = dict_get k' d.
Proof.
  intros Hne. induction d as [|[k0 v0] d IH]; simpl.
  - by rewrite decide_False by (by intros ->).
  - destruct (decide (k = k0)) as [->|Hk]; simpl.
    + by rewrite !decide_False by (by intros ->).
    + by rewrite IH.
Qed.

Lemma sum_list_cons (x : Z) (l : list Z) : sum_list (x :: l) = x + sum_list l.
Proof. done. Qed.

Lemma sum_list_misses {A} (hit : A → bool) (amount : A → Z) (l : list A) :
  (∀ a, hit a = false → amount a = 0) →
  existsb hit l = false → sum_list (amount <$> l) = 0.
Proof.
  intros Hmiss. induction l as [|a l IH]; [done|]. cbn [existsb].
  intros [Ha Hl]%orb_false_elim.
  rewrite fmap_cons, sum_list_cons, (Hmiss _ Ha), IH; [lia|done].
Qed.

(** A fold that counts: each element that hits adds its amount to the
    number read by [get], which starts from zero when there is none. *)
Lemma counting_fold {R A} (step : R → A → R) (hit : A → bool)
    (amount : A → Z) (get : R → option Z) :
  (∀ r a, get (step r a)
          = if hit a then Some (default 0 (get r) + amount a) else get r) →
  (∀ a, hit a = false → amount a = 0) →
  ∀ l r, get (foldl step r l)
         = if existsb hit l
           then Some (default 0 (get r) + sum_list (amount <$> l))
           else get r.
Proof.
  intros Hstep Hmiss l. induction l as [|a l IH]; intros r; [done|].
  cbn [foldl existsb]. rewrite IH, Hstep, fmap_cons, sum_list_cons.
  destruct (hit a) eqn:Ha; simpl.
  - destruct (existsb hit l) eqn:Hl; f_equal; [lia|].
    rewrite (sum_list_misses hit amount l Hmiss Hl). lia.
  - rewrite (Hmiss _ Ha). destruct (existsb hit l); [|done].
    f_equal; lia.
Qed.

Section AssetBalance.
Variable m : MemPool.
Variable hX : hashX.
Variable name : option string.

(** The pair is an asset pair of [hX] for the asset [name]. *)
Definition is_named (p : io_pair) : bool :=
  bool_decide (pair_hashX p = hX) && pair_is_asset p
  && bool_decide (pair_name p = name).

(** The units of [name] that the pairs hold at [hX]. *)
Definition asset_at (pairs : list io_pair) : Z :=
  sum_list ((λ p, if is_named p then pair_value p else 0) <$> pairs).

(** What one transaction adds to the units of [name] at [hX], and whether
    it has a pair for them. *)
Definition asset_delta_at (tx : MemPoolTx) : Z :=
  asset_at (out_pairs tx) - asset_at (default [] (in_pairs tx)).
Definition mentions (tx : MemPoolTx) : bool :=
  existsb is_named (default [] (in_pairs tx)) || existsb is_named (out_pairs tx).

Lemma add_asset_get sign ret p :
  dict_get name (add_asset hX sign ret p)
  = if is_named p
    then Some (default 0 (dict_get name ret)
               + sign * (if is_named p then pair_value p else 0))
    else dict_get name ret.
Proof.
  unfold add_asset, is_named.
  destruct (bool_decide (pair_hashX p = hX) && pair_is_asset p); [|done].
  simpl. case_bool_decide as Hname.
  - subst name. destruct (dict_get (pair_name p) ret) as [old|]; simpl;
      by rewrite dict_get_set.
  - destruct (dict_get (pair_name p) ret); by rewrite dict_get_set_ne.
Qed.

Lemma foldl_add_asset_get sign pairs ret :
  dict_get name (foldl (add_asset hX sign) ret pairs)
  = if existsb is_named pairs
    then Some (default 0 (dict_get name ret) + sign * asset_at pairs)
    else dict_get name ret.
Proof.
  rewrite (counting_fold (add_asset hX sign) is_named
             (λ p, sign * (if is_named p then pair_value p else 0))
             (dict_get name)).
  - destruct (existsb is_named pairs); [|done]. f_equal. f_equal.
    unfold asset_at. induction pairs as [|p pairs IH]; [cbn; lia|].
    rewrite !fmap_cons, !sum_list_cons, IH. lia.
  - intros r a. apply add_asset_get.
  - intros a ->. lia.
Qed.

Lemma asset_at_unnamed pairs : existsb is_named pairs = false → asset_at pairs = 0.
Proof.
  unfold asset_at. apply sum_list_misses. by intros p ->.
Qed.

(** Lines 577-588 for one transaction. *)
Lemma record_add_asset_get ret (tx : MemPoolTx) :
  dict_get name
    (foldl (add_asset hX 1)
       (foldl (add_asset hX (-1)) ret (default [] (in_pairs tx)))
       (out_pairs tx))
  = if mentions tx
    then Some (default 0 (dict_get name ret) + asset_delta_at tx)
    else dict_get name ret.
Proof.
  rewrite !foldl_add_asset_get. unfold mentions, asset_delta_at.
  destruct (existsb is_named (default [] (in_pairs tx))) eqn:Hin,
           (existsb is_named (out_pairs tx)) eqn:Hout; simpl.
  - f_equal. lia.
  - f_equal. rewrite (asset_at_unnamed _ Hout). lia.
  - f_equal. rewrite (asset_at_unnamed _ Hin). lia.
  - done.
Qed.

Lemma add_asset_NoDup sign ret p :
  NoDup ret.*1 → NoDup (add_asset hX sign ret p).*1.
Proof.
  intros Hnd. unfold add_asset. destruct (_ && _); [|done].
  destruct (dict_get _ _); by apply dict_set_NoDup.
Qed.

Lemma foldl_add_asset_NoDup sign pairs ret :
  NoDup ret.*1 → NoDup (foldl (add_asset hX sign) ret pairs).*1.
Proof.
  revert ret. induction pairs as [|p pairs IH]; intros ret Hnd; simpl;
    [done|].
  by apply IH, add_asset_NoDup.
Qed.

Lemma mentions_touches tx : mentions tx = true → hX ∈ tx_hashXs_of tx.
Proof.
  unfold mentions, tx_hashXs_of. rewrite fmap_app, elem_of_app.
  intros [Hin|Hout]%orb_prop; [left|right].
  - apply Is_true_true, existb_True, Exists_exists in Hin as (p & Hp & Hn).
    apply list_elem_of_fmap. exists p. split; [|done].
    unfold is_named in Hn. apply Is_true_true in Hn.
    apply andb_prop in Hn as [Hn _]. apply andb_prop in Hn as [Hn _].
    symmetry. by apply bool_decide_eq_true in Hn.
  - apply Is_true_true, existb_True, Exists_exists in Hout as (p & Hp & Hn).
    apply list_elem_of_fmap. exists p. split; [|done].
    unfold is_named in Hn. apply Is_true_true in Hn.
    apply andb_prop in Hn as [Hn _]. apply andb_prop in Hn as [Hn _].
    symmetry. by apply bool_decide_eq_true in Hn.
Qed.

Lemma asset_delta_at_unmentioned tx : mentions tx = false → asset_delta_at tx = 0.
Proof.
  unfold mentions, asset_delta_at. intros [Hin Hout]%orb_false_elim.
  by rewrite !asset_at_unnamed.
Qed.

Lemma sum_list_asset_filter (records : list (tx_hash * MemPoolTx)) :
  sum_list (asset_delta_at <$> (filter (λ item, hX ∈ tx_hashXs_of item.2)
                                  records).*2)
  = sum_list (asset_delta_at <$> records.*2).
Proof.
  induction records as [|item records IH]; [done|].
  rewrite filter_cons. case_decide as Hin.
  - by rewrite !fmap_cons, !sum_list_cons, IH.
  - rewrite IH, !fmap_cons, sum_list_cons.
    rewrite asset_delta_at_unmentioned; [done|].
    destruct (mentions item.2) eqn:Hm; [|done].
    by apply mentions_touches in Hm.
Qed.
End AssetBalance.

(** X27.  On a mempool whose index mirrors [txs], the dict
    [asset_balance_delta(hashX)] returns has a key for an asset name
    exactly when some transaction of the mempool has an asset in_pair or
    out_pair of that name with the script hash, and the value under the key
    is the sum, over all transactions of the mempool, of the units their
    out_pairs give the script hash minus the units their in_pairs take from
    it. *)
Theorem asset_balance_delta_is_the_sum_over_the_mempool
    (m : MemPool) (hX : hashX) :
  index_ok m →
  ∃ ret,
    asset_balance_delta m hX = Answer ret
    ∧ NoDup ret.*1
    ∧ ∀ name v,
        dict_get name ret = Some v
        ↔ v = sum_list (asset_delta_at hX name <$> (map_to_list (txs m)).*2)
          ∧ ∃ h tx, txs m !! h = Some tx ∧ mentions hX name tx = true.
Proof.
  intros Hok. eexists. split; [by apply asset_balance_delta_fold|].
  set (body := λ (ret : list (option string * Z)) (item : tx_hash * MemPoolTx),
         foldl (add_asset hX 1)
           (foldl (add_asset hX (-1)) ret (default [] (in_pairs item.2)))
           (out_pairs item.2)).
  split.
  - assert (Hnd : ∀ records ret, NoDup ret.*1 →
                                 NoDup (foldl body ret records).*1).
    { induction records as [|item records IH]; intros ret Hret; simpl;
        [done|].
      apply IH. unfold body. by do 2 apply foldl_add_asset_NoDup. }
    apply Hnd. constructor.
  - intros name v.
    rewrite (counting_fold body (λ item, mentions hX name item.2)
               (λ item, asset_delta_at hX name item.2) (dict_get name)).
    + simpl.
      assert (Hsum : sum_list ((λ item : tx_hash * MemPoolTx,
                                  asset_delta_at hX name item.2)
                               <$> touching_records m hX)
                     = sum_list (asset_delta_at hX name
                                 <$> (map_to_list (txs m)).*2)).
      { transitivity (sum_list (asset_delta_at hX name
                                <$> (touching_records m hX).*2)).
        { by rewrite <- list_fmap_compose. }
        rewrite <- (sum_list_asset_filter hX name (map_to_list (txs m))).
        apply sum_list_Permutation. do 2 apply fmap_Permutation.
        by apply touching_records_filter. }
      rewrite Hsum, Z.add_0_l.
      destruct (existsb _ (touching_records m hX)) eqn:Hex.
      * apply Is_true_true, existb_True, Exists_exists in Hex
          as ([h tx] & Hin & Hm).
        apply elem_of_touching_records in Hin as [Htx _]; [|done].
        apply Is_true_true in Hm. split.
        -- intros [= <-]. split; [done|]. by exists h, tx.
        -- by intros [-> _].
      * split; [done|]. intros (_ & h & tx & Htx & Hm). exfalso.
        assert (Hin : (h, tx) ∈ touching_records m hX).
        { apply elem_of_touching_records; [done|]. split; [done|].
          by eapply mentions_touches. }
        assert (Hex' : existsb (λ item : tx_hash * MemPoolTx,
                                  mentions hX name item.2)
                         (touching_records m hX) = true).
        { apply Is_true_true, existb_True, Exists_exists.
          exists (h, tx). split; [done|]. by apply Is_true_true. }
        congruence.
    + intros r item. apply record_add_asset_get.
    + intros item. apply asset_delta_at_unmentioned.
Qed.

(** * Worked instances *)

(** The mempools of the five refreshes of [Demo] are reachable. *)
Lemma after1_reachable : reachable Demo.the_lib (pool Demo.after1).
Proof.
  apply (reachable_after_run Demo.the_lib Demo.refresh1 Demo.empty_heap
           (mempool_hashes Demo.refresh1) 100 Demo.after1
           [(Demo.t, mkMemPoolTx [(Demo.p, 0%nat)] None
                       [(Demo.sh, 500, true, Some "FOO"%string)] 0 250)]).
  - apply reachable_init.
  - by vm_compute.
Qed.

Lemma after2_reachable : reachable Demo.the_lib (pool Demo.after2).
Proof.
  apply (reachable_after_run Demo.the_lib Demo.refresh2 Demo.after1
           (mempool_hashes Demo.refresh2) 100 Demo.after2 []).
  - apply after1_reachable.
  - by vm_compute.
Qed.

Lemma after3_reachable : reachable Demo.the_lib (pool Demo.after3).
Proof.
  apply (reachable_after_run Demo.the_lib Demo.refresh3 Demo.after2
           (mempool_hashes Demo.refresh3) 100 Demo.after3 []).
  - apply after2_reachable.
  - by vm_compute.
Qed.

Lemma after4_reachable : reachable Demo.the_lib (pool Demo.after4).
Proof.
  apply (reachable_after_run Demo.the_lib Demo.refresh4 Demo.after3
           (mempool_hashes Demo.refresh4) 100 Demo.after4 []).
  - apply after3_reachable.
  - by vm_compute.
Qed.

(** The mempool holds u; the daemon reports nothing. *)
Lemma eviction_completes_on_a_reachable_mempool_witness :
  reachable Demo.the_lib (pool Demo.after2)
  ∧ ∃ hp1,
      evict_all (mkHeap (pool Demo.after2) ∅ ∅)
        (elements (dom (txs (pool Demo.after2)) ∖ ∅)) = (hp1, None)
      ∧ ∀ h, txs (pool hp1) !! h
             = if decide (h ∈ (∅ : gset tx_hash))
               then txs (pool Demo.after2) !! h else None.
Proof.
  split; [exact after2_reachable|].
  exact (eviction_completes_on_a_reachable_mempool Demo.the_lib
           (pool Demo.after2) ∅ ∅ ∅ after2_reachable).
Defined.

(** The daemon reports t but has no raw bytes for it, and the DB answers
    [None] for a prevout. *)
Lemma run_on_a_reachable_mempool_raises_no_KeyError_witness :
  reachable Demo.the_lib MemPool_init
  ∧ _process_mempool Demo.the_lib Demo.db_aligned Demo.empty_heap
      {[Demo.t]} 100
    = ((_process_mempool Demo.the_lib Demo.db_aligned Demo.empty_heap
          {[Demo.t]} 100).1, Raised TypeError)
  ∧ ((TypeError = DBSyncError ∧ 100 ≠ db_height Demo.db_aligned)
     ∨ ((TypeError = TypeError ∨ TypeError = IndexError)
        ∧ 100 = db_height Demo.db_aligned
        ∧ ∃ h, h ∈ ({[Demo.t]} : gset tx_hash)
               ∧ txs MemPool_init !! h = None)).
Proof.
  assert (H1 : reachable Demo.the_lib MemPool_init) by constructor.
  assert (H2 : _process_mempool Demo.the_lib Demo.db_aligned Demo.empty_heap
                 {[Demo.t]} 100
               = ((_process_mempool Demo.the_lib Demo.db_aligned
                     Demo.empty_heap {[Demo.t]} 100).1, Raised TypeError))
    by (by vm_compute).
  split; [exact H1|]. split; [exact H2|].
  exact (run_on_a_reachable_mempool_raises_no_KeyError Demo.the_lib
           Demo.db_aligned MemPool_init ∅ ∅ {[Demo.t]} 100 _ TypeError H1 H2).
Defined.

(** The third refresh: u has left the daemon's mempool. *)
Lemma run_keeps_exactly_the_reported_transactions_witness :
  Demo.run Demo.refresh3 Demo.after2 = (Demo.after3, Returned [])
  ∧ (∀ h, is_Some (txs (pool Demo.after3) !! h) →
          h ∈ mempool_hashes Demo.refresh3)
  ∧ (∀ h tx, txs (pool Demo.after2) !! h = Some tx →
       txs (pool Demo.after3) !! h
       = if decide (h ∈ mempool_hashes Demo.refresh3) then Some tx else None).
Proof.
  assert (H : Demo.run Demo.refresh3 Demo.after2 = (Demo.after3, Returned []))
    by (by vm_compute).
  split; [exact H|].
  exact (run_keeps_exactly_the_reported_transactions Demo.the_lib
           Demo.refresh3 Demo.after2 (mempool_hashes Demo.refresh3) 100
           Demo.after3 [] H).
Defined.

(** The record of t after the fourth refresh: it spends 50 and pays none
    of it on. *)
Lemma records_of_a_reachable_mempool_are_accepted_witness :
  reachable Demo.the_lib (pool Demo.after4)
  ∧ txs (pool Demo.after4) !! Demo.t
    = Some (mkMemPoolTx [(Demo.p, 0%nat)] (Some [(6%N, 50, false, None)])
              [(Demo.sh, 500, true, Some "FOO"%string)] 50 250)
  ∧ ∃ ins,
      Some [(6%N, 50, false, None)] = Some ins
      ∧ length ins = length [(Demo.p, 0%nat)]
      ∧ 50 = Z.max 0 (native_sum ins
                      - native_sum [(Demo.sh, 500, true, Some "FOO"%string)])
      ∧ 0 ≤ 50.
Proof.
  assert (H : txs (pool Demo.after4) !! Demo.t
              = Some (mkMemPoolTx [(Demo.p, 0%nat)]
                        (Some [(6%N, 50, false, None)])
                        [(Demo.sh, 500, true, Some "FOO"%string)] 50 250))
    by (by vm_compute).
  split; [exact after4_reachable|]. split; [exact H|].
  exact (records_of_a_reachable_mempool_are_accepted Demo.the_lib
           (pool Demo.after4) Demo.t _ after4_reachable H).
Defined.

(** The fourth refresh: t is accepted. *)
Lemma touched_holds_every_changed_script_hash_witness :
  Demo.run Demo.refresh4 Demo.after3 = (Demo.after4, Returned [])
  ∧ h_touched Demo.after3 ⊆ h_touched Demo.after4
  ∧ h_assets_touched Demo.after3 ⊆ h_assets_touched Demo.after4
  ∧ ∀ sh, hashXs (pool Demo.after4) !! sh ≠ hashXs (pool Demo.after3) !! sh →
          sh ∈ h_touched Demo.after4.
Proof.
  assert (H : Demo.run Demo.refresh4 Demo.after3 = (Demo.after4, Returned []))
    by (by vm_compute).
  split; [exact H|].
  exact (touched_holds_every_changed_script_hash Demo.the_lib Demo.refresh4
           Demo.after3 (mempool_hashes Demo.refresh4) 100 Demo.after4 [] H).
Defined.

(** The third refresh evicts u, which issued FOO. *)
Lemma eviction_adds_nothing_to_assets_touched_witness :
  mempool_hashes Demo.refresh3 ⊆ dom (txs (pool Demo.after2))
  ∧ Demo.run Demo.refresh3 Demo.after2 = (Demo.after3, Returned [])
  ∧ asset_creates (pool Demo.after2) !! "FOO"%string
    = Some (Demo.FOO_by Demo.u)
  ∧ asset_creates (pool Demo.after3) !! "FOO"%string = None
  ∧ h_assets_touched Demo.after3 = h_assets_touched Demo.after2.
Proof.
  assert (H1 : mempool_hashes Demo.refresh3 ⊆ dom (txs (pool Demo.after2))).
  { intros h Hh. by vm_compute in Hh. }
  assert (H2 : Demo.run Demo.refresh3 Demo.after2
               = (Demo.after3, Returned [])) by (by vm_compute).
  split; [exact H1|]. split; [exact H2|].
  split; [by vm_compute|]. split; [by vm_compute|].
  exact (eviction_adds_nothing_to_assets_touched Demo.the_lib Demo.refresh3
           Demo.after2 (mempool_hashes Demo.refresh3) 100 Demo.after3 _ H1 H2).
Defined.

Lemma asset_entries_are_listed_under_their_source_witness :
  reachable Demo.the_lib (pool Demo.after4)
  ∧ (∀ name stats, asset_creates (pool Demo.after4) !! name = Some stats →
       ∃ names,
         tx_to_asset_create (pool Demo.after4)
           !! source_tx_hash (source stats) = Some names ∧ name ∈ names)
  ∧ (∀ name stats, asset_reissues (pool Demo.after4) !! name = Some stats →
       ∃ names,
         tx_to_asset_reissue (pool Demo.after4)
           !! source_tx_hash (source stats) = Some names ∧ name ∈ names).
Proof.
  split; [exact after4_reachable|].
  exact (asset_entries_are_listed_under_their_source Demo.the_lib
           (pool Demo.after4) after4_reachable).
Defined.

(** The payer of [Demo], accepted into the empty mempool and evicted. *)
Lemma evicting_an_accepted_transaction_restores_the_index_witness :
  index_ok (self Demo.holding_nothing)
  ∧ txs (self Demo.holding_nothing) !! Demo.t = None
  ∧ ∃ hp',
      evict_one
        (heap_of (commit Demo.holding_nothing Demo.t
                    (mkMemPoolTx [Demo.coin_po] None
                       [(Demo.sh, 30, false, None)] 0 100)
                    [(6%N, 50, false, None)])) Demo.t = (hp', None)
      ∧ txs (pool hp') = txs (self Demo.holding_nothing)
      ∧ hashXs (pool hp') = hashXs (self Demo.holding_nothing)
      ∧ (tx_to_asset_create (self Demo.holding_nothing) !! Demo.t = None →
         tx_to_asset_reissue (self Demo.holding_nothing) !! Demo.t = None →
         pool hp' = self Demo.holding_nothing).
Proof.
  assert (H1 : index_ok (self Demo.holding_nothing)) by apply index_ok_init.
  assert (H2 : txs (self Demo.holding_nothing) !! Demo.t = None)
    by reflexivity.
  split; [exact H1|]. split; [exact H2|].
  exact (evicting_an_accepted_transaction_restores_the_index
           Demo.holding_nothing Demo.t _ _ H1 H2).
Defined.

(** The batch of the second refresh: u, with its raw bytes. *)
Lemma digested_record_has_a_group_of_pairs_for_each_output_witness :
  (Demo.u, mkMemPoolTx [] None [(Demo.sh, 500, true, Some "FOO"%string)] 0 200)
    ∈ (deserialize_txs Demo.the_lib [Demo.u] [Some [Demo.B 3]]).1.1
  ∧ ∃ raw,
      (Demo.u, Some raw) ∈ zip [Demo.u] [Some [Demo.B 3]]
      ∧ raw ≠ []
      ∧ digested Demo.the_lib raw
          (mkMemPoolTx [] None [(Demo.sh, 500, true, Some "FOO"%string)] 0 200)
      ∧ (length (outputs (read_tx Demo.the_lib raw).1)
         ≤ length [(Demo.sh, 500, true, Some "FOO"%string)]
         ≤ 2 * length (outputs (read_tx Demo.the_lib raw).1))%nat.
Proof.
  assert (H : (Demo.u, mkMemPoolTx [] None
                         [(Demo.sh, 500, true, Some "FOO"%string)] 0 200)
              ∈ (deserialize_txs Demo.the_lib [Demo.u] [Some [Demo.B 3]]).1.1).
  { vm_compute. apply list_elem_of_here. }
  split; [exact H|].
  exact (digested_record_has_a_group_of_pairs_for_each_output Demo.the_lib
           [Demo.u] [Some [Demo.B 3]] Demo.u _ H).
Defined.

Lemma metadata_entry_names_a_digested_output_witness :
  ("FOO"%string, Demo.FOO_by Demo.u)
    ∈ (deserialize_txs Demo.the_lib [Demo.u] [Some [Demo.B 3]]).1.2
  ∧ ∃ raw,
      (Demo.u, Some raw) ∈ zip [Demo.u] [Some [Demo.B 3]]
      ∧ raw ≠ []
      ∧ (0 < length (outputs (read_tx Demo.the_lib raw).1))%nat
      ∧ -1 = -1.
Proof.
  assert (H : ("FOO"%string, Demo.FOO_by Demo.u)
              ∈ (deserialize_txs Demo.the_lib [Demo.u] [Some [Demo.B 3]]).1.2).
  { vm_compute. apply list_elem_of_here. }
  split; [exact H|].
  exact (metadata_entry_names_a_digested_output Demo.the_lib [Demo.u]
           [Some [Demo.B 3]] ("FOO"%string, Demo.FOO_by Demo.u)
           (or_introl H)).
Defined.

(** The reissue of [Demo] that stops after its quantity. *)
Lemma failed_parse_records_no_metadata_witness :
  let ops := get_ops Demo.the_lib (Demo.asset_script Demo.reissue_cut_short) in
  let l := mkLocals [] [] [] 7 (mkDataParser [] 0) in
  let l' := (asset_portion Demo.the_lib Demo.sh ops 1 Demo.t 0 l).1 in
  asset_portion Demo.the_lib Demo.sh ops 1 Demo.t 0 l = (l', None)
  ∧ asset_meta_creates l' = asset_meta_creates l
  ∧ asset_meta_reissues l' = asset_meta_reissues l
  ∧ (txout_tuple_list l' = txout_tuple_list l
     ∨ ∃ name,
         txout_tuple_list l'
         = txout_tuple_list l ++ [(Demo.sh, value_var l', true, Some name)]).
Proof.
  intros ops l l'.
  assert (H : asset_portion Demo.the_lib Demo.sh ops 1 Demo.t 0 l = (l', None))
    by (by vm_compute).
  split; [exact H|].
  exact (failed_parse_records_no_metadata Demo.the_lib Demo.sh ops 1 Demo.t 0
           l l' H).
Defined.

(** An output paying 5 to the script [OP_1]. *)
Lemma output_without_asset_portion_is_one_coin_pair_witness :
  let txout := mkTxOutput 5 [Demo.B 81] in
  ((∀ op, op ∈ get_ops Demo.the_lib (pk_script txout) →
          op_code op ≠ OP_RVN_ASSET Demo.the_lib)
   ∨ (∃ op, head (get_ops Demo.the_lib (pk_script txout)) = Some op
            ∧ op_code op = OP_RVN_ASSET Demo.the_lib))
  ∧ txout_tuple_list (digest_output Demo.the_lib Demo.t Demo.no_locals
                        (0%nat, txout))
    = txout_tuple_list Demo.no_locals
      ++ [(hashX_from_script Demo.the_lib (pk_script txout), value txout,
           false, None)]
  ∧ asset_meta_creates (digest_output Demo.the_lib Demo.t Demo.no_locals
                          (0%nat, txout))
    = asset_meta_creates Demo.no_locals
  ∧ asset_meta_reissues (digest_output Demo.the_lib Demo.t Demo.no_locals
                           (0%nat, txout))
    = asset_meta_reissues Demo.no_locals.
Proof.
  intros txout.
  assert (H : (∀ op, op ∈ get_ops Demo.the_lib (pk_script txout) →
                     op_code op ≠ OP_RVN_ASSET Demo.the_lib)
              ∨ (∃ op, head (get_ops Demo.the_lib (pk_script txout)) = Some op
                       ∧ op_code op = OP_RVN_ASSET Demo.the_lib)).
  { left. intros op Hop. vm_compute in Hop.
    apply list_elem_of_singleton in Hop as ->. by vm_compute. }
  split; [exact H|].
  exact (output_without_asset_portion_is_one_coin_pair Demo.the_lib Demo.t
           Demo.no_locals 0 txout H).
Defined.

(** The third refresh evicts u, the source of FOO. *)
Lemma evicted_transaction_leaves_no_asset_entry_witness :
  reachable Demo.the_lib (pool Demo.after2)
  ∧ _process_mempool Demo.the_lib Demo.refresh3
      (mkHeap (pool Demo.after2) (h_touched Demo.after2)
         (h_assets_touched Demo.after2))
      (mempool_hashes Demo.refresh3) 100 = (Demo.after3, Returned [])
  ∧ is_Some (txs (pool Demo.after2) !! Demo.u)
  ∧ (Demo.u ∉ mempool_hashes Demo.refresh3)
  ∧ (∀ name stats, asset_creates (pool Demo.after3) !! name = Some stats →
       source_tx_hash (source stats) ≠ Demo.u)
  ∧ (∀ name stats, asset_reissues (pool Demo.after3) !! name = Some stats →
       source_tx_hash (source stats) ≠ Demo.u)
  ∧ tx_to_asset_create (pool Demo.after3) !! Demo.u = None
  ∧ tx_to_asset_reissue (pool Demo.after3) !! Demo.u = None.
Proof.
  assert (H2 : _process_mempool Demo.the_lib Demo.refresh3
                 (mkHeap (pool Demo.after2) (h_touched Demo.after2)
                    (h_assets_touched Demo.after2))
                 (mempool_hashes Demo.refresh3) 100
               = (Demo.after3, Returned [])) by (by vm_compute).
  assert (H3 : is_Some (txs (pool Demo.after2) !! Demo.u))
    by (by vm_compute; eexists).
  assert (H4 : Demo.u ∉ mempool_hashes Demo.refresh3).
  { intros Hin. by vm_compute in Hin. }
  split; [exact after2_reachable|]. split; [exact H2|].
  split; [exact H3|]. split; [exact H4|].
  exact (evicted_transaction_leaves_no_asset_entry Demo.the_lib Demo.refresh3
           (pool Demo.after2) _ _ (mempool_hashes Demo.refresh3) 100
           Demo.after3 [] Demo.u after2_reachable H2 H3 H4).
Defined.

(** Three fee rates (in tenths) with [bin_size = 100]: the bucket of fee
    rate 3.0 is emitted by the pre-flush of the entry at 2.0. *)
Lemma compact_histogram_fee_rates_strictly_decrease_witness :
  NoDup [(20, 300); (40, 250); (30, 50)].*1
  ∧ compress_histogram_py [(20, 300); (40, 250); (30, 50)] (PyInt 100)
    = Returned [(40, 250); (30, 50); (20, 300)]
  ∧ StronglySorted (rate_gt Z.le) [(40, 250); (30, 50); (20, 300)].
Proof.
  assert (H1 : NoDup [(20, 300); (40, 250); (30, 50)].*1).
  { simpl. repeat (apply NoDup_cons_2; [set_solver|]). apply NoDup_nil_2. }
  assert (H2 : compress_histogram_py [(20, 300); (40, 250); (30, 50)]
                 (PyInt 100)
               = Returned [(40, 250); (30, 50); (20, 300)])
    by (by vm_compute).
  split; [exact H1|]. split; [exact H2|].
  exact (compact_histogram_fee_rates_strictly_decrease Z.le py_is_positive
           py_gt_twice py_gt py_times_1_1 _ (PyInt 100) _ H1 H2).
Defined.

Lemma compact_histogram_buckets_are_runs_of_entries_witness :
  NoDup [(20, 300); (40, 250); (30, 50); (10, 60)].*1
  ∧ compress_histogram_py [(20, 300); (40, 250); (30, 50); (10, 60)]
      (PyInt 100)
    = Returned [(40, 250); (30, 50); (20, 300)]
  ∧ ∃ entries runs residue,
      entries ≡ₚ [(20, 300); (40, 250); (30, 50); (10, 60)]
      ∧ StronglySorted (rate_gt Z.le) entries
      ∧ entries = concat runs ++ residue
      ∧ Forall2 (λ run bucket,
                   ∃ front size, run = front ++ [(bucket.1, size)]
                                 ∧ bucket.2 = sum_sizes run)
          runs [(40, 250); (30, 50); (20, 300)].
Proof.
  assert (H1 : NoDup [(20, 300); (40, 250); (30, 50); (10, 60)].*1).
  { simpl. repeat (apply NoDup_cons_2; [set_solver|]). apply NoDup_nil_2. }
  assert (H2 : compress_histogram_py
                 [(20, 300); (40, 250); (30, 50); (10, 60)] (PyInt 100)
               = Returned [(40, 250); (30, 50); (20, 300)])
    by (by vm_compute).
  split; [exact H1|]. split; [exact H2|].
  exact (compact_histogram_buckets_are_runs_of_entries Z.le py_is_positive
           py_gt_twice py_gt py_times_1_1 _ (PyInt 100) _ H1 H2).
Defined.

(** A P2PK script followed by one more opcode. *)
Lemma match_script_against_template_ignores_the_rest_witness :
  let ops := [mkScriptOp 33 34 None; mkScriptOp 172 35 None] in
  let rest := [mkScriptOp 117 36 None] in
  (length (SCRIPTPUBKEY_TEMPLATE_P2PK 172) ≤ length ops)%nat
  ∧ match_script_against_template (Some (ops ++ rest))
      (SCRIPTPUBKEY_TEMPLATE_P2PK 172) = 2
  ∧ match_script_against_template (Some (ops ++ rest))
      (SCRIPTPUBKEY_TEMPLATE_P2PK 172)
    = match_script_against_template (Some ops)
        (SCRIPTPUBKEY_TEMPLATE_P2PK 172).
Proof.
  intros ops rest.
  assert (H : (length (SCRIPTPUBKEY_TEMPLATE_P2PK 172) ≤ length ops)%nat)
    by (simpl; lia).
  split; [exact H|]. split; [by vm_compute|].
  exact (match_script_against_template_ignores_the_rest ops rest
           (SCRIPTPUBKEY_TEMPLATE_P2PK 172) H).
Defined.

(** The mempool after the fourth refresh holds t, which spends 50 of script
    hash 6 and issues 500 FOO to [Demo.sh]. *)
Lemma after4_index_ok : index_ok (pool Demo.after4).
Proof. apply (reachable_index_ok Demo.the_lib), after4_reachable. Qed.

Lemma queries_never_raise_on_a_mirrored_index_witness :
  index_ok (pool Demo.after4)
  ∧ balance_delta (pool Demo.after4) 6%N = Answer (-50)
  ∧ (∃ value, balance_delta (pool Demo.after4) Demo.sh = Answer value)
  ∧ (∃ ret, asset_balance_delta (pool Demo.after4) Demo.sh = Answer ret)
  ∧ (∃ result, potential_spends (pool Demo.after4) Demo.sh = Answer result)
  ∧ (∃ result,
       transaction_summaries (pool Demo.after4) Demo.sh = Answer result)
  ∧ (∃ utxos, unordered_UTXOs (pool Demo.after4) Demo.sh = Answer utxos)
  ∧ (∃ assets, unordered_ASSETs (pool Demo.after4) Demo.sh = Answer assets).
Proof.
  split; [exact after4_index_ok|]. split; [by vm_compute|].
  exact (queries_never_raise_on_a_mirrored_index (pool Demo.after4) Demo.sh
           after4_index_ok).
Defined.

Lemma balance_delta_is_the_sum_over_the_mempool_witness :
  index_ok (pool Demo.after4)
  ∧ balance_delta (pool Demo.after4) 6%N = Answer (-50)
  ∧ balance_delta (pool Demo.after4) 6%N
    = Answer (sum_list (delta_at 6%N
                        <$> (map_to_list (txs (pool Demo.after4))).*2)).
Proof.
  split; [exact after4_index_ok|]. split; [by vm_compute|].
  exact (balance_delta_is_the_sum_over_the_mempool (pool Demo.after4) 6%N
           after4_index_ok).
Defined.

Lemma potential_spends_are_the_prevouts_of_the_touching_transactions_witness :
  index_ok (pool Demo.after4)
  ∧ potential_spends (pool Demo.after4) 6%N = Answer {[ (Demo.p, 0%nat) ]}
  ∧ ∃ result,
      potential_spends (pool Demo.after4) 6%N = Answer result
      ∧ ∀ po, po ∈ result
              ↔ ∃ h tx, txs (pool Demo.after4) !! h = Some tx
                        ∧ 6%N ∈ tx_hashXs_of tx
                        ∧ po ∈ prevouts tx.
Proof.
  split; [exact after4_index_ok|]. split; [by vm_compute|].
  exact (potential_spends_are_the_prevouts_of_the_touching_transactions
           (pool Demo.after4) 6%N after4_index_ok).
Defined.

Lemma transaction_summaries_has_one_summary_for_each_touching_transaction_witness :
  index_ok (pool Demo.after4)
  ∧ transaction_summaries (pool Demo.after4) Demo.sh
    = Answer [mkMemPoolTxSummary Demo.t 50 false]
  ∧ ∃ result,
      transaction_summaries (pool Demo.after4) Demo.sh = Answer result
      ∧ NoDup (summary_hash <$> result)
      ∧ ∀ s, s ∈ result
             ↔ ∃ tx, txs (pool Demo.after4) !! summary_hash s = Some tx
                     ∧ Demo.sh ∈ tx_hashXs_of tx
                     ∧ summary_fee s = fee tx
                     ∧ (has_unconfirmed_inputs s = true
                        ↔ ∃ po, po ∈ prevouts tx
                                ∧ is_Some (txs (pool Demo.after4) !! po.1)).
Proof.
  split; [exact after4_index_ok|]. split; [by vm_compute|].
  exact (transaction_summaries_has_one_summary_for_each_touching_transaction
           (pool Demo.after4) Demo.sh after4_index_ok).
Defined.

Lemma unordered_UTXOs_are_the_out_pairs_of_the_script_hash_witness :
  index_ok (pool Demo.after4)
  ∧ unordered_ASSETs (pool Demo.after4) Demo.sh
    = Answer [(-1, 0%nat, Demo.t, 0, Some "FOO"%string, 500)]
  ∧ ∃ utxos assets,
      unordered_UTXOs (pool Demo.after4) Demo.sh = Answer utxos
      ∧ unordered_ASSETs (pool Demo.after4) Demo.sh = Answer assets
      ∧ NoDup utxos
      ∧ NoDup assets
      ∧ (∀ tx_num pos h height value,
           (tx_num, pos, h, height, value) ∈ utxos
           ↔ tx_num = -1 ∧ height = 0
             ∧ ∃ tx name, txs (pool Demo.after4) !! h = Some tx
                 ∧ out_pairs tx !! pos = Some (Demo.sh, value, false, name))
      ∧ (∀ tx_num pos h height name value,
           (tx_num, pos, h, height, name, value) ∈ assets
           ↔ tx_num = -1 ∧ height = 0
             ∧ ∃ tx, txs (pool Demo.after4) !! h = Some tx
                 ∧ out_pairs tx !! pos = Some (Demo.sh, value, true, name)).
Proof.
  split; [exact after4_index_ok|]. split; [by vm_compute|].
  exact (unordered_UTXOs_are_the_out_pairs_of_the_script_hash
           (pool Demo.after4) Demo.sh after4_index_ok).
Defined.

Lemma asset_balance_delta_is_the_sum_over_the_mempool_witness :
  index_ok (pool Demo.after4)
  ∧ asset_balance_delta (pool Demo.after4) Demo.sh
    = Answer [(Some "FOO"%string, 500)]
  ∧ ∃ ret,
      asset_balance_delta (pool Demo.after4) Demo.sh = Answer ret
      ∧ NoDup ret.*1
      ∧ ∀ name v,
          dict_get name ret = Some v
          ↔ v = sum_list (asset_delta_at Demo.sh name
                          <$> (map_to_list (txs (pool Demo.after4))).*2)
            ∧ ∃ h tx, txs (pool Demo.after4) !! h = Some tx
                      ∧ mentions Demo.sh name tx = true.
Proof.
  split; [exact after4_index_ok|]. split; [by vm_compute|].
  exact (asset_balance_delta_is_the_sum_over_the_mempool (pool Demo.after4)
           Demo.sh after4_index_ok).
Defined.

(** Three transactions and [bin_size = 100]: the fees 1001 and 1000 on 250
    bytes are both rounded down to the fee rate 4.0, whose 500 bytes are
    cached; the 100 bytes at 0.1 stay below [bin_size]. *)
Lemma cached_histogram_is_strictly_decreasing_witness :
  let values := [mkMemPoolTx [] (Some []) [] 1001 250;
                 mkMemPoolTx [] (Some []) [] 10 100;
                 mkMemPoolTx [] (Some []) [] 1000 250] in
  _update_histogram float_le py_is_positive py_gt_twice py_gt py_times_1_1
    py_fee_rate values (PyInt 100) = Cached [(Prim2SF 4, 500)]
  ∧ StronglySorted (rate_gt float_le) [(Prim2SF 4, 500)]
  ∧ (∀ bucket, bucket ∈ [(Prim2SF 4, 500)] →
       ∃ tx, tx ∈ values
             ∧ py_fee_rate (fee tx) (tx_size tx) = Returned bucket.1)
  ∧ ((∀ tx, tx ∈ values → 0 ≤ tx_size tx) →
     sum_sizes [(Prim2SF 4, 500)] ≤ sum_list (tx_size <$> values)).
Proof.
  intros values.
  assert (H : _update_histogram float_le py_is_positive py_gt_twice py_gt
                py_times_1_1 py_fee_rate values (PyInt 100)
              = Cached [(Prim2SF 4, 500)])
    by (by vm_compute).
  split; [exact H|].
  exact (cached_histogram_is_strictly_decreasing float_le py_is_positive
           py_gt_twice py_gt py_times_1_1 py_fee_rate values (PyInt 100)
           _ H).
Defined.

(** The payer of [Demo] spends the only entry of [utxo_map]. *)
Lemma returned_utxo_map_is_what_the_pass_has_not_spent_witness :
  _accept_transactions Demo.empty_heap Demo.payer Demo.coin_utxo
    = ((_accept_transactions Demo.empty_heap Demo.payer Demo.coin_utxo).1,
       Returned ([], ∅))
  ∧ (∀ po utxo, (∅ : gmap prevout io_pair) !! po = Some utxo →
                Demo.coin_utxo !! po = Some utxo)
  ∧ (∀ po utxo, Demo.coin_utxo !! po = Some utxo →
       (∅ : gmap prevout io_pair) !! po = Some utxo
       ∨ ∃ h tx, (h, tx) ∈ Demo.payer ∧ po ∈ prevouts tx
                 ∧ is_Some (txs (pool (_accept_transactions Demo.empty_heap
                                         Demo.payer Demo.coin_utxo).1) !! h))
  ∧ (∀ h tx po, (h, tx) ∈ Demo.payer →
       h ∉ ([] : list (tx_hash * MemPoolTx)).*1 → po ∈ prevouts tx →
       (∅ : gmap prevout io_pair) !! po = None).
Proof.
  assert (H : _accept_transactions Demo.empty_heap Demo.payer Demo.coin_utxo
              = ((_accept_transactions Demo.empty_heap Demo.payer
                    Demo.coin_utxo).1, Returned ([], ∅)))
    by (by vm_compute).
  split; [exact H|].
  exact (returned_utxo_map_is_what_the_pass_has_not_spent Demo.empty_heap
           Demo.payer Demo.coin_utxo _ [] ∅ H).
Defined.

(** The daemon still reports t, and nothing else, after the fourth
    refresh. *)
Lemma refresh_with_the_same_hashes_changes_nothing_witness :
  cached_height Demo.refresh4 = api_height Demo.refresh4
  ∧ cached_height Demo.refresh4 = db_height Demo.refresh4
  ∧ mempool_hashes Demo.refresh4 = dom (txs (pool Demo.after4))
  ∧ refresh_turn Demo.the_lib Demo.refresh4 Demo.after4
    = (mkHeap (pool Demo.after4) ∅ ∅,
       Published (h_touched Demo.after4) (cached_height Demo.refresh4)
         (h_assets_touched Demo.after4)).
Proof.
  assert (H1 : cached_height Demo.refresh4 = api_height Demo.refresh4)
    by reflexivity.
  assert (H2 : cached_height Demo.refresh4 = db_height Demo.refresh4)
    by reflexivity.
  assert (H3 : mempool_hashes Demo.refresh4 = dom (txs (pool Demo.after4)))
    by (by vm_compute).
  split; [exact H1|]. split; [exact H2|]. split; [exact H3|].
  exact (refresh_with_the_same_hashes_changes_nothing Demo.the_lib
           Demo.refresh4 Demo.after4 H1 H2 H3).
Defined.

(** The output of t: [OP_1 OP_RVN_ASSET <payload> OP_DROP]. *)
Lemma asset_output_is_indexed_under_the_script_before_the_asset_opcode_witness :
  let txout := mkTxOutput 0 (Demo.asset_script Demo.issue_FOO) in
  let prev := mkScriptOp 81 1 None in
  let op := mkScriptOp 192 2 None in
  let after := drop 2 (get_ops Demo.the_lib (pk_script txout)) in
  get_ops Demo.the_lib (pk_script txout) = [] ++ prev :: op :: after
  ∧ (∀ o, o ∈ [] ++ [prev] → op_code o ≠ OP_RVN_ASSET Demo.the_lib)
  ∧ op_code op = OP_RVN_ASSET Demo.the_lib
  ∧ hashX_from_script Demo.the_lib (take (op_end prev) (pk_script txout))
    = Demo.sh
  ∧ ∃ group,
      txout_tuple_list (digest_output Demo.the_lib Demo.t Demo.no_locals
                          (0%nat, txout))
      = txout_tuple_list Demo.no_locals ++ group
      ∧ out_group
          (hashX_from_script Demo.the_lib
             (take (op_end prev) (pk_script txout))) group.
Proof.
  intros txout prev op after.
  assert (H1 : get_ops Demo.the_lib (pk_script txout)
               = [] ++ prev :: op :: after) by (by vm_compute).
  assert (H2 : ∀ o, o ∈ [] ++ [prev] → op_code o ≠ OP_RVN_ASSET Demo.the_lib).
  { intros o Ho. apply list_elem_of_singleton in Ho as ->. by vm_compute. }
  assert (H3 : op_code op = OP_RVN_ASSET Demo.the_lib) by reflexivity.
  split; [exact H1|]. split; [exact H2|]. split; [exact H3|].
  split; [by vm_compute|].
  exact (asset_output_is_indexed_under_the_script_before_the_asset_opcode
           Demo.the_lib Demo.t Demo.no_locals 0 txout [] prev op after
           H1 H2 H3).
Defined.
